(** * LinkSnap: the link-mention lifecycle engine

    A shallow embedding of the content script of LinkSnap (class
    [LinkSnapProcessor] and its helper functions) together with the
    properties its specification states about it.

    Modelling conventions.
    - A JavaScript string is the list of its UTF-16 code units ([jsstring]);
      the regular expressions of the source carry neither the [u] nor the
      [i] flag, so they work code unit by code unit.
    - [Map<string, Highlight>] and [Set<string>] iterate in insertion order;
      they are lists ([JsMap], [JsSet]). The durable cache is a plain
      [Record<string, LinkState>] that is only read and written by key: a
      [gmap].
    - The editable surface is its [textContent], held in one text node, and
      a [Range] is the pair of offsets [findRangeForMatch] computes.
    - Asynchronous methods are computations of the monad [M]: a state
      monad over [World] in which a JavaScript exception ([Throw]) keeps the
      mutations performed before it. The tasks [processPendingLinks] hands
      to [Promise.all] run their synchronous prefixes in order and then
      settle one after the other.
    - The host is an oracle ([Env]): what the content-fetching collaborator
      answers to its n-th call, which storage operations reject, and where
      a fault strikes during the submission sequence. The collaborator is
      assumed to answer every call. Console output is not modelled.

    Beside the processor, the file embeds the walk of [findRangeForMatch]
    over the text nodes of the surface ([Dom]), [debounce] with the timers
    of the host ([Debounce]), the listeners and [init] of the content
    script, the background script ([Background]) and the functions of the
    options page ([OptionsPage]). *)

From Stdlib Require Import Ascii String.
From stdpp Require Import base option list numbers gmap.

Set Default Proof Using "Type".
Local Open Scope N_scope.

(** ** Strings *)

Definition jsstring := list N.

(** An ASCII literal as a JavaScript string. *)
Definition js (s : string) : jsstring :=
  N_of_ascii <$> list_ascii_of_string s.

(** ECMAScript [\s]: WhiteSpace and LineTerminator code points. *)
Definition is_space (c : N) : bool :=
  bool_decide (c ∈ [9; 10; 11; 12; 13; 32; 160; 5760; 8232; 8233; 8239;
                     8287; 12288; 65279])
  || ((8192 <=? c) && (c <=? 8202)).

(** ECMAScript [\w]: [A-Za-z0-9_]. *)
Definition is_word (c : N) : bool :=
  ((48 <=? c) && (c <=? 57)) || ((65 <=? c) && (c <=? 90))
  || (c =? 95) || ((97 <=? c) && (c <=? 122)).

(** [s.startsWith(p)], returning what follows the prefix. *)
Fixpoint strip_prefix (p s : jsstring) : option jsstring :=
  match p, s with
  | [], _ => Some s
  | a :: p', b :: s' => if decide (a = b) then strip_prefix p' s' else None
  | _ :: _, [] => None
  end.

(** [text.indexOf(search)]: offset of the first occurrence, [None] for -1. *)
Fixpoint indexOf_from (pos : nat) (text search : jsstring) : option nat :=
  match strip_prefix search text with
  | Some _ => Some pos
  | None =>
      match text with
      | [] => None
      | _ :: t => indexOf_from (S pos) t search
      end
  end.

Definition indexOf (text search : jsstring) : option nat :=
  indexOf_from 0 text search.

(** [text.includes(search)]. *)
Definition includes (text search : jsstring) : bool :=
  bool_decide (is_Some (indexOf text search)).

(** ** Regular expressions

    The fragment of ECMAScript regular expressions used by the source:
    sequences of quantified single-character atoms with one capture group,
    matched greedily with backtracking. *)

Inductive cls :=
  | CChar (c : N)     (* a literal character *)
  | CSpace            (* \s *)
  | CNotSpace.        (* [^\s] *)

Definition cls_test (k : cls) (c : N) : bool :=
  match k with
  | CChar a => bool_decide (a = c)
  | CSpace => is_space c
  | CNotSpace => negb (is_space c)
  end.

Inductive quant := One | Opt | Plus.

Inductive node :=
  | Atom (k : cls) (q : quant)
  | Open.             (* the opening parenthesis of capture group 1 *)

Definition lit (s : string) : list node :=
  (λ c, Atom (CChar c) One) <$> js s.

(** [exec_at re cap s] matches [re] at the start of [s]. [cap] is the input
    at the point where group 1 opened, if it has. The result is that point
    and the input left after the match. *)
Fixpoint exec_at (re : list node) (cap : option jsstring) (s : jsstring)
    : option (option jsstring * jsstring) :=
  match re with
  | [] => Some (cap, s)
  | Open :: re' => exec_at re' (Some s) s
  | Atom k One :: re' =>
      match s with
      | c :: t => if cls_test k c then exec_at re' cap t else None
      | [] => None
      end
  | Atom k Opt :: re' =>
      match s with
      | c :: t =>
          if cls_test k c then
            match exec_at re' cap t with
            | Some r => Some r
            | None => exec_at re' cap s
            end
          else exec_at re' cap s
      | [] => exec_at re' cap s
      end
  | Atom k Plus :: re' =>
      (fix plus (s : jsstring) :=
         match s with
         | c :: t =>
             if cls_test k c then
               match plus t with
               | Some r => Some r
               | None => exec_at re' cap t
               end
             else None
         | [] => None
         end) s
  end.

(** [const URL_REGEX = /@link\s+(https?:\/\/[^\s]+)/g]; group 1 closes where
    the pattern ends. *)
Definition URL_REGEX : list node :=
  lit "@link" ++ [Atom CSpace Plus; Open] ++ lit "http"
  ++ [Atom (CChar 115) Opt] ++ lit "://" ++ [Atom CNotSpace Plus].

(** A match object: [match[0]], [match[1]] and [match.index]. *)
Record RegExpMatch := {
  m0 : jsstring;
  m1 : jsstring;
  index : nat;
}.

(** One attempt of [URL_REGEX] at the start of [s]: the matched text and
    the text of group 1. *)
Definition match_here (s : jsstring) : option (jsstring * jsstring) :=
  match exec_at URL_REGEX None s with
  | Some (Some g, rest) =>
      Some (take (length s - length rest) s, take (length g - length rest) g)
  | _ => None
  end.

(** The scan over the text. After a match of length [n] at [pos] the search
    resumes at [pos + n] ([lastIndex]): the [skip] characters still covered
    by the last match are passed over. [URL_REGEX] matches no empty string,
    so no attempt is made at the end of the text. *)
Fixpoint scan (skip pos : nat) (s : jsstring) : list RegExpMatch :=
  match s with
  | [] => []
  | _ :: t =>
      match skip with
      | S k => scan k (S pos) t
      | O =>
          match match_here s with
          | Some (m, g) =>
              {| m0 := m; m1 := g; index := pos |}
                :: scan (pred (length m)) (S pos) t
          | None => scan 0 (S pos) t
          end
      end
  end.

(** [Array.from(text.matchAll(URL_REGEX))]. *)
Definition matchAll (text : jsstring) : list RegExpMatch := scan 0 0 text.

(** [function generateId(text) { return text.replace(/\W/g, "_"); }] *)
Definition generateId (text : jsstring) : jsstring :=
  (λ c, if is_word c then c else 95) <$> text.


(** ** Data model *)

Inductive Status := Pending | Fetching | Done | Error.

Global Instance Status_eq_dec : EqDecision Status.
Proof. solve_decision. Defined.

(** The fields of [response.data.metadata] the content script reads. *)
Record Metadata := {
  title : option jsstring;
  description : option jsstring;
  meta_error : option jsstring;
}.

(** [interface LinkState], with the [metadata] field [processLink] adds. *)
Record LinkState := {
  url : jsstring;
  status : Status;
  context : option jsstring;
  metadata : option Metadata;
  screenshot : option jsstring;
  error : option jsstring;
}.

(** [interface Highlight]; [range] holds the start and end offsets. *)
Record Highlight := {
  id : jsstring;
  text : jsstring;
  range : nat * nat;
  state : LinkState;
}.

(** [highlight.state.status = s] *)
Definition with_status (s : Status) (st : LinkState) : LinkState :=
  {| url := url st; status := s; context := context st;
     metadata := metadata st; screenshot := screenshot st;
     error := error st |}.

Definition with_state (st : LinkState) (h : Highlight) : Highlight :=
  {| id := id h; text := text h; range := range h; state := st |}.

(** [{ url, status: "pending" }] *)
Definition pendingState (url : jsstring) : LinkState :=
  {| url := url; status := Pending; context := None; metadata := None;
     screenshot := None; error := None |}.

(** [{ id, text, range, state: { url, status: "pending" } }] *)
Definition newHighlight (id text : jsstring) (range : nat * nat)
    (url : jsstring) : Highlight :=
  {| id := id; text := text; range := range; state := pendingState url |}.

(** A JavaScript value used as a condition: a string is truthy unless it is
    empty, [undefined] is falsy. *)
Definition truthy (v : option jsstring) : bool :=
  match v with
  | Some (_ :: _) => true
  | _ => false
  end.

(** [Map<string, V>]: entries in insertion order, one per key. *)
Module JsMap.
Section defs.
Context {V : Type}.

Fixpoint get (k : jsstring) (m : list (jsstring * V)) : option V :=
  match m with
  | [] => None
  | (k', v) :: m' => if decide (k' = k) then Some v else get k m'
  end.

Definition has (k : jsstring) (m : list (jsstring * V)) : bool :=
  bool_decide (is_Some (get k m)).

(** [set] keeps the position of a key that is present and appends a
    new one. *)
Fixpoint set (k : jsstring) (v : V) (m : list (jsstring * V))
    : list (jsstring * V) :=
  match m with
  | [] => [(k, v)]
  | (k', v') :: m' =>
      if decide (k' = k) then (k, v) :: m' else (k', v') :: set k v m'
  end.

Definition delete (k : jsstring) (m : list (jsstring * V))
    : list (jsstring * V) :=
  filter (λ e, e.1 ≠ k) m.

Definition keys (m : list (jsstring * V)) : list jsstring := m.*1.
Definition values (m : list (jsstring * V)) : list V := m.*2.
End defs.
End JsMap.

(** [Set<string>]: elements in insertion order, each once. *)
Module JsSet.
Definition has (x : jsstring) (s : list jsstring) : bool :=
  bool_decide (x ∈ s).
Definition add (x : jsstring) (s : list jsstring) : list jsstring :=
  if decide (x ∈ s) then s else s ++ [x].
Definition delete (x : jsstring) (s : list jsstring) : list jsstring :=
  filter (λ y, y ≠ x) s.
End JsSet.

(** ** The host: collaborator, storage, page *)

Record JsError := { message : jsstring }.

Record OriginalData := { od_screenshot : option jsstring }.

Record ResponseData := {
  markdown : jsstring;
  data_metadata : option Metadata;
  originalData : option OriginalData;
}.

(** What the background script sends back for [fetchContext]. *)
Record Response := {
  success : bool;
  data : option ResponseData;
  resp_error : option jsstring;
}.

(** One call to the collaborator: the message channel faults, or the
    callback runs with a response, or with [undefined]. *)
Inductive FetchOutcome :=
  | Faulted (e : JsError)
  | Answered (r : option Response).

Inductive Trigger := click | enter.

(** The awaited steps of the submission sequence. *)
Inductive Step :=
  | StepShow | StepProcess | StepInject | StepTrigger | StepSettle.

(** How [pasteImageFromUrl] ends. *)
Inductive ImageOutcome :=
  | Uploaded          (* the file input took the image *)
  | NoFileInput       (* no file input under the container *)
  | ImageFault.       (* a fault: the fallback paragraph is appended *)

Record Env := {
  net : nat → FetchOutcome;
  storageFault : nat → option JsError;
  stepFault : Step → option JsError;
  image : jsstring → ImageOutcome;
}.

Inductive Event :=
  | EvCacheRead
  | EvCacheWrite (blob : gmap jsstring LinkState)
  | EvFetch (u : jsstring)
  | EvDelay (ms : N)
  | EvNativeSubmit (t : Trigger)
  | EvErrorMessage (msg : jsstring)
  | EvImageUpload (u : jsstring)
  | EvImageFallback (u : jsstring).

(** The fields of [LinkSnapProcessor], the parts of the page it touches,
    the extension storage and the history of host interactions. *)
Record World := {
  highlights : list (jsstring * Highlight);
  pendingLinks : list jsstring;
  highlightOverlay : option (list Status);
  isProcessing : bool;
  shouldBypassInterception : bool;
  inputDiv : option jsstring;
  loadingIndicator : option bool;
  submitButton : bool;
  contextCache : option (gmap jsstring LinkState);
  netCalls : nat;
  storageOps : nat;
  events : list Event;
}.

Definition set_highlights (v : list (jsstring * Highlight)) (w : World) : World :=
  {| highlights := v; pendingLinks := pendingLinks w;
     highlightOverlay := highlightOverlay w; isProcessing := isProcessing w;
     shouldBypassInterception := shouldBypassInterception w;
     inputDiv := inputDiv w; loadingIndicator := loadingIndicator w;
     submitButton := submitButton w; contextCache := contextCache w;
     netCalls := netCalls w; storageOps := storageOps w;
     events := events w |}.

Definition set_pendingLinks (v : list jsstring) (w : World) : World :=
  {| highlights := highlights w; pendingLinks := v;
     highlightOverlay := highlightOverlay w; isProcessing := isProcessing w;
     shouldBypassInterception := shouldBypassInterception w;
     inputDiv := inputDiv w; loadingIndicator := loadingIndicator w;
     submitButton := submitButton w; contextCache := contextCache w;
     netCalls := netCalls w; storageOps := storageOps w;
     events := events w |}.

Definition set_highlightOverlay (v : option (list Status)) (w : World) : World :=
  {| highlights := highlights w; pendingLinks := pendingLinks w;
     highlightOverlay := v; isProcessing := isProcessing w;
     shouldBypassInterception := shouldBypassInterception w;
     inputDiv := inputDiv w; loadingIndicator := loadingIndicator w;
     submitButton := submitButton w; contextCache := contextCache w;
     netCalls := netCalls w; storageOps := storageOps w;
     events := events w |}.

Definition set_isProcessing (v : bool) (w : World) : World :=
  {| highlights := highlights w; pendingLinks := pendingLinks w;
     highlightOverlay := highlightOverlay w; isProcessing := v;
     shouldBypassInterception := shouldBypassInterception w;
     inputDiv := inputDiv w; loadingIndicator := loadingIndicator w;
     submitButton := submitButton w; contextCache := contextCache w;
     netCalls := netCalls w; storageOps := storageOps w;
     events := events w |}.

Definition set_shouldBypassInterception (v : bool) (w : World) : World :=
  {| highlights := highlights w; pendingLinks := pendingLinks w;
     highlightOverlay := highlightOverlay w; isProcessing := isProcessing w;
     shouldBypassInterception := v; inputDiv := inputDiv w;
     loadingIndicator := loadingIndicator w; submitButton := submitButton w;
     contextCache := contextCache w; netCalls := netCalls w;
     storageOps := storageOps w; events := events w |}.

Definition set_inputDiv (v : option jsstring) (w : World) : World :=
  {| highlights := highlights w; pendingLinks := pendingLinks w;
     highlightOverlay := highlightOverlay w; isProcessing := isProcessing w;
     shouldBypassInterception := shouldBypassInterception w; inputDiv := v;
     loadingIndicator := loadingIndicator w; submitButton := submitButton w;
     contextCache := contextCache w; netCalls := netCalls w;
     storageOps := storageOps w; events := events w |}.

Definition set_loadingIndicator (v : option bool) (w : World) : World :=
  {| highlights := highlights w; pendingLinks := pendingLinks w;
     highlightOverlay := highlightOverlay w; isProcessing := isProcessing w;
     shouldBypassInterception := shouldBypassInterception w;
     inputDiv := inputDiv w; loadingIndicator := v;
     submitButton := submitButton w; contextCache := contextCache w;
     netCalls := netCalls w; storageOps := storageOps w;
     events := events w |}.

Definition set_contextCache (v : option (gmap jsstring LinkState)) (w : World) : World :=
  {| highlights := highlights w; pendingLinks := pendingLinks w;
     highlightOverlay := highlightOverlay w; isProcessing := isProcessing w;
     shouldBypassInterception := shouldBypassInterception w;
     inputDiv := inputDiv w; loadingIndicator := loadingIndicator w;
     submitButton := submitButton w; contextCache := v;
     netCalls := netCalls w; storageOps := storageOps w;
     events := events w |}.

Definition set_netCalls (v : nat) (w : World) : World :=
  {| highlights := highlights w; pendingLinks := pendingLinks w;
     highlightOverlay := highlightOverlay w; isProcessing := isProcessing w;
     shouldBypassInterception := shouldBypassInterception w;
     inputDiv := inputDiv w; loadingIndicator := loadingIndicator w;
     submitButton := submitButton w; contextCache := contextCache w;
     netCalls := v; storageOps := storageOps w; events := events w |}.

Definition set_storageOps (v : nat) (w : World) : World :=
  {| highlights := highlights w; pendingLinks := pendingLinks w;
     highlightOverlay := highlightOverlay w; isProcessing := isProcessing w;
     shouldBypassInterception := shouldBypassInterception w;
     inputDiv := inputDiv w; loadingIndicator := loadingIndicator w;
     submitButton := submitButton w; contextCache := contextCache w;
     netCalls := netCalls w; storageOps := v; events := events w |}.

Definition set_events (v : list Event) (w : World) : World :=
  {| highlights := highlights w; pendingLinks := pendingLinks w;
     highlightOverlay := highlightOverlay w; isProcessing := isProcessing w;
     shouldBypassInterception := shouldBypassInterception w;
     inputDiv := inputDiv w; loadingIndicator := loadingIndicator w;
     submitButton := submitButton w; contextCache := contextCache w;
     netCalls := netCalls w; storageOps := storageOps w; events := v |}.

(** ** The monad of asynchronous methods *)

Inductive Res (A : Type) :=
  | Ok (a : A)
  | Throw (e : JsError).
Global Arguments Ok {A} a.
Global Arguments Throw {A} e.

Definition M (A : Type) : Type := World → Res A * World.

Global Instance M_ret : MRet M := λ A a w, (Ok a, w).

Global Instance M_bind : MBind M := λ A B f m w,
  match m w with
  | (Ok a, w1) => f a w1
  | (Throw e, w1) => (Throw e, w1)
  end.

(** [throw e] *)
Definition throw {A} (e : JsError) : M A := λ w, (Throw e, w).

(** A synchronous method that cannot fault. *)
Definition lift (f : World → World) : M unit := λ w, (Ok tt, f w).

(** [try { body } catch (error) { handler }] *)
Definition tryCatch {A} (body : M A) (handler : JsError → M A) : M A :=
  λ w,
    match body w with
    | (Ok a, w1) => (Ok a, w1)
    | (Throw e, w1) => handler e w1
    end.

(** [try { body } catch (error) { handler } finally { fin }]: [fin] runs on
    every path; a fault of [handler] is rethrown after it. *)
Definition tryCatchFinally (body : M unit) (handler : JsError → M unit)
    (fin : M unit) : M unit :=
  λ w,
    match tryCatch body handler w with
    | (Ok _, w1) => fin w1
    | (Throw e, w1) =>
        match fin w1 with
        | (Ok _, w2) => (Throw e, w2)
        | (Throw e', w2) => (Throw e', w2)
        end
    end.

(** [await Promise.all(tasks)] for tasks that settle in order: every task
    runs, and the first rejection is the one reported. *)
Fixpoint promiseAll (tasks : list (M unit)) : M unit :=
  match tasks with
  | [] => mret tt
  | t :: ts =>
      λ w,
        match t w with
        | (Ok _, w1) => promiseAll ts w1
        | (Throw e, w1) => (Throw e, (promiseAll ts w1).2)
        end
  end.

Definition emit (e : Event) (w : World) : World :=
  set_events (events w ++ [e]) w.

(** ** Helper functions of the content script *)

(** [findRangeForMatch(element, searchText)]: [null] when the text does not
    occur, else the range over its first occurrence. *)
Definition findRangeForMatch (textContent searchText : jsstring)
    : option (nat * nat) :=
  match indexOf textContent searchText with
  | None => None
  | Some i => Some (i, (i + length searchText)%nat)
  end.

(** [const delay = (ms) => new Promise(...)] *)
Definition delay (ms : N) : M unit := lift (emit (EvDelay ms)).

(** ** LinkSnapProcessor *)

Section Processor.
Variable env : Env.

(** [this.contextCache.getValue()] *)
Definition getValue : M (option (gmap jsstring LinkState)) :=
  λ w,
    let w1 := set_storageOps (S (storageOps w)) w in
    match storageFault env (storageOps w) with
    | Some e => (Throw e, w1)
    | None => (Ok (contextCache w), emit EvCacheRead w1)
    end.

(** [this.contextCache.setValue(cache)] *)
Definition setValue (cache : gmap jsstring LinkState) : M unit :=
  λ w,
    let w1 := set_storageOps (S (storageOps w)) w in
    match storageFault env (storageOps w) with
    | Some e => (Throw e, w1)
    | None => (Ok tt, emit (EvCacheWrite cache) (set_contextCache (Some cache) w1))
    end.

(** [fetchLinkContext(url)] *)
Definition fetchLinkContext (url : jsstring) : M (option Response) :=
  λ w,
    let w1 := emit (EvFetch url) (set_netCalls (S (netCalls w)) w) in
    match net env (netCalls w) with
    | Faulted e => (Throw e, w1)
    | Answered r => (Ok r, w1)
    end.

(** [renderHighlights()]: one box per live highlight, styled by status. *)
Definition renderHighlights (w : World) : World :=
  match highlightOverlay w with
  | None => w
  | Some _ =>
      set_highlightOverlay
        (Some ((λ h, status (state h)) <$> JsMap.values (highlights w))) w
  end.

(** [updateHighlightState(id, state)] *)
Definition updateHighlightState (id : jsstring) (st : LinkState)
    (w : World) : World :=
  match JsMap.get id (highlights w) with
  | Some highlight =>
      renderHighlights
        (set_highlights (JsMap.set id (with_state st highlight) (highlights w)) w)
  | None => w
  end.

(** The first loop of [updateHighlights]; [currentIds] is its local set. *)
Definition addMatch (text : jsstring) (acc : World * list jsstring)
    (m : RegExpMatch) : World * list jsstring :=
  let '(w, currentIds) := acc in
  let id := generateId (m0 m) in
  let currentIds := JsSet.add id currentIds in
  if JsMap.has id (highlights w) then (w, currentIds)
  else
    match findRangeForMatch text (m0 m) with
    | Some range =>
        (set_pendingLinks (JsSet.add (m1 m) (pendingLinks w))
           (set_highlights
              (JsMap.set id (newHighlight id (m0 m) range (m1 m))
                 (highlights w)) w),
         currentIds)
    | None => (w, currentIds)
    end.

(** The second loop of [updateHighlights]. *)
Definition dropStale (currentIds : list jsstring) (w : World)
    (entry : jsstring * Highlight) : World :=
  let '(id, highlight) := entry in
  if JsSet.has id currentIds then w
  else
    set_pendingLinks (JsSet.delete (url (state highlight)) (pendingLinks w))
      (set_highlights (JsMap.delete id (highlights w)) w).

(** [updateHighlights()] *)
Definition updateHighlights (w : World) : World :=
  match inputDiv w, highlightOverlay w with
  | Some text, Some _ =>
      let matches := matchAll text in
      let '(w1, currentIds) := foldl (addMatch text) (w, []) matches in
      let w2 := foldl (dropStale currentIds) w1 (highlights w1) in
      renderHighlights w2
  | _, _ => w
  end.

(** The [done] state [processLink] builds from a successful response. *)
Definition doneState (url : jsstring) (d : ResponseData) : LinkState :=
  let shot := originalData d ≫= od_screenshot in
  {| url := url; status := Done; context := Some (markdown d);
     metadata := data_metadata d;
     screenshot := if truthy shot then shot else None;
     error := None |}.

Definition errorState (url : jsstring) (e : JsError) : LinkState :=
  {| url := url; status := Error; context := None; metadata := None;
     screenshot := None; error := Some (message e) |}.

(** [response.data?.metadata?.error || "Unknown error"] *)
Definition failureMessage (r : Response) : jsstring :=
  let reported := (data r ≫= data_metadata) ≫= meta_error in
  if truthy reported then default [] reported else js "Unknown error".

(** The fault of reading [response.success] on [undefined]. *)
Definition undefinedResponse : JsError :=
  {| message := js "Cannot read properties of undefined (reading 'success')" |}.

(** One iteration of the retry loop of [processLink]; the result tells
    whether the method returned from inside the [try]. The local [cache]
    is only ever assigned at [url], and assigned again before each later
    use, so every blob handed to [setValue] is the blob read with [url]
    overwritten. *)
Definition attemptOnce (id url : jsstring)
    (cache : gmap jsstring LinkState) (attempt : N) : M bool :=
  tryCatch
    (response ← fetchLinkContext url;
     match response with
     | None => throw undefinedResponse
     | Some r =>
         match success r, data r with
         | true, Some d =>
             let newState := doneState url d in
             lift (updateHighlightState id newState);;
             setValue (<[url:=newState]> cache);;
             mret true
         | _, _ => throw {| message := failureMessage r |}
         end
     end)
    (λ error,
       (if decide (attempt = 2) then
          lift (updateHighlightState id (errorState url error));;
          setValue (<[url:=errorState url error]> cache)
        else delay (1000 * (attempt + 1)));;
       mret false).

(** [for (let attempt = 0; attempt < 3; attempt++)], entered with
    [remaining] iterations to go. *)
Fixpoint attemptLoop (id url : jsstring) (cache : gmap jsstring LinkState)
    (remaining : nat) (attempt : N) : M unit :=
  match remaining with
  | O => mret tt
  | S remaining' =>
      returned ← attemptOnce id url cache attempt;
      if returned : bool then mret tt
      else attemptLoop id url cache remaining' (attempt + 1)
  end.

(** [processLink(id, url)] *)
Definition processLink (id url : jsstring) : M unit :=
  stored ← getValue;
  let cache := default ∅ stored in
  match cache !! url with
  | Some cached => lift (updateHighlightState id cached)
  | None => attemptLoop id url cache 3 0
  end.

(** The synchronous prefix of one task of [processPendingLinks]: up to
    the call of [processLink], which is queued. *)
Definition startTask (acc : World * list (M unit)) (url : jsstring)
    : World * list (M unit) :=
  let '(w, tasks) := acc in
  let id := generateId (js "@link " ++ url) in
  match JsMap.get id (highlights w) with
  | Some highlight =>
      if decide (status (state highlight) = Pending) then
        (renderHighlights
           (set_highlights
              (JsMap.set id
                 (with_state (with_status Fetching (state highlight)) highlight)
                 (highlights w)) w),
         tasks ++ [processLink id url])
      else (w, tasks)
  | None => (w, tasks)
  end.

(** [processPendingLinks()] *)
Definition processPendingLinks : M unit :=
  λ w,
    let '(w1, tasks) := foldl startTask (w, []) (pendingLinks w) in
    (promiseAll tasks;; lift (set_pendingLinks [])) w1.

(** [pasteImageFromUrl(url, body)]: its own [catch] absorbs every fault. *)
Definition pasteImageFromUrl (u : jsstring) (w : World) : World :=
  match image env u with
  | Uploaded => emit (EvImageUpload u) w
  | NoFileInput => w
  | ImageFault => emit (EvImageFallback u) w
  end.

(** The text of the paragraph [injectContext] appends for a state. *)
Definition contextText (st : LinkState) : jsstring :=
  let contextText :=
    [10; 10] ++ js "Context for " ++ url st ++ js ":" ++ [10]
    ++ default [] (context st) in
  match metadata st with
  | Some md =>
      if truthy (title md) && bool_decide (title md ≠ description md) then
        [10; 10] ++ js "# " ++ default [] (title md) ++ [10; 10]
        ++ contextText
      else contextText
  | None => contextText
  end.

(** The body of the loop of [injectContext]; [content] is the text read
    before the loop. *)
Definition injectOne (content : jsstring) (acc : World * bool)
    (highlight : Highlight) : World * bool :=
  let '(w, injectedAny) := acc in
  let linkText := js "@link " ++ url (state highlight) in
  if bool_decide (status (state highlight) = Done)
     && truthy (context (state highlight))
     && includes content linkText
  then
    let w1 :=
      set_inputDiv ((λ t, t ++ contextText (state highlight)) <$> inputDiv w) w in
    let w2 :=
      if truthy (screenshot (state highlight)) then
        pasteImageFromUrl (default [] (screenshot (state highlight))) w1
      else w1 in
    (w2, true)
  else (w, injectedAny).

(** [injectContext()] *)
Definition injectContext : M bool :=
  λ w,
    match inputDiv w with
    | None => (Ok false, w)
    | Some content =>
        let '(w1, injectedAny) :=
          foldl (injectOne content) (w, false) (JsMap.values (highlights w)) in
        (Ok injectedAny, w1)
    end.

Definition showLoadingIndicator (w : World) : World :=
  match loadingIndicator w with
  | Some _ => set_loadingIndicator (Some true) w
  | None => w
  end.

Definition hideLoadingIndicator (w : World) : World :=
  match loadingIndicator w with
  | Some _ => set_loadingIndicator (Some false) w
  | None => w
  end.

Definition showErrorMessage (msg : jsstring) (w : World) : World :=
  emit (EvErrorMessage msg) w.

(** [triggerNativeSubmission(triggerType)] *)
Definition triggerNativeSubmission (triggerType : Trigger) (w : World)
    : World :=
  if submitButton w then
    match triggerType with
    | enter =>
        match inputDiv w with
        | Some _ => emit (EvNativeSubmit enter) w
        | None => w
        end
    | click => emit (EvNativeSubmit click) w
    end
  else w.

(** A step of the submission sequence, during which the host may raise a
    fault. *)
Definition during {A} (s : Step) (body : M A) : M A :=
  a ← body;
  match stepFault env s with
  | Some e => throw e
  | None => mret a
  end.

(** [handleSubmitAttempt(triggerType)] *)
Definition handleSubmitAttempt (triggerType : Trigger) : M unit :=
  λ w,
    if isProcessing w then (Ok tt, w)
    else
      tryCatchFinally
        (during StepShow (lift showLoadingIndicator);;
         during StepProcess processPendingLinks;;
         wasInjected ← during StepInject injectContext;
         lift (set_shouldBypassInterception true);;
         during StepTrigger (lift (triggerNativeSubmission triggerType));;
         during StepSettle (delay 1000))
        (λ error,
           lift (showErrorMessage
                   (js "An error occurred while processing your submission.")))
        (lift hideLoadingIndicator;;
         lift (set_isProcessing false);;
         lift (set_shouldBypassInterception false))
        (set_isProcessing true w).
End Processor.

(** A processor right after [init()], on a page with the editable surface
    holding [text], with nothing cached. *)
Definition initial (text : jsstring) : World :=
  {| highlights := []; pendingLinks := []; highlightOverlay := Some [];
     isProcessing := false; shouldBypassInterception := false;
     inputDiv := Some text; loadingIndicator := Some false;
     submitButton := true; contextCache := None;
     netCalls := 0; storageOps := 0; events := [] |}.

(** ** Notions used by the statements *)

(** The shape of the text captured by group 1 of [URL_REGEX]. *)
Definition is_url (u : jsstring) : Prop :=
  ∃ o tok, u = js "http" ++ o ++ js "://" ++ tok ∧ (o = [] ∨ o = [115])
           ∧ tok ≠ [] ∧ Forall (λ c, is_space c = false) tok.


(** The id of the highlight of a mention. *)
Definition mentionId (m : RegExpMatch) : jsstring := generateId (m0 m).


(** The range over the first occurrence of [search]. *)
Definition firstRange (text search : jsstring) : nat * nat :=
  default (0, 0)%nat (findRangeForMatch text search).

(** The store entry reconciliation makes for a mention. *)
Definition entry (text : jsstring) (m : RegExpMatch) : jsstring * Highlight :=
  (mentionId m,
   newHighlight (mentionId m) (m0 m) (firstRange text (m0 m)) (m1 m)).









(** The fault an attempt ends with, if the outcome of the call is a failure:
    a thrown fault, an [undefined] response, or a response that does not both
    report success and carry data. *)
Definition failure (o : FetchOutcome) : option JsError :=
  match o with
  | Faulted e => Some e
  | Answered None => Some undefinedResponse
  | Answered (Some r) =>
      match success r, data r with
      | true, Some _ => None
      | _, _ => Some {| message := failureMessage r |}
      end
  end.

(** The time waited in a history. *)
Definition waited (evs : list Event) : N :=
  foldr (λ e t, match e with EvDelay ms => ms + t | _ => t end) 0 evs.

(** What one host interaction leaves behind: the history grows by [evs],
    the counters by [n] collaborator calls and [s] storage operations. *)
Definition hostStep (evs : list Event) (n s : nat) (w w' : World) : Prop :=
  events w' = events w ++ evs
  ∧ netCalls w' = (n + netCalls w)%nat
  ∧ storageOps w' = (s + storageOps w)%nat.

(** [triple P m Q E]: from a world satisfying [P], [m] ends in a world
    satisfying [Q] with its result, or throws in a world satisfying [E]. *)
Definition triple {A} (P : World → Prop) (m : M A)
    (Q : A → World → Prop) (E : JsError → World → Prop) : Prop :=
  ∀ w, P w →
    match m w with
    | (Ok a, w') => Q a w'
    | (Throw e, w') => E e w'
    end.

Definition terminal (st : LinkState) : Prop :=
  status st = Done ∨ status st = Error.

Definition cacheTerminal (w : World) : Prop :=
  map_Forall (λ _ st, terminal st) (default ∅ (contextCache w)).

Definition reliable (env : Env) : Prop := ∀ n, storageFault env n = None.

(** What never changes about a store entry once made. *)
Definition shape (H : list (jsstring * Highlight))
    : list (jsstring * jsstring * jsstring * (nat * nat)) :=
  (λ e, (e.1, id e.2, text e.2, range e.2)) <$> H.

Definition hostEvent (urls : jsstring → Prop) (e : Event) : Prop :=
  match e with
  | EvFetch u => urls u
  | EvCacheRead | EvCacheWrite _ | EvDelay _ => True
  | _ => False
  end.

(** The footprint of fetching: only the states of the highlights in [ids]
    change, only the URLs in [urls] are asked for. *)
Definition linkStep (ids urls : jsstring → Prop) (w w' : World) : Prop :=
  isProcessing w' = isProcessing w
  ∧ shouldBypassInterception w' = shouldBypassInterception w
  ∧ inputDiv w' = inputDiv w
  ∧ loadingIndicator w' = loadingIndicator w
  ∧ submitButton w' = submitButton w
  ∧ shape (highlights w') = shape (highlights w)
  ∧ (∀ k, ¬ ids k → JsMap.get k (highlights w') = JsMap.get k (highlights w))
  ∧ ∃ evs, events w' = events w ++ evs ∧ Forall (hostEvent urls) evs.

(** A state that belongs to the URL [u]. *)
Definition stateOf (u : jsstring) (st : LinkState) : Prop := url st = u.

(** What [processLink] for [url] may do to the durable cache: nothing,
    or overwrite the entry of [url] with a terminal state for that URL. *)
Definition cacheStep (u : jsstring) (w0 w : World) : Prop :=
  contextCache w = contextCache w0
  ∨ ∃ st, terminal st ∧ url st = u
          ∧ contextCache w = Some (<[u:=st]> (default ∅ (contextCache w0))).

(** The invariant of [processLink id url] started in [w0]. *)
Definition linkInv (id url : jsstring) (w0 w : World) : Prop :=
  linkStep (eq id) (eq url) w0 w ∧ cacheStep url w0 w.

Definition linkExc (env : Env) (id url : jsstring) (w0 : World)
    (e : JsError) (w : World) : Prop :=
  linkInv id url w0 w ∧ ¬ reliable env.

(** The id [processPendingLinks] looks a pending URL up by. *)
Definition lookupId (url : jsstring) : jsstring :=
  generateId (js "@link " ++ url).

(** The tasks [processPendingLinks] starts for the URLs [us] from [w]. *)
Definition startedFor (env : Env) (us : list jsstring) (w : World) (t : M unit) : Prop :=
  ∃ u, u ∈ us ∧ is_Some (JsMap.get (lookupId u) (highlights w))
       ∧ t = processLink env (lookupId u) u.

(** The cache of a session in which [https://example.com] was fetched. *)
Definition example_url : jsstring := js "https://example.com".

Definition example_done : LinkState :=
  {| url := example_url; status := Done; context := Some (js "Example body");
     metadata := None; screenshot := None; error := None |}.

Definition example_surface : jsstring :=
  js "check this @link https://example.com out".

(** A host whose storage works and whose collaborator answers [r] to every call. *)
Definition answering (r : Response) : Env :=
  {| net := λ _, Answered (Some r); storageFault := λ _, None;
     stepFault := λ _, None; image := λ _, NoFileInput |}.

Definition example_ok : Response :=
  {| success := true;
     data := Some {| markdown := js "Example body"; data_metadata := None;
                     originalData := None |};
     resp_error := None |}.

(** The answer of the background script when the API key is missing. *)
Definition example_keyless : Response :=
  {| success := false; data := None;
     resp_error := Some (js "Firecrawl API key not found") |}.

Definition cached_world : World :=
  set_contextCache (Some {[ example_url := example_done ]})
    (updateHighlights (initial example_surface)).

Definition unknown_error : JsError := {| message := js "Unknown error" |}.



(** The number of whitespace characters between [@link] and the URL. *)
Definition separator (m : RegExpMatch) : nat :=
  (length (m0 m) - 5 - length (m1 m))%nat.









(** The two states of the Submission Guard. *)
Inductive GuardState := Idle | Processing.

Definition guardState (w : World) : GuardState :=
  if isProcessing w then Processing else Idle.

(** The loading indicator is not on display. *)
Definition loadingHidden (w : World) : Prop := loadingIndicator w ≠ Some true.

(** A host that raises a fault while the context is being injected. *)
Definition faulty : Env :=
  {| net := λ _, Answered (Some example_ok); storageFault := λ _, None;
     stepFault := λ s, match s with
                       | StepInject => Some {| message := js "fault" |}
                       | _ => None
                       end;
     image := λ _, NoFileInput |}.

(** A highlight whose content [injectContext] appends to the surface that
    read [content]: [done], with fetched content, its ["@link " + url]
    still in the text. *)
Definition injectable (content : jsstring) (h : Highlight) : Prop :=
  status (state h) = Done
  ∧ truthy (context (state h)) = true
  ∧ includes content (js "@link " ++ url (state h)) = true.



(** The input [s] does not go on with a character of class [k]. *)
Definition stops (k : cls) (s : jsstring) : Prop :=
  match s with
  | [] => True
  | c :: _ => cls_test k c = false
  end.

(** ** The text nodes of the editable surface

    [findRangeForMatch] as the source has it: a walk over the text nodes
    under the element. The processor above works on a surface whose text
    sits in one text node; the walk below is the general case. *)

Module Dom.

(** A node under the editable surface: a text node with its data, or a
    node of another type with its children (a comment counts as a node
    without children: it adds nothing to [textContent], and the walk finds
    no text node in it). *)
Local Unset Elimination Schemes.
Inductive Node :=
  | Text (data : jsstring)
  | Element (childNodes : list Node).
Local Set Elimination Schemes.

(** [node.textContent] *)
Fixpoint textContent (node : Node) : jsstring :=
  match node with
  | Text data => data
  | Element childNodes => mjoin (textContent <$> childNodes)
  end.

(** Where a boundary point of a range lies: in the document, or in the text
    node reached from the element by a path of child indices. *)
Inductive Container :=
  | Document
  | TextAt (path : list nat).

Global Instance Container_eq_dec : EqDecision Container.
Proof. solve_decision. Defined.

Record Range := {
  startContainer : Container;
  startOffset : nat;
  endContainer : Container;
  endOffset : nat;
}.

(** [document.createRange()]: collapsed at the start of the document. *)
Definition createRange : Range :=
  {| startContainer := Document; startOffset := 0;
     endContainer := Document; endOffset := 0 |}.

(** Tree order of two text nodes given by their paths. *)
Fixpoint path_lt (p q : list nat) : bool :=
  match p, q with
  | i :: p', j :: q' =>
      if decide (i < j)%nat then true
      else if decide (j < i)%nat then false
      else path_lt p' q'
  | [], _ :: _ => true
  | _, [] => false
  end.

(** Whether the boundary point [(c1, o1)] is before [(c2, o2)]; the
    document's offsets other than 0 do not occur. *)
Definition before (c1 : Container) (o1 : nat) (c2 : Container) (o2 : nat)
    : bool :=
  match c1, c2 with
  | Document, Document => bool_decide (o1 < o2)%nat
  | Document, TextAt _ => true
  | TextAt _, Document => false
  | TextAt p, TextAt q =>
      if decide (p = q) then bool_decide (o1 < o2)%nat else path_lt p q
  end.

(** The [DOMException] a range raises for an offset past the end of the
    node; the text of its message is the browser's. *)
Definition indexSizeError : JsError := {| message := js "IndexSizeError" |}.

(** [range.setStart(node, offset)] for the text node at [path], whose data
    has [len] code units: an end that would come before the new start is
    moved to it. *)
Definition setStart (path : list nat) (len offset : nat) (range : Range)
    : Res Range :=
  if decide (len < offset)%nat then Throw indexSizeError
  else if before (endContainer range) (endOffset range) (TextAt path) offset
  then Ok {| startContainer := TextAt path; startOffset := offset;
             endContainer := TextAt path; endOffset := offset |}
  else Ok {| startContainer := TextAt path; startOffset := offset;
             endContainer := endContainer range;
             endOffset := endOffset range |}.

(** [range.setEnd(node, offset)], likewise. *)
Definition setEnd (path : list nat) (len offset : nat) (range : Range)
    : Res Range :=
  if decide (len < offset)%nat then Throw indexSizeError
  else if before (TextAt path) offset (startContainer range) (startOffset range)
  then Ok {| startContainer := TextAt path; startOffset := offset;
             endContainer := TextAt path; endOffset := offset |}
  else Ok {| startContainer := startContainer range;
             startOffset := startOffset range;
             endContainer := TextAt path; endOffset := offset |}.

(** The inner function [findTextNode(node)] of [findRangeForMatch]. It
    closes over [index], [searchText] (of [len] code units), [range] and
    the counter [currentIndex]; the two it changes are passed through.
    [path] leads from the element to [node]. *)
Fixpoint findTextNode (index len : nat) (node : Node) (path : list nat)
    (currentIndex : nat) (range : Range) : Res (bool * nat * Range) :=
  match node with
  | Text nodeText =>
      if decide (index < currentIndex + length nodeText)%nat then
        match setStart path (length nodeText) (index - currentIndex) range with
        | Throw e => Throw e
        | Ok range1 =>
            match setEnd path (length nodeText)
                    (index - currentIndex + len) range1 with
            | Throw e => Throw e
            | Ok range2 => Ok (true, currentIndex, range2)
            end
        end
      else Ok (false, (currentIndex + length nodeText)%nat, range)
  | Element childNodes =>
      (fix each (children : list Node) (i currentIndex : nat) (range : Range)
         : Res (bool * nat * Range) :=
         match children with
         | [] => Ok (false, currentIndex, range)
         | childNode :: rest =>
             match findTextNode index len childNode (path ++ [i])
                     currentIndex range with
             | Throw e => Throw e
             | Ok (true, currentIndex', range') =>
                 Ok (true, currentIndex', range')
             | Ok (false, currentIndex', range') =>
                 each rest (S i) currentIndex' range'
             end
         end) childNodes 0%nat currentIndex range
  end.

(** [findRangeForMatch(element, searchText)] *)
Definition findRangeForMatch (element : Node) (searchText : jsstring)
    : Res (option Range) :=
  match indexOf (textContent element) searchText with
  | None => Ok None
  | Some index =>
      match findTextNode index (length searchText) element [] 0 createRange with
      | Throw e => Throw e
      | Ok (_, _, range) => Ok (Some range)
      end
  end.

(** The data of the text node at a path. *)
Fixpoint textAt (node : Node) (path : list nat) : option jsstring :=
  match path, node with
  | [], Text data => Some data
  | i :: path', Element childNodes =>
      match childNodes !! i with
      | Some child => textAt child path'
      | None => None
      end
  | _, _ => None
  end.

(** The text of the element that comes before the node at a path. *)
Fixpoint textBefore (node : Node) (path : list nat) : jsstring :=
  match path, node with
  | i :: path', Element childNodes =>
      mjoin (textContent <$> take i childNodes)
      ++ match childNodes !! i with
         | Some child => textBefore child path'
         | None => []
         end
  | _, _ => []
  end.

(** The range over [start, end) of the text node at [path]. *)
Definition rangeIn (path : list nat) (start end_ : nat) : Range :=
  {| startContainer := TextAt path; startOffset := start;
     endContainer := TextAt path; endOffset := end_ |}.

(** The text a range selects, for a range within one text node. *)
Definition selected (element : Node) (range : Range) : option jsstring :=
  match startContainer range, endContainer range with
  | TextAt p, TextAt q =>
      if decide (p = q) then
        (λ data, take (endOffset range - startOffset range)
                   (drop (startOffset range) data)) <$> textAt element p
      else None
  | _, _ => None
  end.

(** What a walk for the offset [index] and a search text of [len] code
    units may end with, when it entered [node] with the counter at [ci];
    [base] is the counter at the node the paths start from, and [total]
    the length of the text the walk has yet to pass. *)
Definition walked (index len base ci total : nat) (path : list nat)
    (range : Range) (node : Node) (res : Res (bool * nat * Range)) : Prop :=
  match res with
  | Ok (false, ci', range') =>
      ci' = (ci + total)%nat ∧ (ci' ≤ index)%nat ∧ range' = range
  | Ok (true, _, range') =>
      ∃ q data, textAt node q = Some data
        ∧ let b := (base + length (textBefore node q))%nat in
          (b ≤ index < b + length data)%nat
          ∧ (index - b + len ≤ length data)%nat
          ∧ range' = rangeIn (path ++ q) (index - b) (index - b + len)
  | Throw e =>
      e = indexSizeError
      ∧ ∃ q data, textAt node q = Some data
        ∧ let b := (base + length (textBefore node q))%nat in
          (b ≤ index < b + length data)%nat
          ∧ (length data < index - b + len)%nat
  end.

(** The first occurrence of [searchText] in the text of [element] begins
    in a text node and runs past its end. *)
Definition crosses (element : Node) (searchText : jsstring) : Prop :=
  ∃ i path data,
    indexOf (textContent element) searchText = Some i
    ∧ textAt element path = Some data
    ∧ (length (textBefore element path) ≤ i
       < length (textBefore element path) + length data)%nat
    ∧ (length (textBefore element path) + length data
       < i + length searchText)%nat.

(** A paragraph whose text is split over two text nodes inside a mention. *)
Definition split_paragraph : Node :=
  Element [Element [Text (js "see @link https://exa"); Text (js "mple.com now")]].

(** A paragraph with marked-up text before the mention. *)
Definition marked_paragraph : Node :=
  Element [Element [Text (js "see "); Element [Text (js "this")];
                    Text (js ": @link https://example.com now")]].

End Dom.

(** ** [debounce] and the timers of the host *)

Module Debounce.
Section debounce.
Context {Args : Type}.

(** [wait]: the delay [debounce] is given. *)
Variable wait : nat.

(** A timer the host holds for the closure: its id, the time it is due
    and the arguments its callback hands to [func]. *)
Record Timer := {
  timerId : nat;
  due : nat;
  args : Args;
}.

(** The closure of [debounce(func, wait)] and its part of the host: the
    variable [timeout] ([null] or a timer id), the timers set and not yet
    run or cleared, the id the next timer gets, the clock, and the calls
    of [func] made so far, each with its time. *)
Record State := {
  timeout : option nat;
  timers : list Timer;
  nextId : nat;
  now : nat;
  invoked : list (nat * Args);
}.

(** Timer ids are positive. *)
Definition start : State :=
  {| timeout := None; timers := []; nextId := 1; now := 0; invoked := [] |}.

(** [clearTimeout(id)] *)
Definition clearTimeout (id : nat) (s : State) : State :=
  {| timeout := timeout s;
     timers := filter (λ t, timerId t ≠ id) (timers s);
     nextId := nextId s; now := now s; invoked := invoked s |}.

(** [setTimeout(() => func(...args), wait)], returning the id. *)
Definition setTimeout (a : Args) (s : State) : nat * State :=
  (nextId s,
   {| timeout := timeout s;
      timers := timers s
                ++ [{| timerId := nextId s; due := (now s + wait)%nat;
                       args := a |}];
      nextId := S (nextId s); now := now s; invoked := invoked s |}).

(** The function [debounce] returns:
    [if (timeout) clearTimeout(timeout); timeout = setTimeout(...)]. *)
Definition debounced (a : Args) (s : State) : State :=
  let s1 :=
    match timeout s with
    | Some id => if decide (id = 0%nat) then s else clearTimeout id s
    | None => s
    end in
  let '(id, s2) := setTimeout a s1 in
  {| timeout := Some id; timers := timers s2; nextId := nextId s2;
     now := now s2; invoked := invoked s2 |}.

(** Time passes until [t]: the timers due by then run and leave the
    table. Every timer of the closure has the same delay, so the table is
    in the order of the due times. A timer due at [t] runs before whatever
    else happens at [t]. *)
Definition advance (t : nat) (s : State) : State :=
  {| timeout := timeout s;
     timers := filter (λ tm, ¬ (due tm ≤ t)%nat) (timers s);
     nextId := nextId s; now := Nat.max (now s) t;
     invoked := invoked s
                ++ ((λ tm, (due tm, args tm))
                      <$> filter (λ tm, (due tm ≤ t)%nat) (timers s)) |}.

(** The debounced function is called at the times of [script] with the
    arguments given there, and time then passes until [horizon]. *)
Definition run (script : list (nat * Args)) (horizon : nat) (s : State)
    : State :=
  advance horizon (foldl (λ s c, debounced c.2 (advance c.1 s)) s script).

(** The calls of a script after which nothing is called for [wait], each
    with the time [wait] after it. *)
Fixpoint settled (script : list (nat * Args)) (horizon : nat)
    : list (nat * Args) :=
  match script with
  | [] => []
  | (t, a) :: rest =>
      let next := match rest with [] => horizon | (t', _) :: _ => t' end in
      (if decide (t + wait ≤ next)%nat then [((t + wait)%nat, a)] else [])
      ++ settled rest horizon
  end.

(** The times of a script do not go back. *)
Fixpoint ordered (script : list (nat * Args)) : Prop :=
  match script with
  | (t, _) :: (((t', _) :: _) as rest) => (t ≤ t')%nat ∧ ordered rest
  | _ => True
  end.

(** A burst: each call comes less than [wait] after the one before. *)
Fixpoint burst (script : list (nat * Args)) : Prop :=
  match script with
  | (t, _) :: (((t', _) :: _) as rest) =>
      (t ≤ t' < t + wait)%nat ∧ burst rest
  | _ => True
  end.

(** At most one timer is pending, and [timeout] names it. *)
Definition tidy (s : State) : Prop :=
  (1 ≤ nextId s)%nat
  ∧ (timers s = []
     ∨ ∃ tm, timers s = [tm] ∧ timeout s = Some (timerId tm)
             ∧ (1 ≤ timerId tm < nextId s)%nat
             ∧ (due tm ≤ now s + wait)%nat).

End debounce.
End Debounce.

(** ** The background script *)

Module Background.

(** [sync:options] *)
Record Options := {
  extractSchema : bool;
  captureScreenshot : bool;
  fullPageContent : bool;
  maxTimeout : N;
}.

(** [interface ExtractSchema] *)
Record TechnicalDetails := {
  technologies : option (list jsstring);
  apis : option (list jsstring);
  frameworks : option (list jsstring);
}.

Record Pricing := {
  model : jsstring;
  hasFreeOption : bool;
  startingPrice : option jsstring;
}.

Record ExtractSchema := {
  ex_title : jsstring;
  summary : jsstring;
  keyPoints : list jsstring;
  technicalDetails : option TechnicalDetails;
  pricing : option Pricing;
}.

(** What the Firecrawl client answers to [scrapeUrl], as far as the
    wrapper reads it. *)
Record ScrapeResponse := {
  sr_success : bool;
  sr_markdown : option jsstring;
  sr_extract : option ExtractSchema;
  sr_screenshot : option jsstring;
  sr_metadata : option Metadata;
  sr_error : option jsstring;
}.

(** The options handed to the client. [formats] is a reference to an
    array; [extract] tells whether the extraction schema is attached. *)
Record ScrapeOptions := {
  formats : nat;
  onlyMainContent : bool;
  timeout : N;
  extract : bool;
}.

(** A call of the client as the client sees it: the key it was made with,
    the URL, and the options with the array read. *)
Record Request := {
  req_apiKey : jsstring;
  req_url : jsstring;
  req_formats : list jsstring;
  req_onlyMainContent : bool;
  req_timeout : N;
  req_extract : bool;
}.

Inductive ApiOutcome :=
  | ApiThrows (e : JsError)
  | ApiAnswers (response : ScrapeResponse).

(** The host of the background script: what the client answers to its
    n-th call, and which dynamic imports and storage reads are rejected. *)
Record Host := {
  api : nat → ApiOutcome;
  importFault : nat → option JsError;
  readFault : nat → option JsError;
}.

(** The fields of [EnhancedFirecrawlWrapper] (the client [app] is known by
    the key it was made with), the two storage items the script reads, and
    the history of its dealings with the host. *)
Record State := {
  app : option jsstring;
  FirecrawlApp : bool;
  options : Options;
  optionsStorage : option Options;
  firecrawlKeyStorage : option jsstring;
  requests : list Request;
  imports : nat;
  reads : nat;
}.

Definition set_app (v : option jsstring) (s : State) : State :=
  {| app := v; FirecrawlApp := FirecrawlApp s; options := options s;
     optionsStorage := optionsStorage s;
     firecrawlKeyStorage := firecrawlKeyStorage s; requests := requests s;
     imports := imports s; reads := reads s |}.

Definition set_FirecrawlApp (v : bool) (s : State) : State :=
  {| app := app s; FirecrawlApp := v; options := options s;
     optionsStorage := optionsStorage s;
     firecrawlKeyStorage := firecrawlKeyStorage s; requests := requests s;
     imports := imports s; reads := reads s |}.

Definition set_options (v : Options) (s : State) : State :=
  {| app := app s; FirecrawlApp := FirecrawlApp s; options := v;
     optionsStorage := optionsStorage s;
     firecrawlKeyStorage := firecrawlKeyStorage s; requests := requests s;
     imports := imports s; reads := reads s |}.

Definition set_optionsStorage (v : option Options) (s : State) : State :=
  {| app := app s; FirecrawlApp := FirecrawlApp s; options := options s;
     optionsStorage := v;
     firecrawlKeyStorage := firecrawlKeyStorage s; requests := requests s;
     imports := imports s; reads := reads s |}.

Definition set_firecrawlKeyStorage (v : option jsstring) (s : State) : State :=
  {| app := app s; FirecrawlApp := FirecrawlApp s; options := options s;
     optionsStorage := optionsStorage s;
     firecrawlKeyStorage := v; requests := requests s;
     imports := imports s; reads := reads s |}.

Definition set_requests (v : list Request) (s : State) : State :=
  {| app := app s; FirecrawlApp := FirecrawlApp s; options := options s;
     optionsStorage := optionsStorage s;
     firecrawlKeyStorage := firecrawlKeyStorage s; requests := v;
     imports := imports s; reads := reads s |}.

Definition set_imports (v : nat) (s : State) : State :=
  {| app := app s; FirecrawlApp := FirecrawlApp s; options := options s;
     optionsStorage := optionsStorage s;
     firecrawlKeyStorage := firecrawlKeyStorage s; requests := requests s;
     imports := v; reads := reads s |}.

Definition set_reads (v : nat) (s : State) : State :=
  {| app := app s; FirecrawlApp := FirecrawlApp s; options := options s;
     optionsStorage := optionsStorage s;
     firecrawlKeyStorage := firecrawlKeyStorage s; requests := requests s;
     imports := imports s; reads := v |}.

(** [scrapeOptions.extract = { schema }] *)
Definition with_extract (scrapeOptions : ScrapeOptions) : ScrapeOptions :=
  {| formats := formats scrapeOptions;
     onlyMainContent := onlyMainContent scrapeOptions;
     timeout := timeout scrapeOptions; extract := true |}.

(** [{ ...a, ...b }] for two objects that have the four keys. *)
Definition spread (a b : Options) : Options :=
  {| extractSchema := extractSchema b;
     captureScreenshot := captureScreenshot b;
     fullPageContent := fullPageContent b; maxTimeout := maxTimeout b |}.

(** The field initialisers of the class. *)
Definition defaults : Options :=
  {| extractSchema := true; captureScreenshot := true;
     fullPageContent := false; maxTimeout := 30000 |}.

(** The background script as it starts, with what the storage holds. *)
Definition boot (storedOptions : option Options) (storedKey : option jsstring)
    : State :=
  {| app := None; FirecrawlApp := false; options := defaults;
     optionsStorage := storedOptions; firecrawlKeyStorage := storedKey;
     requests := []; imports := 0; reads := 0 |}.

(** The asynchronous methods of the background script. *)
Definition M (A : Type) : Type := State → Res A * State.

Global Instance M_ret : MRet M := λ A a s, (Ok a, s).

Global Instance M_bind : MBind M := λ A B f m s,
  match m s with
  | (Ok a, s1) => f a s1
  | (Throw e, s1) => (Throw e, s1)
  end.

Definition throw {A} (e : JsError) : M A := λ s, (Throw e, s).

Definition lift (f : State → State) : M unit := λ s, (Ok tt, f s).

(** [try { body } catch (error) { handler }] *)
Definition tryCatch {A} (body : M A) (handler : JsError → M A) : M A :=
  λ s,
    match body s with
    | (Ok a, s1) => (Ok a, s1)
    | (Throw e, s1) => handler e s1
    end.

(** [items.join(separator)] *)
Fixpoint join (separator : jsstring) (items : list jsstring) : jsstring :=
  match items with
  | [] => []
  | [item] => item
  | item :: rest => item ++ separator ++ join separator rest
  end.

(** [formatExtractedData(extract)] *)
Definition formatExtractedData (extract : ExtractSchema) : jsstring :=
  let markdown := js "# " ++ ex_title extract ++ [10; 10] in
  let markdown :=
    markdown ++ js "## Summary" ++ [10] ++ summary extract ++ [10; 10] in
  let markdown := markdown ++ js "## Key Points" ++ [10] in
  let markdown :=
    foldl (λ markdown point, markdown ++ js "- " ++ point ++ [10])
      markdown (keyPoints extract) in
  let markdown :=
    match technicalDetails extract with
    | Some details =>
        let markdown := markdown ++ [10] ++ js "## Technical Details" ++ [10] in
        let markdown :=
          match technologies details with
          | Some items =>
              markdown ++ js "### Technologies" ++ [10]
              ++ join [10] ((λ t, js "- " ++ t) <$> items) ++ [10]
          | None => markdown
          end in
        let markdown :=
          match apis details with
          | Some items =>
              markdown ++ js "### APIs" ++ [10]
              ++ join [10] ((λ a, js "- " ++ a) <$> items) ++ [10]
          | None => markdown
          end in
        match frameworks details with
        | Some items =>
            markdown ++ js "### Frameworks" ++ [10]
            ++ join [10] ((λ f, js "- " ++ f) <$> items) ++ [10]
        | None => markdown
        end
    | None => markdown
    end in
  match pricing extract with
  | Some p =>
      let markdown := markdown ++ [10] ++ js "## Pricing" ++ [10] in
      let markdown := markdown ++ js "- Model: " ++ model p ++ [10] in
      let markdown :=
        markdown ++ js "- Free Option: "
        ++ (if hasFreeOption p then js "Yes" else js "No") ++ [10] in
      if truthy (startingPrice p) then
        markdown ++ js "- Starting Price: " ++ default [] (startingPrice p)
        ++ [10]
      else markdown
  | None => markdown
  end.

(** [s.startsWith(prefix)] *)
Definition startsWith (s prefix : jsstring) : bool :=
  bool_decide (is_Some (strip_prefix prefix s)).

(** The URL [processResponse] puts into the markdown for a screenshot. *)
Definition screenshotUrl (screenshot : jsstring) : jsstring :=
  if startsWith screenshot (js "data:") then screenshot
  else js "data:image/png;base64," ++ screenshot.

(** [{}] as metadata. *)
Definition noMetadata : Metadata :=
  {| title := None; description := None; meta_error := None |}.

(** [processResponse(response)]; [originalData] is the response itself, of
    which the content script reads the screenshot. *)
Definition processResponse (response : ScrapeResponse) : ResponseData :=
  let markdownContent := default [] (sr_markdown response) in
  let markdownContent :=
    match sr_extract response with
    | Some extract => formatExtractedData extract ++ [10; 10] ++ markdownContent
    | None => markdownContent
    end in
  let markdownContent :=
    if truthy (sr_screenshot response) then
      markdownContent ++ [10; 10] ++ js "![Page Screenshot]("
      ++ screenshotUrl (default [] (sr_screenshot response)) ++ js ")"
    else markdownContent in
  {| markdown := markdownContent;
     data_metadata := Some (default noMetadata (sr_metadata response));
     originalData := Some {| od_screenshot := sr_screenshot response |} |}.

Section Wrapper.
Variable host : Host.

(** [item.getValue()] of a storage item holding [value]. *)
Definition getValue {A} (value : State → option A) : M (option A) :=
  λ s,
    let s1 := set_reads (S (reads s)) s in
    match readFault host (reads s) with
    | Some e => (Throw e, s1)
    | None => (Ok (value s), s1)
    end.

(** [initialize()] *)
Definition initialize : M unit :=
  storedOptions ← getValue optionsStorage;
  match storedOptions with
  | Some stored => lift (λ s, set_options (spread (options s) stored) s)
  | None => mret tt
  end.

(** [getApiKey()] *)
Definition getApiKey : M jsstring :=
  storedKey ← getValue firecrawlKeyStorage;
  if truthy storedKey then mret (default [] storedKey)
  else throw {| message := js "Firecrawl API key not found" |}.

(** [await import("@mendable/firecrawl-js")] *)
Definition importModule : M unit :=
  λ s,
    let s1 := set_imports (S (imports s)) s in
    match importFault host (imports s) with
    | Some e => (Throw e, s1)
    | None => (Ok tt, s1)
    end.

(** [getApp()] *)
Definition getApp : M jsstring :=
  λ s,
    match app s with
    | Some client => (Ok client, s)
    | None =>
        ((if FirecrawlApp s then mret tt
          else importModule;; lift (set_FirecrawlApp true));;
         apiKey ← getApiKey;
         lift (set_app (Some apiKey));;
         mret apiKey) s
    end.

(** [app.scrapeUrl(url, scrapeOptions)]: the client reads the options,
    the array of formats through its reference in the store [arrays]. *)
Definition callClient (client url : jsstring) (arrays : list (list jsstring))
    (scrapeOptions : ScrapeOptions) : M ScrapeResponse :=
  λ s,
    let request :=
      {| req_apiKey := client; req_url := url;
         req_formats := default [] (arrays !! formats scrapeOptions);
         req_onlyMainContent := onlyMainContent scrapeOptions;
         req_timeout := timeout scrapeOptions;
         req_extract := extract scrapeOptions |} in
    let s1 := set_requests (requests s ++ [request]) s in
    match api host (length (requests s)) with
    | ApiThrows e => (Throw e, s1)
    | ApiAnswers response => (Ok response, s1)
    end.

(** [array.push(item)] on the array at [ref]. *)
Definition push (ref : nat) (item : jsstring) (arrays : list (list jsstring))
    : list (list jsstring) :=
  alter (λ items, items ++ [item]) ref arrays.

(** [scrapeUrl(url)]. The array [formats] is allocated once; the local
    variable and [scrapeOptions.formats] both refer to it. *)
Definition scrapeUrl (url : jsstring) : M Response :=
  tryCatch
    (client ← getApp;
     (λ s,
       let formats := 0%nat in
       let arrays := [[js "markdown"]] in
       let arrays :=
         if captureScreenshot (options s) then push formats (js "screenshot") arrays
         else arrays in
       let scrapeOptions :=
         {| formats := formats;
            onlyMainContent := negb (fullPageContent (options s));
            timeout := maxTimeout (options s); extract := false |} in
       let '(arrays, scrapeOptions) :=
         if extractSchema (options s) then
           (push formats (js "extract") arrays, with_extract scrapeOptions)
         else (arrays, scrapeOptions) in
       (response ← callClient client url arrays scrapeOptions;
        if sr_success response then
          mret {| success := true; data := Some (processResponse response);
                  resp_error := None |}
        else
          throw {| message := if truthy (sr_error response)
                              then default [] (sr_error response)
                              else js "Scraping failed" |}) s) : M Response)
    (λ error,
       mret {| success := false; data := None;
               resp_error := Some (message error) |}).

End Wrapper.

(** The listener for messages: [pendingRequests] maps a request id to the
    [sendResponse] of its sender, known here by the number of the channel;
    [sent] lists what went out on which channel. *)
Record Listener := {
  pendingRequests : list (jsstring * nat);
  sent : list (nat * Response);
}.

(** The synchronous part of the listener, for a message with the given
    [action] and the request id drawn for it; the result is what the
    listener returns ([true] keeps the channel open). *)
Definition onMessage (action requestId : jsstring) (sendResponse : nat)
    (l : Listener) : bool * Listener :=
  if decide (action = js "fetchContext") then
    (true,
     {| pendingRequests := JsMap.set requestId sendResponse (pendingRequests l);
        sent := sent l |})
  else (false, l).

(** The callback of [scrapeUrl(...).then] for the request id [requestId]. *)
Definition onScraped (requestId : jsstring) (result : Response)
    (l : Listener) : Listener :=
  match JsMap.get requestId (pendingRequests l) with
  | Some sendResponseFn =>
      {| pendingRequests := JsMap.delete requestId (pendingRequests l);
         sent := sent l ++ [(sendResponseFn, result)] |}
  | None => l
  end.

(** What the listener goes through: a [fetchContext] message arrives on a
    channel and is given a request id, or a scrape settles. *)
Inductive Step :=
  | Arrives (requestId : jsstring) (channel : nat)
  | Settles (requestId : jsstring) (result : Response).

Definition step (l : Listener) (e : Step) : Listener :=
  match e with
  | Arrives requestId channel =>
      (onMessage (js "fetchContext") requestId channel l).2
  | Settles requestId result => onScraped requestId result l
  end.

Definition idle : Listener := {| pendingRequests := []; sent := [] |}.

(** The requests that arrive in a run, each with its channel, and the
    scrapes that settle in it, each with its result. *)
Definition arrivals (run : list Step) : list (jsstring * nat) :=
  omap (λ e, match e with
             | Arrives requestId channel => Some (requestId, channel)
             | Settles _ _ => None
             end) run.

Definition settlements (run : list Step) : list (jsstring * Response) :=
  omap (λ e, match e with
             | Arrives _ _ => None
             | Settles requestId result => Some (requestId, result)
             end) run.

(** Every scrape that settles in the run was started by a message that
    arrived before; [seen] are the ids of the messages before the run. *)
Fixpoint started (seen : list jsstring) (run : list Step) : Prop :=
  match run with
  | [] => True
  | Arrives requestId _ :: rest => started (seen ++ [requestId]) rest
  | Settles requestId _ :: rest => requestId ∈ seen ∧ started seen rest
  end.

End Background.

(** ** The options page *)

Module OptionsPage.

(** The state of the component [App]. *)
Record Page := {
  options : Background.Options;
  apiKey : jsstring;
  cachedLinks : gmap jsstring LinkState;
}.

(** [useState] initial values. *)
Definition mount : Page :=
  {| options := Background.defaults; apiKey := []; cachedLinks := ∅ |}.

(** A key of the options with a value for it. *)
Inductive Change :=
  | ExtractSchema (value : bool)
  | CaptureScreenshot (value : bool)
  | FullPageContent (value : bool)
  | MaxTimeout (value : N).

(** [{ ...options, [key]: value }] *)
Definition changed (change : Change) (o : Background.Options)
    : Background.Options :=
  match change with
  | ExtractSchema value =>
      {| Background.extractSchema := value;
         Background.captureScreenshot := Background.captureScreenshot o;
         Background.fullPageContent := Background.fullPageContent o;
         Background.maxTimeout := Background.maxTimeout o |}
  | CaptureScreenshot value =>
      {| Background.extractSchema := Background.extractSchema o;
         Background.captureScreenshot := value;
         Background.fullPageContent := Background.fullPageContent o;
         Background.maxTimeout := Background.maxTimeout o |}
  | FullPageContent value =>
      {| Background.extractSchema := Background.extractSchema o;
         Background.captureScreenshot := Background.captureScreenshot o;
         Background.fullPageContent := value;
         Background.maxTimeout := Background.maxTimeout o |}
  | MaxTimeout value =>
      {| Background.extractSchema := Background.extractSchema o;
         Background.captureScreenshot := Background.captureScreenshot o;
         Background.fullPageContent := Background.fullPageContent o;
         Background.maxTimeout := value |}
  end.

(** [loadData()], with the storage as the background script and the
    content script have it. *)
Definition loadData (s : Background.State) (w : World) (p : Page) : Page :=
  {| options := default (options p) (Background.optionsStorage s);
     apiKey := default [] (Background.firecrawlKeyStorage s);
     cachedLinks := default ∅ (contextCache w) |}.

(** [handleOptionChange(key, value)] *)
Definition handleOptionChange (change : Change) (p : Page)
    (s : Background.State) : Page * Background.State :=
  let newOptions := changed change (options p) in
  ({| options := newOptions; apiKey := apiKey p;
      cachedLinks := cachedLinks p |},
   Background.set_optionsStorage (Some newOptions) s).

(** [handleApiKeyChange(e)], [e.target.value] being [newApiKey]. *)
Definition handleApiKeyChange (newApiKey : jsstring) (p : Page)
    (s : Background.State) : Page * Background.State :=
  ({| options := options p; apiKey := newApiKey;
      cachedLinks := cachedLinks p |},
   Background.set_firecrawlKeyStorage (Some newApiKey) s).

(** [clearCache()] *)
Definition clearCache (p : Page) (w : World) : Page * World :=
  ({| options := options p; apiKey := apiKey p; cachedLinks := ∅ |},
   set_contextCache (Some ∅) w).

End OptionsPage.

(** A host of the background script on which nothing is rejected and the
    client answers every call with [response]. *)
Definition serving (response : Background.ScrapeResponse) : Background.Host :=
  {| Background.api := λ _, Background.ApiAnswers response;
     Background.importFault := λ _, None;
     Background.readFault := λ _, None |}.

(** A page scraped with a screenshot that is not a [data:] URL. *)
Definition example_scrape : Background.ScrapeResponse :=
  {| Background.sr_success := true;
     Background.sr_markdown := Some (js "Example body");
     Background.sr_extract := None;
     Background.sr_screenshot := Some (js "iVBORw0KGgo=");
     Background.sr_metadata := None;
     Background.sr_error := None |}.

(** The request the wrapper makes for [url] with the client made with the
    key [client], when its options are [o]. *)
Definition requestFor (client url : jsstring) (o : Background.Options)
    : Background.Request :=
  {| Background.req_apiKey := client; Background.req_url := url;
     Background.req_formats :=
       [js "markdown"]
       ++ (if Background.captureScreenshot o then [js "screenshot"] else [])
       ++ (if Background.extractSchema o then [js "extract"] else []);
     Background.req_onlyMainContent := negb (Background.fullPageContent o);
     Background.req_timeout := Background.maxTimeout o;
     Background.req_extract := Background.extractSchema o |}.

(** The lines of a list: each item after ["- "], on a line of its own. *)
Definition bullets (items : list jsstring) : jsstring :=
  mjoin ((λ item, js "- " ++ item ++ [10]) <$> items).

(** A list under its heading, as [formatExtractedData] renders the lists
    of the technical details: an empty list leaves an empty line. *)
Definition listed (heading : string) (items : option (list jsstring))
    : jsstring :=
  match items with
  | Some [] => js heading ++ [10; 10]
  | Some items => js heading ++ [10] ++ bullets items
  | None => []
  end.

(** Two requests in flight with one request id. *)
Definition colliding_run : list Background.Step :=
  [Background.Arrives (js "k3x9") 1; Background.Arrives (js "k3x9") 2;
   Background.Settles (js "k3x9") example_ok;
   Background.Settles (js "k3x9") example_keyless].

Definition distinct_run : list Background.Step :=
  [Background.Arrives (js "k3x9") 1; Background.Arrives (js "a0") 2;
   Background.Settles (js "a0") example_ok;
   Background.Settles (js "k3x9") example_keyless].

(** ** The listeners of the content script *)

(** What the listeners read of a [keydown] event, and of the page when it
    is dispatched: [activeInInput] says that [document.activeElement] is
    the editable surface or lies inside it. *)
Record KeyboardEvent := {
  key : jsstring;
  shiftKey : bool;
  activeInInput : bool;
}.

(** A call whose promise is dropped ([void f()], or a listener that does
    not await it): the caller sees no rejection. *)
Definition detached (m : M unit) : M unit := λ w, (Ok tt, (m w).2).

Section Listeners.
Variable env : Env.

(** The listener [setupKeyInterception] puts on [window], capturing. The
    result tells whether it prevented the default action of the event and
    stopped its propagation (it does both or neither). *)
Definition keyInterception (event : KeyboardEvent) : M bool :=
  λ w,
    if shouldBypassInterception w then (Ok false, w)
    else if bool_decide (key event = js "Enter") && negb (shiftKey event) then
      if bool_decide (is_Some (inputDiv w)) && activeInInput event then
        (detached (handleSubmitAttempt env enter);; mret true) w
      else (Ok false, w)
    else (Ok false, w).

(** The listener [setupKeyListeners] puts on [document]. *)
Definition keyListener (event : KeyboardEvent) : M unit :=
  if bool_decide (key event = js " ") || bool_decide (key event = js "Enter")
  then detached (processPendingLinks env)
  else mret tt.

(** A [keydown] event: the capturing listener on [window] runs first, and
    the listener on [document] only if the event was not stopped. The
    result is [event.defaultPrevented]. *)
Definition keydown (event : KeyboardEvent) : M bool :=
  stopped ← keyInterception event;
  if stopped : bool then mret true
  else keyListener event;; mret false.

(** The listener [setupButtonInterception] puts on [document], capturing,
    for a [click] whose target is, or is not, inside the send button. *)
Definition buttonInterception (onSubmitButton : bool) : M bool :=
  λ w,
    if shouldBypassInterception w then (Ok false, w)
    else if onSubmitButton then
      (detached (handleSubmitAttempt env click);; mret true) w
    else (Ok false, w).





(** The steps of [handleSubmitAttempt] up to the native submission. *)
Definition untilTrigger : M unit :=
  during env StepShow (lift showLoadingIndicator);;
  during env StepProcess (processPendingLinks env);;
  wasInjected ← during env StepInject (injectContext env);
  lift (set_shouldBypassInterception true).

(** The [try] block of [handleSubmitAttempt]. *)
Definition submission (triggerType : Trigger) : M unit :=
  during env StepShow (lift showLoadingIndicator);;
  during env StepProcess (processPendingLinks env);;
  wasInjected ← during env StepInject (injectContext env);
  lift (set_shouldBypassInterception true);;
  during env StepTrigger (lift (triggerNativeSubmission triggerType));;
  during env StepSettle (delay 1000).



End Listeners.


(** ** Notions used by the further statements *)

(** The history of [n] failed attempts that are not the last, the first
    of them being attempt number [attempt]. *)
Fixpoint failedAttempts (url : jsstring) (attempt : N) (n : nat)
    : list Event :=
  match n with
  | O => []
  | S n' =>
      [EvFetch url; EvDelay (1000 * (attempt + 1))]
      ++ failedAttempts url (attempt + 1) n'
  end.

(** A match moved [n] code units to the right. *)
Definition shifted (n : nat) (m : RegExpMatch) : RegExpMatch :=
  {| m0 := m0 m; m1 := m1 m; index := (n + index m)%nat |}.




(** A host whose collaborator gives no response to the first call and
    answers the later ones. *)
Definition flaky : Env :=
  {| net := λ n, match n with
                 | O => Answered None
                 | _ => Answered (Some example_ok)
                 end;
     storageFault := λ _, None; stepFault := λ _, None;
     image := λ _, NoFileInput |}.

(** A host whose storage rejects its second operation. *)
Definition write_faulty : Env :=
  {| net := λ _, Answered (Some example_ok);
     storageFault := λ n, match n with
                          | 1%nat => Some {| message := js "quota" |}
                          | _ => None
                          end;
     stepFault := λ _, None; image := λ _, NoFileInput |}.

(** The native submissions dispatched and the error messages shown in a
    history. *)
Definition nativeSubmissions (evs : list Event) : list Trigger :=
  omap (λ e, match e with EvNativeSubmit t => Some t | _ => None end) evs.

Definition errorMessages (evs : list Event) : list jsstring :=
  omap (λ e, match e with EvErrorMessage msg => Some msg | _ => None end) evs.

(** Whether a computation ran to its end without a fault. *)
Definition completes {A} (r : Res A * World) : bool :=
  match r.1 with
  | Ok _ => true
  | Throw _ => false
  end.

(** Whether the page has what [triggerNativeSubmission] needs to dispatch
    the gesture: the send button, and for Enter the editable surface. *)
Definition dispatchable (triggerType : Trigger) (w : World) : bool :=
  submitButton w
  && match triggerType with
     | click => true
     | enter => bool_decide (is_Some (inputDiv w))
     end.

(** What the steps before the native submission keep of the world [w0]
    they start in. *)
Definition quiet (w0 w : World) : Prop :=
  submitButton w = submitButton w0
  ∧ (is_Some (inputDiv w) ↔ is_Some (inputDiv w0))
  ∧ ∃ evs, events w = events w0 ++ evs
           ∧ nativeSubmissions evs = [] ∧ errorMessages evs = [].

(** A code unit [generateId] leaves as, or turns into, an underscore. *)
Definition placeholder (c : N) : bool := negb (is_word c) || (c =? 95).

(** A host that raises a fault while the submission sequence waits after
    the native submission. *)
Definition late_fault : Env :=
  {| net := λ _, Answered (Some example_ok); storageFault := λ _, None;
     stepFault := λ s, match s with
                       | StepSettle => Some {| message := js "fault" |}
                       | _ => None
                       end;
     image := λ _, NoFileInput |}.

(** * Properties *)

(** ** Strings and the mention scanner *)

Lemma strip_prefix_Some p s r : strip_prefix p s = Some r ↔ s = p ++ r.
Proof.
  revert s; induction p as [|a p IH]; intros s; simpl.
  - split; [by intros [= ->] | by intros ->].
  - destruct s as [|b s]; [split; [done | by intros [=]] |].
    case_decide as Hab; [subst b; rewrite IH; split; [by intros -> | by intros [= ->]] |].
    split; [done | intros [= ? ?]; done].
Qed.

Lemma strip_prefix_app p r : strip_prefix p (p ++ r) = Some r.
Proof. by apply strip_prefix_Some. Qed.

Lemma indexOf_from_unfold pos text search :
  indexOf_from pos text search =
  match strip_prefix search text with
  | Some _ => Some pos
  | None => match text with [] => None | _ :: t => indexOf_from (S pos) t search end
  end.
Proof. by destruct text. Qed.


Lemma exec_lit l re cap s r :
  exec_at (((λ c, Atom (CChar c) One) <$> l) ++ re) cap s = Some r →
  ∃ t, s = l ++ t ∧ exec_at re cap t = Some r.
Proof.
  revert s; induction l as [|a l IH]; intros s; [by exists s |].
  destruct s as [|b s]; simpl; [done |].
  case_bool_decide; [subst b | done].
  intros (t & -> & H)%IH. by exists t.
Qed.

Lemma exec_open re cap s r :
  exec_at (Open :: re) cap s = Some r → exec_at re (Some s) s = Some r.
Proof. done. Qed.

Lemma exec_plus k re cap s r :
  exec_at (Atom k Plus :: re) cap s = Some r →
  ∃ run t, s = run ++ t ∧ run ≠ [] ∧ Forall (λ c, cls_test k c = true) run
           ∧ exec_at re cap t = Some r.
Proof.
  simpl. induction s as [|c s IH]; [done |].
  destruct (cls_test k c) eqn:Hc; [| done].
  match goal with |- context [match ?x with Some _ => _ | None => _ end] => destruct x as [r'|] eqn:Hp end.
  - intros [= ->]. destruct (IH eq_refl) as (run & t & -> & _ & Hrun & Hk).
    exists (c :: run), t. by repeat split; [| constructor |].
  - intros Hk. exists [c], s. by repeat split; [| repeat constructor |].
Qed.

Lemma exec_opt k re cap s r :
  exec_at (Atom k Opt :: re) cap s = Some r →
  ∃ o, (o = [] ∨ ∃ c, o = [c] ∧ cls_test k c = true) ∧ ∃ t, s = o ++ t ∧ exec_at re cap t = Some r.
Proof.
  simpl. destruct s as [|c s].
  - intros H. exists []. split; [by left |]. by exists [].
  - destruct (cls_test k c) eqn:Hc.
    + destruct (exec_at re cap s) as [r'|] eqn:He.
      * intros [= ->]. exists [c]. split; [right; eauto |]. by exists s.
      * intros H. exists []. split; [by left |]. by exists (c :: s).
    + intros H. exists []. split; [by left |]. by exists (c :: s).
Qed.

Lemma exec_URL_REGEX s cap rest :
  exec_at URL_REGEX None s = Some (cap, rest) →
  ∃ ws u, s = (js "@link" ++ ws ++ u) ++ rest ∧ cap = Some (u ++ rest)
    ∧ ws ≠ [] ∧ Forall (λ c, is_space c = true) ws ∧ is_url u.
Proof.
  unfold URL_REGEX, lit.
  intros (s1 & -> & H)%exec_lit.
  apply exec_plus in H as (ws & s2 & -> & Hws & Hsp & H).
  apply exec_open in H.
  apply exec_lit in H as (s3 & -> & H).
  apply exec_opt in H as (o & Ho & s4 & -> & H).
  apply exec_lit in H as (s5 & -> & H).
  apply exec_plus in H as (tok & s6 & -> & Htok & Hns & H).
  injection H as <- <-.
  exists ws, (js "http" ++ o ++ js "://" ++ tok).
  split; [by rewrite <- !(assoc_L (++)) |].
  split; [by rewrite <- !(assoc_L (++)) |].
  split; [done |]. split; [done |].
  exists o, tok. split; [done |]. split.
  - destruct Ho as [-> | (c & -> & Hc)]; [by left | right].
    by apply bool_decide_eq_true in Hc as <-.
  - split; [done |]. eapply Forall_impl; [exact Hns |].
    intros c Hc. by apply negb_true_iff.
Qed.

Lemma take_suffix {A} (a r : list A) :
  take (length (a ++ r) - length r) (a ++ r) = a.
Proof. rewrite length_app, Nat.add_sub. apply take_app_length. Qed.

Lemma match_here_sound s m u :
  match_here s = Some (m, u) →
  ∃ ws rest, s = m ++ rest ∧ m = js "@link" ++ ws ++ u
    ∧ ws ≠ [] ∧ Forall (λ c, is_space c = true) ws ∧ is_url u.
Proof.
  unfold match_here.
  destruct (exec_at URL_REGEX None s) as [[[g|] rest]|] eqn:He; try done.
  apply exec_URL_REGEX in He as (ws & u' & -> & [= ->] & Hws & Hsp & Hu).
  rewrite !take_suffix. intros [= <- <-]. by exists ws, rest.
Qed.


Lemma generateId_length a : length (generateId a) = length a.
Proof. apply length_fmap. Qed.

(** ** Maps and sets *)

Section JsMap_lemmas.
Context {V : Type}.
Implicit Types (m : list (jsstring * V)) (k : jsstring) (v : V).

Lemma JsMap_get_None k m : JsMap.get k m = None ↔ k ∉ JsMap.keys m.
Proof.
  induction m as [|[k' v'] m IH]; simpl.
  - split; [intros _; apply not_elem_of_nil | done].
  - rewrite not_elem_of_cons. case_decide as Hk.
    + split; [done | by intros [? _]].
    + rewrite IH. split; [by intros ? | by intros [_ ?]].
Qed.



Lemma JsMap_set_fresh k v m : k ∉ JsMap.keys m → JsMap.set k v m = m ++ [(k, v)].
Proof.
  induction m as [|[k' v'] m IH]; simpl; [done |].
  rewrite not_elem_of_cons. intros [? ?]. rewrite decide_False by done. by rewrite IH.
Qed.

Lemma JsMap_get_set k k' v m :
  JsMap.get k' (JsMap.set k v m) = if decide (k = k') then Some v else JsMap.get k' m.
Proof.
  induction m as [|[k0 v0] m IH]; simpl.
  - by repeat case_decide.
  - repeat (case_decide; simpl; subst); try done. 
Qed.

Lemma JsMap_get_app k m1 m2 :
  JsMap.get k (m1 ++ m2) = match JsMap.get k m1 with Some v => Some v | None => JsMap.get k m2 end.
Proof. induction m1 as [|[k' v'] m1 IH]; simpl; [done |]. by case_decide. Qed.

Lemma JsMap_get_filter (P : jsstring → Prop) `{∀ k, Decision (P k)} k m :
  JsMap.get k (filter (λ e, P e.1) m) = if decide (P k) then JsMap.get k m else None.
Proof.
  induction m as [|[k' v'] m IH]; simpl; [by case_decide |].
  rewrite filter_cons. simpl. destruct (decide (P k')) as [Hk'|Hk']; simpl.
  - destruct (decide (k' = k)) as [->|]; [by rewrite decide_True | done].
  - rewrite IH. destruct (decide (P k)); [| done].
    rewrite decide_False; [done |]. by intros ->.
Qed.
End JsMap_lemmas.



(** *** Reconciliation *)







Lemma filter_True {A} (P : A → Prop) `{∀ x, Decision (P x)} (l : list A) :
  (∀ x, x ∈ l → P x) → filter P l = l.
Proof.
  induction l as [|x l IH]; [done |]. intros Hl.
  rewrite filter_cons_True by (apply Hl; by left). f_equal. apply IH. intros ? ?. apply Hl. by right.
Qed.


Lemma list_filter_iff_in {A} (P Q : A → Prop) `{∀ x, Decision (P x)} `{∀ x, Decision (Q x)} (l : list A) :
  (∀ x, x ∈ l → P x ↔ Q x) → filter P l = filter Q l.
Proof.
  induction l as [|x l IH]; [done |]. intros Hl.
  rewrite !filter_cons. rewrite IH by (intros ? ?; apply Hl; by right).
  destruct (decide (P x)) as [HP|HP], (decide (Q x)) as [HQ|HQ]; try done;
    exfalso; apply (Hl x (list_elem_of_here _ _)) in HP || apply (Hl x (list_elem_of_here _ _)) in HQ; done.
Qed.

Lemma filter_False {A} (P : A → Prop) `{∀ x, Decision (P x)} (l : list A) :
  (∀ x, x ∈ l → ¬ P x) → filter P l = [].
Proof.
  induction l as [|x l IH]; [done |]. intros Hl.
  rewrite filter_cons_False by (apply Hl; by left). apply IH. intros ? ?. apply Hl. by right.
Qed.







Lemma renderHighlights_highlights w :
  highlights (renderHighlights w) = highlights w.
Proof. unfold renderHighlights. by destruct (highlightOverlay w). Qed.




Lemma get_updateHighlightState id st w :
  JsMap.get id (highlights (updateHighlightState id st w))
  = with_state st <$> JsMap.get id (highlights w).
Proof.
  unfold updateHighlightState. destruct (JsMap.get id (highlights w)) as [h|] eqn:Hg.
  - rewrite renderHighlights_highlights. simpl. rewrite JsMap_get_set. by rewrite decide_True.
  - by rewrite Hg.
Qed.

Lemma updateHighlightState_frame id st w :
  let w' := updateHighlightState id st w in
  events w' = events w ∧ netCalls w' = netCalls w ∧ storageOps w' = storageOps w
  ∧ contextCache w' = contextCache w ∧ pendingLinks w' = pendingLinks w.
Proof.
  unfold updateHighlightState, renderHighlights.
  destruct (JsMap.get id (highlights w)); [| done].
  simpl. by destruct (highlightOverlay w).
Qed.

Lemma events_updateHighlightState id st w :
  events (updateHighlightState id st w) = events w.
Proof. apply updateHighlightState_frame. Qed.
Lemma netCalls_updateHighlightState id st w :
  netCalls (updateHighlightState id st w) = netCalls w.
Proof. apply updateHighlightState_frame. Qed.
Lemma storageOps_updateHighlightState id st w :
  storageOps (updateHighlightState id st w) = storageOps w.
Proof. apply updateHighlightState_frame. Qed.
Lemma contextCache_updateHighlightState id st w :
  contextCache (updateHighlightState id st w) = contextCache w.
Proof. apply updateHighlightState_frame. Qed.
Ltac wsimpl :=
  cbn [fst snd highlights pendingLinks highlightOverlay isProcessing
       shouldBypassInterception inputDiv loadingIndicator submitButton
       contextCache netCalls storageOps events
       set_highlights set_pendingLinks set_highlightOverlay set_isProcessing
       set_shouldBypassInterception set_inputDiv set_loadingIndicator
       set_contextCache set_netCalls set_storageOps set_events emit
       lift delay mret M_ret throw].

Lemma getValue_ok env w :
  storageFault env (storageOps w) = None →
  let w' := (getValue env w).2 in
  (getValue env w).1 = Ok (contextCache w)
  ∧ hostStep [EvCacheRead] 0 1 w w'
  ∧ highlights w' = highlights w ∧ contextCache w' = contextCache w.
Proof. intros Hs. unfold getValue. rewrite Hs. by repeat split. Qed.

Lemma attemptOnce_fail env id url cache attempt w e :
  failure (net env (netCalls w)) = Some e → attempt ≠ 2 →
  let w' := (attemptOnce env id url cache attempt w).2 in
  (attemptOnce env id url cache attempt w).1 = Ok false
  ∧ hostStep [EvFetch url; EvDelay (1000 * (attempt + 1))] 1 0 w w'
  ∧ highlights w' = highlights w ∧ contextCache w' = contextCache w.
Proof.
  intros Hf Ha. unfold attemptOnce, tryCatch, mbind, M_bind, fetchLinkContext.
  assert (Hev : ∀ a b, (events w ++ [a]) ++ [b] = events w ++ [a; b])
    by (intros; by rewrite <- (assoc_L (++))).
  destruct (net env (netCalls w)) as [e'|[r|]]; simpl in Hf.
  - rewrite decide_False by done. unfold hostStep. wsimpl. by rewrite Hev.
  - destruct (success r), (data r); try done; cbn [throw]; cbv beta iota;
      rewrite decide_False by done; unfold hostStep; wsimpl; by rewrite Hev.
  - cbn [throw]. rewrite decide_False by done. unfold hostStep. wsimpl. by rewrite Hev.
Qed.

Lemma attemptOnce_fail_last env id url cache w e :
  failure (net env (netCalls w)) = Some e →
  storageFault env (storageOps w) = None →
  let cache' := <[url:=errorState url e]> cache in
  let w' := (attemptOnce env id url cache 2 w).2 in
  (attemptOnce env id url cache 2 w).1 = Ok false
  ∧ hostStep [EvFetch url; EvCacheWrite cache'] 1 1 w w'
  ∧ JsMap.get id (highlights w')
    = with_state (errorState url e) <$> JsMap.get id (highlights w)
  ∧ contextCache w' = Some cache'.
Proof.
  intros Hf Hs cache'.
  set (w1 := updateHighlightState id (errorState url e)
               (emit (EvFetch url) (set_netCalls (S (netCalls w)) w))).
  assert (Hrun : attemptOnce env id url cache 2 w
    = (Ok false, emit (EvCacheWrite cache')
                   (set_contextCache (Some cache') (set_storageOps (S (storageOps w)) w1)))).
  { assert (Hops : storageOps w1 = storageOps w)
      by (subst w1; by rewrite storageOps_updateHighlightState).
    unfold attemptOnce, tryCatch, mbind, M_bind, fetchLinkContext.
    destruct (net env (netCalls w)) as [e'|[r|]]; simpl in Hf.
    - injection Hf as ->. simpl. unfold setValue, lift. fold w1. by rewrite Hops, Hs.
    - destruct (success r), (data r); try done; injection Hf as <-; simpl;
        unfold setValue, lift; fold w1; by rewrite Hops, Hs.
    - injection Hf as <-. simpl. unfold setValue, lift. fold w1. by rewrite Hops, Hs. }
  rewrite Hrun. clearbody cache'. clear Hrun. cbn [fst snd].
  split; [done |]. split; [| split; [| done]].
  - unfold hostStep. cbn [events netCalls storageOps emit set_events set_contextCache set_storageOps].
    subst w1. rewrite events_updateHighlightState, netCalls_updateHighlightState.
    cbn [events netCalls emit set_events set_netCalls].
    by rewrite <- (assoc_L (++)).
  - cbn [highlights emit set_events set_contextCache set_storageOps].
    subst w1. by rewrite get_updateHighlightState.
Qed.

Lemma waited_app evs1 evs2 : waited (evs1 ++ evs2) = waited evs1 + waited evs2.
Proof.
  induction evs1 as [|[] evs1 IH]; simpl; rewrite ?IH; lia.
Qed.

Lemma attemptLoop_S env id url cache n attempt :
  attemptLoop env id url cache (S n) attempt
  = (returned ← attemptOnce env id url cache attempt;
     if returned : bool then mret tt
     else attemptLoop env id url cache n (attempt + 1)).
Proof. done. Qed.

(** ** A program logic for [M] *)

Section triple_rules.
Context {A B : Type}.
Implicit Types (P : World → Prop) (E : JsError → World → Prop).

Lemma triple_ret (a : A) (Q : A → World → Prop) E : triple (Q a) (mret a) Q E.
Proof. by intros w. Qed.

Lemma triple_throw e (Q : A → World → Prop) E : triple (E e) (throw e) Q E.
Proof. by intros w. Qed.

Lemma triple_bind P (m : M A) (f : A → M B) R (Q : B → World → Prop) E :
  triple P m R E → (∀ a, triple (R a) (f a) Q E) → triple P (m ≫= f) Q E.
Proof.
  intros Hm Hf w HP. unfold mbind, M_bind. specialize (Hm w HP).
  destruct (m w) as [[a|e] w1]; [by apply Hf | done].
Qed.

Lemma triple_tryCatch P (body : M A) handler (Q : A → World → Prop) E' E :
  triple P body Q E' → (∀ e, triple (E' e) (handler e) Q E) →
  triple P (tryCatch body handler) Q E.
Proof.
  intros Hb Hh w HP. unfold tryCatch. specialize (Hb w HP).
  destruct (body w) as [[a|e] w1]; [done | by apply Hh].
Qed.

Lemma triple_conseq P P' (m : M A) (Q Q' : A → World → Prop) E E' :
  triple P' m Q' E' → (∀ w, P w → P' w) → (∀ a w, Q' a w → Q a w) →
  (∀ e w, E' e w → E e w) → triple P m Q E.
Proof.
  intros Hm HP HQ HE w Hw. specialize (Hm w (HP w Hw)).
  destruct (m w) as [[a|e] w1]; auto.
Qed.
End triple_rules.

Lemma triple_lift f (Q : unit → World → Prop) E :
  triple (λ w, Q tt (f w)) (lift f) Q E.
Proof. by intros w. Qed.

Lemma triple_promiseAll (I : World → Prop) (X : Prop) tasks :
  Forall (λ t, triple I t (λ _, I) (λ _ w, I w ∧ X)) tasks →
  triple I (promiseAll tasks) (λ _, I) (λ _ w, I w ∧ X).
Proof.
  induction 1 as [|t ts Ht _ IH]; [by intros w |].
  intros w HI. simpl. specialize (Ht w HI).
  destruct (t w) as [[[]|e] w1]; [by apply IH |].
  destruct Ht as [HI1 HX]. specialize (IH w1 HI1). simpl.
  destruct (promiseAll ts w1) as [[[]|e'] w2]; [done |]. by destruct IH.
Qed.

Section linkStep_lemmas.
Context (ids urls : jsstring → Prop).
Local Abbreviation step := (linkStep ids urls).

Lemma linkStep_refl w : step w w.
Proof.
  repeat split. exists []. by rewrite app_nil_r.
Qed.

Lemma linkStep_trans w1 w2 w3 : step w1 w2 → step w2 w3 → step w1 w3.
Proof.
  intros (Hi & Hb & Hd & Hl & Hs & Hsh & Hg & evs & He & Hevs)
         (Hi' & Hb' & Hd' & Hl' & Hs' & Hsh' & Hg' & evs' & He' & Hevs').
  unfold linkStep. rewrite Hi', Hb', Hd', Hl', Hs', Hsh'.
  repeat split; try done.
  - intros k Hk. by rewrite Hg', Hg.
  - exists (evs ++ evs'). rewrite He', He, (assoc_L (++)). split; [done |].
    by apply Forall_app.
Qed.

(** A change that leaves the store and the page alone. *)
Lemma linkStep_host w w' evs :
  isProcessing w' = isProcessing w →
  shouldBypassInterception w' = shouldBypassInterception w →
  inputDiv w' = inputDiv w → loadingIndicator w' = loadingIndicator w →
  submitButton w' = submitButton w → highlights w' = highlights w →
  events w' = events w ++ evs → Forall (hostEvent urls) evs →
  step w w'.
Proof.
  intros Hi Hb Hd Hl Hs Hh He Hevs. unfold linkStep.
  rewrite Hi, Hb, Hd, Hl, Hs, Hh. repeat split. by exists evs.
Qed.

Lemma shape_set k h h' H :
  JsMap.get k H = Some h → id h' = id h → text h' = text h → range h' = range h →
  shape (JsMap.set k h' H) = shape H.
Proof.
  intros Hg Hi Ht Hr. unfold shape.
  induction H as [|[k0 h0] H IH]; cbn [JsMap.get JsMap.set] in *; [done |].
  case_decide as Hk; rewrite !fmap_cons; cbn [fst snd].
  - injection Hg as ->. subst k0. by rewrite Hi, Ht, Hr.
  - by rewrite IH.
Qed.

Lemma linkStep_render w : step w (renderHighlights w).
Proof.
  unfold renderHighlights. destruct (highlightOverlay w); [| apply linkStep_refl].
  apply (linkStep_host _ _ []); try done. by rewrite app_nil_r.
Qed.

Lemma linkStep_set_state k st w :
  ids k → step w (updateHighlightState k st w).
Proof.
  intros Hk. unfold updateHighlightState.
  destruct (JsMap.get k (highlights w)) as [h|] eqn:Hg; [| apply linkStep_refl].
  eapply linkStep_trans; [| apply linkStep_render].
  repeat split; cbn [highlights set_highlights events].
  - by apply (shape_set _ h).
  - intros k' Hk'. rewrite JsMap_get_set. rewrite decide_False; [done |]. by intros ->.
  - exists []. by rewrite app_nil_r.
Qed.
End linkStep_lemmas.

Section processLink_spec.
Context (env : Env) (id url : jsstring) (w0 : World).

Lemma linkInv_host w w' evs :
  linkInv id url w0 w →
  isProcessing w' = isProcessing w →
  shouldBypassInterception w' = shouldBypassInterception w →
  inputDiv w' = inputDiv w → loadingIndicator w' = loadingIndicator w →
  submitButton w' = submitButton w → highlights w' = highlights w →
  contextCache w' = contextCache w →
  events w' = events w ++ evs → Forall (hostEvent (eq url)) evs →
  linkInv id url w0 w'.
Proof.
  intros [Hstep Hc] Hi Hb Hd Hl Hs Hh Hcc He Hevs. split.
  - eapply linkStep_trans; [exact Hstep |]. by apply (linkStep_host _ _ _ _ evs).
  - unfold cacheStep. by rewrite Hcc.
Qed.

Lemma linkInv_set_state st w :
  linkInv id url w0 w → linkInv id url w0 (updateHighlightState id st w).
Proof.
  intros [Hstep Hc]. split.
  - eapply linkStep_trans; [exact Hstep |]. by apply linkStep_set_state.
  - unfold cacheStep. by rewrite contextCache_updateHighlightState.
Qed.

Lemma linkInv_write st n w :
  linkInv id url w0 w → terminal st → stateOf url st →
  let cache := <[url:=st]> (default ∅ (contextCache w0)) in
  linkInv id url w0
    (emit (EvCacheWrite cache) (set_contextCache (Some cache) (set_storageOps n w))).
Proof.
  intros [Hstep Hc] Hst Hurl cache. split.
  - eapply linkStep_trans; [exact Hstep |].
    apply (linkStep_host _ _ _ _ [EvCacheWrite cache]); try done.
    by repeat constructor.
  - right. by exists st.
Qed.

Lemma not_reliable n e : storageFault env n = Some e → ¬ reliable env.
Proof. intros Hn Hr. by rewrite Hr in Hn. Qed.

Lemma triple_setValue_link st :
  terminal st → stateOf url st →
  triple (linkInv id url w0)
    (setValue env (<[url:=st]> (default ∅ (contextCache w0))))
    (λ _, linkInv id url w0) (linkExc env id url w0).
Proof.
  intros Hst Hurl w HI. unfold setValue.
  destruct (storageFault env (storageOps w)) as [e|] eqn:Hf.
  - split; [| by eapply not_reliable].
    apply (linkInv_host w _ []); try done. by rewrite app_nil_r.
  - by apply linkInv_write.
Qed.

Lemma triple_getValue_link :
  triple (eq w0) (getValue env)
    (λ stored w, linkInv id url w0 w ∧ stored = contextCache w0)
    (linkExc env id url w0).
Proof.
  intros w <-. unfold getValue.
  assert (HI : linkInv id url w0 w0) by (split; [apply linkStep_refl | by left]).
  destruct (storageFault env (storageOps w0)) as [e|] eqn:Hf.
  - split; [| by eapply not_reliable].
    apply (linkInv_host w0 _ []); try done. by rewrite app_nil_r.
  - split; [| done]. apply (linkInv_host w0 _ [EvCacheRead]); try done.
    by repeat constructor.
Qed.

Lemma triple_fetch_link :
  triple (linkInv id url w0) (fetchLinkContext env url)
    (λ _, linkInv id url w0) (λ _, linkInv id url w0).
Proof.
  intros w HI. unfold fetchLinkContext.
  assert (linkInv id url w0 (emit (EvFetch url) (set_netCalls (S (netCalls w)) w))).
  { apply (linkInv_host w _ [EvFetch url]); try done. by repeat constructor. }
  by destruct (net env (netCalls w)).
Qed.

Lemma triple_set_state_link st E :
  triple (linkInv id url w0) (lift (updateHighlightState id st))
    (λ _, linkInv id url w0) E.
Proof. intros w HI. by apply linkInv_set_state. Qed.

Lemma triple_weaken_exc {A} (m : M A) Q :
  triple (linkInv id url w0) m Q (linkExc env id url w0) →
  triple (linkInv id url w0) m Q (λ _, linkInv id url w0).
Proof.
  intros Hm. eapply triple_conseq; [exact Hm | done | done |]. by intros e w [HI _].
Qed.

Lemma triple_attemptOnce attempt :
  triple (linkInv id url w0)
    (attemptOnce env id url (default ∅ (contextCache w0)) attempt)
    (λ _, linkInv id url w0) (linkExc env id url w0).
Proof.
  unfold attemptOnce.
  apply (triple_tryCatch _ _ _ _ (λ _, linkInv id url w0)).
  - eapply triple_bind; [apply triple_fetch_link |].
    intros [r|]; [| by intros w HI].
    destruct (success r), (data r) as [d|]; try by intros w HI.
    eapply triple_bind; [apply triple_set_state_link |]. intros ?.
    eapply triple_bind;
      [apply triple_weaken_exc, triple_setValue_link; [by left | done] |].
    by intros ? w HI.
  - intros e. apply (triple_bind _ _ _ (λ _, linkInv id url w0)); [| by intros ? w HI].
    case_decide.
    + eapply triple_bind; [apply triple_set_state_link |]. intros ?.
      apply triple_setValue_link; [by right | done].
    + intros w HI. apply (linkInv_host w _ [EvDelay (1000 * (attempt + 1))]); try done.
      by repeat constructor.
Qed.

Lemma triple_attemptLoop n attempt :
  triple (linkInv id url w0)
    (attemptLoop env id url (default ∅ (contextCache w0)) n attempt)
    (λ _, linkInv id url w0) (linkExc env id url w0).
Proof.
  revert attempt; induction n as [|n IH]; intros attempt.
  - by intros w HI.
  - rewrite attemptLoop_S. eapply triple_bind; [by apply triple_attemptOnce |].
    intros [|]; [by intros w HI | apply IH].
Qed.

Lemma triple_processLink :
  triple (eq w0) (processLink env id url)
    (λ _, linkInv id url w0) (linkExc env id url w0).
Proof.
  unfold processLink. eapply triple_bind; [apply triple_getValue_link |].
  intros stored w [HI ->].
  destruct (default ∅ (contextCache w0) !! url) as [cached|] eqn:Hc.
  - by apply linkInv_set_state.
  - by apply triple_attemptLoop.
Qed.
End processLink_spec.

Lemma cacheStep_terminal url w0 w :
  cacheStep url w0 w → cacheTerminal w0 → cacheTerminal w.
Proof.
  unfold cacheTerminal. intros [-> | (st & Hst & _ & ->)] H0; [done |].
  by apply map_Forall_insert_2.
Qed.

(** What [processLink] does in every run. *)
Lemma processLink_footprint env id url w :
  let w' := (processLink env id url w).2 in
  linkStep (eq id) (eq url) w w'
  ∧ cacheStep url w w'
  ∧ (reliable env → (processLink env id url w).1 = Ok tt).
Proof.
  pose proof (triple_processLink env id url w w eq_refl) as H.
  destruct (processLink env id url w) as [[[]|e] w']; cbn [fst snd].
  - destruct H as [H1 H2]. split; [exact H1 | split; [exact H2 | done]].
  - destruct H as [[H1 H2] H3]. split; [exact H1 | split; [exact H2 | done]].
Qed.

Lemma linkStep_mono (ids ids' urls urls' : jsstring → Prop) w w' :
  (∀ k, ids k → ids' k) → (∀ u, urls u → urls' u) →
  linkStep ids urls w w' → linkStep ids' urls' w w'.
Proof.
  intros Hids Hurls (Hi & Hb & Hd & Hl & Hs & Hsh & Hg & evs & He & Hevs).
  repeat split; try done.
  - intros k Hk. apply Hg. intros ?. by apply Hk, Hids.
  - exists evs. split; [done |]. eapply Forall_impl; [exact Hevs |].
    intros [] ?; simpl in *; auto.
Qed.

Lemma shape_keys H H' : shape H = shape H' → JsMap.keys H = JsMap.keys H'.
Proof.
  intros Hs. apply (f_equal (fmap (λ t : jsstring * jsstring * jsstring * (nat * nat), t.1.1.1))) in Hs.
  unfold shape in Hs. by rewrite <- !list_fmap_compose in Hs.
Qed.

Lemma JsMap_get_is_Some {V} k (m : list (jsstring * V)) :
  is_Some (JsMap.get k m) ↔ k ∈ JsMap.keys m.
Proof.
  rewrite <- not_eq_None_Some, JsMap_get_None. split; [apply dec_stable | by intros ? ?].
Qed.

Lemma linkStep_is_Some ids urls w w' k :
  linkStep ids urls w w' →
  is_Some (JsMap.get k (highlights w')) ↔ is_Some (JsMap.get k (highlights w)).
Proof.
  intros (_ & _ & _ & _ & _ & Hsh & _). by rewrite !JsMap_get_is_Some, (shape_keys _ _ Hsh).
Qed.

Lemma foldl_startTask env us w ts :
  let r := foldl (startTask env) (w, ts) us in
  linkStep (λ k, k ∈ lookupId <$> us) (λ _, False) w r.1
  ∧ contextCache r.1 = contextCache w
  ∧ pendingLinks r.1 = pendingLinks w
  ∧ ∃ new, r.2 = ts ++ new ∧ Forall (startedFor env us w) new.
Proof.
  revert w ts; induction us as [|u us IH]; intros w ts; cbn [foldl].
  - cbn [fst snd]. split; [apply linkStep_refl |]. split; [done |]. split; [done |].
    exists []. by rewrite app_nil_r.
  - assert (Hstep : ∃ w1 new1, startTask env (w, ts) u = (w1, ts ++ new1)
        ∧ linkStep (eq (lookupId u)) (λ _, False) w w1
        ∧ contextCache w1 = contextCache w ∧ pendingLinks w1 = pendingLinks w
        ∧ Forall (startedFor env [u] w) new1).
    { unfold startTask. fold (lookupId u).
      destruct (JsMap.get (lookupId u) (highlights w)) as [h|] eqn:Hg.
      - case_decide.
        + eexists _, [_]. split; [done |]. split; [| split; [| split]].
          * eapply linkStep_trans; [| apply linkStep_render].
            repeat split; cbn [highlights set_highlights events].
            -- by apply (shape_set _ h).
            -- intros k' Hk'. rewrite JsMap_get_set. by rewrite decide_False.
            -- exists []. by rewrite app_nil_r.
          * unfold renderHighlights. cbn [highlightOverlay set_highlights].
            by destruct (highlightOverlay w).
          * unfold renderHighlights. cbn [highlightOverlay set_highlights].
            by destruct (highlightOverlay w).
          * constructor; [| constructor]. exists u. rewrite Hg.
            split; [by left | by split].
        + exists w, []. rewrite app_nil_r. split; [done |].
          split; [apply linkStep_refl | by repeat split].
      - exists w, []. rewrite app_nil_r. split; [done |].
        split; [apply linkStep_refl | by repeat split]. }
    destruct Hstep as (w1 & new1 & -> & Hs1 & Hc1 & Hp1 & Hn1).
    destruct (IH w1 (ts ++ new1)) as (Hs2 & Hc2 & Hp2 & new2 & Hr2 & Hn2).
    split; [| split; [| split]].
    + eapply linkStep_trans; (eapply linkStep_mono; [| | eassumption]); try done.
      * intros k <-. rewrite fmap_cons. by left.
      * intros k Hk. rewrite fmap_cons. by right.
    + by rewrite Hc2.
    + by rewrite Hp2.
    + exists (new1 ++ new2). rewrite Hr2, (assoc_L (++)). split; [done |].
      apply Forall_app. split.
      * eapply Forall_impl; [exact Hn1 |]. intros t (u' & ->%list_elem_of_singleton & ? & ?).
        exists u. split; [by left | done].
      * eapply Forall_impl; [exact Hn2 |]. intros t (u' & Hu' & Hsome & ->).
        exists u'. split; [by right |]. split; [| done].
        by apply (linkStep_is_Some _ _ _ _ _ Hs1).
Qed.

(** What [processPendingLinks] does in every run. *)
Lemma processPendingLinks_footprint env w :
  let r := processPendingLinks env w in
  linkStep (λ k, k ∈ lookupId <$> pendingLinks w)
    (λ u, u ∈ pendingLinks w ∧ is_Some (JsMap.get (lookupId u) (highlights w)))
    w r.2
  ∧ (cacheTerminal w → cacheTerminal r.2)
  ∧ (r.1 = Ok tt → pendingLinks r.2 = [])
  ∧ (reliable env → r.1 = Ok tt).
Proof.
  set (ids := λ k, k ∈ lookupId <$> pendingLinks w).
  set (urls := λ u, u ∈ pendingLinks w
                    ∧ is_Some (JsMap.get (lookupId u) (highlights w))).
  set (I := λ w', linkStep ids urls w w' ∧ (cacheTerminal w → cacheTerminal w')).
  unfold processPendingLinks.
  destruct (foldl_startTask env (pendingLinks w) w [])
    as (Hs1 & Hc1 & _ & tasks & Hts & Htasks).
  destruct (foldl (startTask env) (w, []) (pendingLinks w)) as [w1 ts].
  cbn [fst snd] in *. subst ts. rewrite app_nil_l.
  assert (HI1 : I w1).
  { split; [by eapply linkStep_mono; [| | exact Hs1] |].
    unfold cacheTerminal. by rewrite Hc1. }
  assert (Hall : Forall (λ t, triple I t (λ _, I) (λ _ w', I w' ∧ ¬ reliable env)) tasks).
  { eapply Forall_impl; [exact Htasks |]. intros t (u & Hu & Hsome & ->) w2 [Hs2 Hc2].
    destruct (processLink_footprint env (lookupId u) u w2) as (Hs3 & Hc3 & Hok).
    assert (I (processLink env (lookupId u) u w2).2) as HI3.
    { split; [| by eauto using cacheStep_terminal].
      eapply linkStep_trans; [exact Hs2 |].
      eapply linkStep_mono; [| | exact Hs3].
      - intros k <-. by apply list_elem_of_fmap_2.
      - by intros ? <-. }
    destruct (processLink env (lookupId u) u w2) as [[[]|e] w3]; cbn [fst snd] in *; [done |].
    split; [done |]. intros Hr. by specialize (Hok Hr). }
  pose proof (triple_promiseAll I (¬ reliable env) tasks Hall w1 HI1) as Hrun.
  unfold mbind, M_bind. destruct (promiseAll tasks w1) as [[[]|e] w2].
  - cbn [lift fst snd]. destruct Hrun as [Hs2 Hc2].
    split; [| split; [exact Hc2 | by split]].
    eapply linkStep_trans; [exact Hs2 |].
    apply (linkStep_host _ _ _ _ []); try done. by rewrite app_nil_r.
  - cbn [fst snd]. destruct Hrun as [[Hs2 Hc2] Hn].
    split; [exact Hs2 | split; [exact Hc2 | by split]].
Qed.

Lemma failureMessage_no_data r :
  data r = None → failureMessage r = js "Unknown error".
Proof. intros Hd. unfold failureMessage. by rewrite Hd. Qed.

Section alike_rules.
Context {A B : Type}.




End alike_rules.


Section alike_processLink.
Context (env : Env) (id id' url : jsstring).








End alike_processLink.










Lemma NoDup_keys_filter {V} (P : jsstring * V → Prop) `{∀ e, Decision (P e)}
    (m : list (jsstring * V)) :
  NoDup (JsMap.keys m) → NoDup (JsMap.keys (filter P m)).
Proof.
  unfold JsMap.keys. induction m as [|e m IH]; [done |].
  rewrite fmap_cons, NoDup_cons. intros [He Hnd]. rewrite filter_cons.
  destruct (decide (P e)); [| by apply IH].
  rewrite fmap_cons. apply NoDup_cons. split; [| by apply IH].
  intros (e' & Heq & [_ Hin]%list_elem_of_filter)%list_elem_of_fmap.
  apply He. rewrite Heq. by apply list_elem_of_fmap_2.
Qed.





Lemma isProcessing_injectContext env w :
  isProcessing (injectContext env w).2 = isProcessing w.
Proof.
  unfold injectContext. destruct (inputDiv w) as [content|]; [| done].
  assert (H : ∀ hs acc, isProcessing (foldl (injectOne env content) acc hs).1
                        = isProcessing acc.1).
  { induction hs as [|h hs IH]; intros [w1 b]; [done |]. cbn [foldl]. rewrite IH.
    unfold injectOne.
    destruct (bool_decide (status (state h) = Done) && truthy (context (state h))
              && includes content (js "@link " ++ url (state h))); [| done].
    cbn [fst]. destruct (truthy (screenshot (state h))); [| done].
    unfold pasteImageFromUrl. by destruct (image env _). }
  specialize (H (JsMap.values (highlights w)) (w, false)).
  by destruct (foldl (injectOne env content) (w, false) (JsMap.values (highlights w))).
Qed.

Global Instance injectable_dec content h : Decision (injectable content h).
Proof. unfold injectable. apply _. Defined.




Lemma exec_lit_app l re cap s :
  exec_at (((λ c, Atom (CChar c) One) <$> l) ++ re) cap (l ++ s) = exec_at re cap s.
Proof.
  induction l as [|a l IH]; [done |]. cbn. by rewrite bool_decide_eq_true_2.
Qed.

(** [+] is greedy: it takes the whole run when what follows the run matches. *)
Lemma exec_plus_greedy k re cap run s r :
  run ≠ [] → Forall (λ c, cls_test k c = true) run → stops k s →
  exec_at re cap s = Some r →
  exec_at (Atom k Plus :: re) cap (run ++ s) = Some r.
Proof.
  intros Hne Hrun Hstop Hre. cbn [exec_at].
  induction Hrun as [|c run Hc Hrun IH]; [done |]. cbn [app]. rewrite Hc.
  destruct run as [|c' run'].
  - cbn [app]. destruct s as [|c0 s0]; [by rewrite Hre |].
    cbn in Hstop. by rewrite Hstop, Hre.
  - by rewrite IH.
Qed.

Lemma exec_opt_skip k re cap s :
  stops k s → exec_at (Atom k Opt :: re) cap s = exec_at re cap s.
Proof. destruct s as [|c s]; [done |]. cbn. by intros ->. Qed.

Lemma exec_opt_take k re cap c s r :
  cls_test k c = true → exec_at re cap s = Some r →
  exec_at (Atom k Opt :: re) cap (c :: s) = Some r.
Proof. intros Hc Hre. cbn [exec_at]. by rewrite Hc, Hre. Qed.

(** Every text of the shape the specification gives for a mention is
    matched whole when it ends the text or is followed by whitespace. *)
Lemma match_here_complete ws u rest :
  ws ≠ [] → Forall (λ c, is_space c = true) ws → is_url u →
  stops CNotSpace rest →
  match_here (js "@link" ++ ws ++ u ++ rest) = Some (js "@link" ++ ws ++ u, u).
Proof.
  intros Hws Hsp (o & tok & -> & Ho & Htok & Hns) Hrest.
  assert (Hrun : exec_at [Atom CNotSpace Plus] (Some ((js "http" ++ o ++ js "://" ++ tok) ++ rest))
                   (tok ++ rest)
                 = Some (Some ((js "http" ++ o ++ js "://" ++ tok) ++ rest), rest)).
  { apply exec_plus_greedy; try done.
    eapply Forall_impl; [exact Hns |]. intros c Hc. cbn. by rewrite Hc. }
  assert (Hexec : exec_at URL_REGEX None
                    (js "@link" ++ ws ++ (js "http" ++ o ++ js "://" ++ tok) ++ rest)
                  = Some (Some ((js "http" ++ o ++ js "://" ++ tok) ++ rest), rest)).
  { unfold URL_REGEX, lit. rewrite exec_lit_app.
    apply exec_plus_greedy; [done | done | done |].
    cbn [exec_at]. rewrite <- !(assoc_L (++)).
    rewrite exec_lit_app.
    rewrite <- !(assoc_L (++)) in Hrun. destruct Ho as [-> | ->].
    - rewrite app_nil_l in *.
      etrans; [apply exec_opt_skip; reflexivity |].
      cbn [app]. rewrite exec_lit_app. exact Hrun.
    - apply exec_opt_take; [done |]. cbn [app]. rewrite exec_lit_app. exact Hrun. }
  unfold match_here. rewrite Hexec.
  replace (js "@link" ++ ws ++ (js "http" ++ o ++ js "://" ++ tok) ++ rest)
    with ((js "@link" ++ ws ++ js "http" ++ o ++ js "://" ++ tok) ++ rest)
    by (by rewrite <- !(assoc_L (++))).
  by rewrite !take_suffix.
Qed.


(** ** The claims of the specification *)




(** C2: when the URL is not cached and three consecutive attempts fail (a
    non-success response, a success without data, an [undefined] response
    or a thrown fault), [processLink] makes exactly three calls to the
    collaborator, waits 1000 before the second and 2000 before the third
    (3000 in all), then writes the [error] state carrying the last
    failure's message to the highlight and persists that same state to
    the durable cache under the URL. *)
Theorem C2_three_failures (env : Env) (id url : jsstring) (w : World)
    (e1 e2 e3 : JsError) :
  storageFault env (storageOps w) = None →
  storageFault env (S (storageOps w)) = None →
  default ∅ (contextCache w) !! url = None →
  failure (net env (netCalls w)) = Some e1 →
  failure (net env (S (netCalls w))) = Some e2 →
  failure (net env (S (S (netCalls w)))) = Some e3 →
  let cache := <[url:=errorState url e3]> (default ∅ (contextCache w)) in
  let w' := (processLink env id url w).2 in
  (processLink env id url w).1 = Ok tt
  ∧ events w' = events w ++ [EvCacheRead; EvFetch url; EvDelay 1000; EvFetch url;
                             EvDelay 2000; EvFetch url; EvCacheWrite cache]
  ∧ netCalls w' = (3 + netCalls w)%nat
  ∧ waited (events w') = waited (events w) + 3000
  ∧ JsMap.get id (highlights w')
    = with_state (errorState url e3) <$> JsMap.get id (highlights w)
  ∧ status (errorState url e3) = Error
  ∧ contextCache w' = Some cache.
Proof.
  intros Hs0 Hs1 Hmiss H1 H2 H3 cache w'. subst w' cache.
  unfold processLink, mbind, M_bind.
  destruct (getValue_ok env w Hs0) as (Hr0 & Hh0 & Hhl0 & Hc0).
  destruct (getValue env w) as [r0 w0]. cbn [fst snd] in *. subst r0.
  rewrite Hmiss. destruct Hh0 as (He0 & Hn0 & Ho0).
  rewrite attemptLoop_S. unfold mbind, M_bind.
  destruct (attemptOnce_fail env id url (default ∅ (contextCache w)) 0 w0 e1)
    as (Hr1 & (He1 & Hn1 & Ho1) & Hhl1 & Hc1); [by rewrite Hn0 | done |].
  destruct (attemptOnce env id url _ 0 w0) as [r1 w1]. cbn [fst snd] in *. subst r1.
  rewrite attemptLoop_S. unfold mbind, M_bind.
  destruct (attemptOnce_fail env id url (default ∅ (contextCache w)) (0 + 1) w1 e2)
    as (Hr2 & (He2 & Hn2 & Ho2) & Hhl2 & Hc2); [by rewrite Hn1, Hn0 | done |].
  destruct (attemptOnce env id url _ (0 + 1) w1) as [r2 w2]. cbn [fst snd] in *. subst r2.
  rewrite attemptLoop_S. unfold mbind, M_bind.
  destruct (attemptOnce_fail_last env id url (default ∅ (contextCache w)) w2 e3)
    as (Hr3 & (He3 & Hn3 & Ho3) & Hhl3 & Hc3);
    [by rewrite Hn2, Hn1, Hn0 | by rewrite Ho2, Ho1, Ho0 |].
  change (0 + 1 + 1) with 2.
  destruct (attemptOnce env id url _ 2 w2) as [r3 w3]. cbn [fst snd] in *. subst r3.
  cbn [attemptLoop mret M_ret fst snd].
  assert (Hev : events w3 = events w ++ [EvCacheRead; EvFetch url; EvDelay 1000; EvFetch url;
                             EvDelay 2000; EvFetch url;
                             EvCacheWrite (<[url:=errorState url e3]> (default ∅ (contextCache w)))]).
  { rewrite He3, He2, He1, He0. rewrite <- !(assoc_L (++)). reflexivity. }
  split; [done |]. split; [done |].
  split; [rewrite Hn3, Hn2, Hn1, Hn0; lia |].
  split; [rewrite Hev, waited_app; cbn [waited foldr]; lia |].
  split; [by rewrite Hhl3, Hhl2, Hhl1, Hhl0 |]. by split.
Qed.

Lemma C2_three_failures_witness :
  let env := answering example_keyless in
  let w := updateHighlights (initial example_surface) in
  let id := generateId (js "@link https://example.com") in
  let cache := <[example_url:=errorState example_url unknown_error]>
                 (default ∅ (contextCache w)) in
  let w' := (processLink env id example_url w).2 in
  (storageFault env (storageOps w) = None
   ∧ storageFault env (S (storageOps w)) = None
   ∧ default ∅ (contextCache w) !! example_url = None
   ∧ failure (net env (netCalls w)) = Some unknown_error
   ∧ failure (net env (S (netCalls w))) = Some unknown_error
   ∧ failure (net env (S (S (netCalls w)))) = Some unknown_error)
  ∧ (processLink env id example_url w).1 = Ok tt
  ∧ events w' = events w ++ [EvCacheRead; EvFetch example_url; EvDelay 1000;
                             EvFetch example_url; EvDelay 2000;
                             EvFetch example_url; EvCacheWrite cache]
  ∧ netCalls w' = (3 + netCalls w)%nat
  ∧ waited (events w') = waited (events w) + 3000
  ∧ JsMap.get id (highlights w')
    = with_state (errorState example_url unknown_error) <$> JsMap.get id (highlights w)
  ∧ status (errorState example_url unknown_error) = Error
  ∧ contextCache w' = Some cache.
Proof.
  split; [by repeat split |].
  by apply (C2_three_failures (answering example_keyless) _ example_url
              (updateHighlights (initial example_surface))
              unknown_error unknown_error unknown_error).
Defined.

(** C3: when the durable cache has an entry for the URL, [processLink]
    copies the cached state onto the highlight and returns: the only host
    interaction is the cache read, so the collaborator is not called and
    nothing is waited for or written. In particular a highlight whose URL
    is cached as [done] is [done] afterwards. *)
Theorem C3_cache_hit (env : Env) (id url : jsstring) (w : World)
    (cached : LinkState) :
  storageFault env (storageOps w) = None →
  default ∅ (contextCache w) !! url = Some cached →
  let w' := (processLink env id url w).2 in
  (processLink env id url w).1 = Ok tt
  ∧ events w' = events w ++ [EvCacheRead]
  ∧ netCalls w' = netCalls w
  ∧ contextCache w' = contextCache w
  ∧ JsMap.get id (highlights w') = with_state cached <$> JsMap.get id (highlights w)
  ∧ (status cached = Done → is_Some (JsMap.get id (highlights w)) →
     status ∘ state <$> JsMap.get id (highlights w') = Some Done).
Proof.
  intros Hs Hhit w'. subst w'. unfold processLink, mbind, M_bind.
  destruct (getValue_ok env w Hs) as (Hr0 & (He0 & Hn0 & Ho0) & Hhl0 & Hc0).
  destruct (getValue env w) as [r0 w0]. cbn [fst snd] in *. subst r0.
  rewrite Hhit. cbn [lift fst snd].
  rewrite events_updateHighlightState, netCalls_updateHighlightState,
    contextCache_updateHighlightState, get_updateHighlightState, He0, Hn0, Hc0, Hhl0.
  repeat split; try done.
  intros Hdone [h ->]. cbn. by rewrite Hdone.
Qed.

Lemma C3_cache_hit_witness :
  let w := cached_world in
  let id := generateId (js "@link https://example.com") in
  let w' := (processLink (answering example_keyless) id example_url w).2 in
  (storageFault (answering example_keyless) (storageOps w) = None
   ∧ default ∅ (contextCache w) !! example_url = Some example_done)
  ∧ (processLink (answering example_keyless) id example_url w).1 = Ok tt
  ∧ events w' = events w ++ [EvCacheRead]
  ∧ netCalls w' = netCalls w
  ∧ contextCache w' = contextCache w
  ∧ JsMap.get id (highlights w') = with_state example_done <$> JsMap.get id (highlights w)
  ∧ (status example_done = Done → is_Some (JsMap.get id (highlights w)) →
     status ∘ state <$> JsMap.get id (highlights w') = Some Done).
Proof.
  assert (Hhit : default ∅ (contextCache cached_world) !! example_url = Some example_done)
    by (by vm_compute).
  split; [by split |].
  by apply (C3_cache_hit (answering example_keyless) _ example_url cached_world example_done).
Defined.

(** C4: the Submission Guard has two states. A send gesture handled while
    it is [Processing] changes nothing at all. From [Idle], whatever the
    host does (any answers of the collaborator, any rejected storage
    operation, a fault raised during any step of the sequence),
    [handleSubmitAttempt] completes without an uncaught fault, with the
    guard back in [Idle], the bypass flag cleared and the loading indicator
    hidden. The steps of the sequence leave the guard's state alone, so it
    is [Processing] throughout. *)
Theorem C4_submission_guard (env : Env) (triggerType : Trigger) (w : World) :
  (guardState w = Processing → handleSubmitAttempt env triggerType w = (Ok tt, w))
  ∧ (guardState w = Idle →
     let r := handleSubmitAttempt env triggerType w in
     r.1 = Ok tt ∧ guardState r.2 = Idle
     ∧ shouldBypassInterception r.2 = false ∧ loadingHidden r.2)
  ∧ (guardState (showLoadingIndicator w) = guardState w
     ∧ guardState (processPendingLinks env w).2 = guardState w
     ∧ guardState (injectContext env w).2 = guardState w
     ∧ guardState (set_shouldBypassInterception true w) = guardState w
     ∧ guardState (triggerNativeSubmission triggerType w) = guardState w
     ∧ guardState (delay 1000 w).2 = guardState w).
Proof.
  unfold guardState. split; [| split].
  - intros Hp. unfold handleSubmitAttempt. by destruct (isProcessing w).
  - intros Hi. unfold handleSubmitAttempt. destruct (isProcessing w); [done |].
    unfold tryCatchFinally, tryCatch.
    match goal with |- context [?body (set_isProcessing true w)] =>
      destruct (body (set_isProcessing true w)) as [[[]|e] w1] end.
    + unfold mbind, M_bind, lift, hideLoadingIndicator, loadingHidden.
      destruct (loadingIndicator w1) eqn:Hl; cbn; by rewrite ?Hl.
    + unfold mbind, M_bind, lift, showErrorMessage, hideLoadingIndicator, loadingHidden.
      cbn [emit loadingIndicator set_events].
      destruct (loadingIndicator w1) eqn:Hl; cbn; by rewrite ?Hl.
  - split; [unfold showLoadingIndicator; by destruct (loadingIndicator w) |].
    split.
    { destruct (processPendingLinks_footprint env w) as ((-> & _) & _). done. }
    split; [by rewrite isProcessing_injectContext |].
    split; [done |].
    split; [| done].
    unfold triggerNativeSubmission.
    by destruct (submitButton w), triggerType, (inputDiv w).
Qed.

Lemma C4_submission_guard_witness :
  let w := updateHighlights (initial example_surface) in
  let r := handleSubmitAttempt faulty enter w in
  guardState w = Idle
  ∧ r.1 = Ok tt ∧ guardState r.2 = Idle
  ∧ shouldBypassInterception r.2 = false ∧ loadingHidden r.2.
Proof.
  split; [reflexivity |].
  by apply (C4_submission_guard faulty enter (updateHighlights (initial example_surface))).
Defined.






(** C7 (the code departs from it): the background script reports a failure
    as [{success: false, error}], yet a third failed attempt stores
    ["Unknown error"], not the reported message. *)
Lemma C7_reported_message_dropped :
  let env := answering example_keyless in
  let w := updateHighlights (initial example_surface) in
  let id := generateId (js "@link https://example.com") in
  let w' := (processLink env id example_url w).2 in
  resp_error example_keyless = Some (js "Firecrawl API key not found")
  ∧ error ∘ state <$> JsMap.get id (highlights w') = Some (Some (js "Unknown error"))
  ∧ error <$> default ∅ (contextCache w') !! example_url
    = Some (Some (js "Unknown error")).
Proof. by vm_compute. Qed.









(** The end-to-end scenario of the specification: the mention is scanned,
    Space starts the fetch, the collaborator answers, and on send the block
    is appended before the native send fires, once. *)
Example end_to_end :
  let env := answering example_ok in
  let w1 := updateHighlights (initial example_surface) in
  let w2 := (processPendingLinks env w1).2 in
  let w3 := (handleSubmitAttempt env enter w2).2 in
  status ∘ state <$> JsMap.values (highlights w1) = [Pending]
  ∧ status ∘ state <$> JsMap.values (highlights w2) = [Done]
  ∧ inputDiv w3
    = Some (example_surface ++ [10; 10] ++ js "Context for https://example.com:"
            ++ [10] ++ js "Example body")
  ∧ events w3
    = [EvCacheRead; EvFetch example_url;
       EvCacheWrite {[ example_url := example_done ]};
       EvNativeSubmit enter; EvDelay 1000]
  ∧ guardState w3 = Idle.
Proof. by vm_compute. Qed.

(** * The code beyond the claims *)

(** ** The walk over the text nodes *)

Section dom_walk.
Import Dom.

Lemma Node_ind (P : Node → Prop) :
  (∀ data, P (Text data)) →
  (∀ childNodes, Forall P childNodes → P (Element childNodes)) →
  ∀ node, P node.
Proof.
  intros Ht He. fix IH 1. intros [data|childNodes]; [apply Ht |].
  apply He. induction childNodes as [|c cs IHcs]; constructor; [apply IH | exact IHcs].
Qed.

Context (index len : nat).

Lemma texts_cons c cs :
  mjoin (textContent <$> c :: cs) = textContent c ++ mjoin (textContent <$> cs).
Proof. done. Qed.

Lemma texts_app cs1 cs2 :
  mjoin (textContent <$> cs1 ++ cs2)
  = mjoin (textContent <$> cs1) ++ mjoin (textContent <$> cs2).
Proof.
  induction cs1 as [|c cs1 IH]; [done |].
  by rewrite <- app_comm_cons, !texts_cons, IH, (assoc_L (++)).
Qed.

Lemma texts_middle cs i c :
  cs !! i = Some c →
  mjoin (textContent <$> cs)
  = mjoin (textContent <$> take i cs) ++ textContent c
    ++ mjoin (textContent <$> drop (S i) cs).
Proof.
  intros Hi.
  transitivity (mjoin (textContent <$> take i cs ++ c :: drop (S i) cs));
    [by rewrite take_drop_middle | by rewrite texts_app, texts_cons].
Qed.

Lemma textContent_Element cs :
  textContent (Element cs) = mjoin (textContent <$> cs).
Proof. done. Qed.

Lemma walked_shift base ci total ci' total' path range node res :
  (ci + total = ci' + total')%nat →
  walked index len base ci total path range node res →
  walked index len base ci' total' path range node res.
Proof.
  intros Heq. destruct res as [[[[|] c] r]|e]; [done | | done].
  cbn. by rewrite Heq.
Qed.

Lemma findTextNode_Text data path ci range :
  (ci ≤ index)%nat →
  walked index len ci ci (length data) path range (Text data)
    (findTextNode index len (Text data) path ci range).
Proof.
  intros Hci. cbn [findTextNode]. case_decide as Hin; [| cbn; repeat split; lia].
  unfold setStart. rewrite decide_False by lia.
  assert (Hend : ∀ r, startContainer r = TextAt path →
            startOffset r = (index - ci)%nat →
            walked index len ci ci (length data) path range (Text data)
              match setEnd path (length data) (index - ci + len) r with
              | Ok range2 => Ok (true, ci, range2)
              | Throw e => Throw e
              end).
  { intros r Hc Ho. unfold setEnd. case_decide as Hlen.
    - split; [done |]. exists [], data. cbn. rewrite Nat.add_0_r. repeat split; lia.
    - rewrite Hc, Ho. cbn [before]. rewrite decide_True by done.
      rewrite bool_decide_eq_false_2 by lia.
      exists [], data. cbn. rewrite Nat.add_0_r, app_nil_r.
      repeat split; lia. }
  destruct (before _ _ _ _); by apply Hend.
Qed.

Lemma textAt_child pre c rest q :
  textAt (Element (pre ++ c :: rest)) (length pre :: q) = textAt c q.
Proof. cbn [textAt]. by rewrite list_lookup_middle. Qed.

Lemma textBefore_child pre c rest q :
  textBefore (Element (pre ++ c :: rest)) (length pre :: q)
  = mjoin (textContent <$> pre) ++ textBefore c q.
Proof.
  cbn [textBefore]. rewrite list_lookup_middle by done.
  by rewrite take_app_length.
Qed.

Lemma findTextNode_walked node : ∀ path ci range,
  (ci ≤ index)%nat →
  walked index len ci ci (length (textContent node)) path range node
    (findTextNode index len node path ci range).
Proof.
  induction node as [data|childNodes IH] using Node_ind; intros path ci range Hci;
    [by apply findTextNode_Text |].
  cbn [findTextNode textContent].
  assert (Hgen : ∀ pre cs cur range',
    Forall (λ node, ∀ path ci range, (ci ≤ index)%nat →
      walked index len ci ci (length (textContent node)) path range node
        (findTextNode index len node path ci range)) cs →
    cur = (ci + length (mjoin (textContent <$> pre)))%nat → (cur ≤ index)%nat →
    walked index len ci cur (length (mjoin (textContent <$> cs))) path range'
      (Element (pre ++ cs))
      ((fix each (children : list Node) (i currentIndex : nat) (range : Range)
          : Res (bool * nat * Range) :=
          match children with
          | [] => Ok (false, currentIndex, range)
          | childNode :: rest =>
              match findTextNode index len childNode (path ++ [i])
                      currentIndex range with
              | Throw e => Throw e
              | Ok (true, currentIndex', range') =>
                  Ok (true, currentIndex', range')
              | Ok (false, currentIndex', range') =>
                  each rest (S i) currentIndex' range'
              end
          end) cs (length pre) cur range')).
  { intros pre cs. revert pre.
    induction cs as [|c cs IHcs]; intros pre cur range' Hall Hcur Hle.
    - cbn. repeat split; lia.
    - apply Forall_cons in Hall as [Hc Hall].
      specialize (Hc (path ++ [length pre]) cur range' Hle).
      destruct (findTextNode index len c (path ++ [length pre]) cur range')
        as [[[[|] ci'] r']|e].
      + destruct Hc as (q & data & Hat & Hb & Hfit & ->).
        exists (length pre :: q), data. rewrite textAt_child, textBefore_child.
        split; [done |]. rewrite length_app, <- (assoc_L (++)). cbn [app].
        cbv zeta in *. rewrite Nat.add_assoc, <- Hcur. by split; [| split].
      + destruct Hc as (-> & Hle' & ->).
        specialize (IHcs (pre ++ [c]) (cur + length (textContent c))%nat range' Hall).
        rewrite <- (assoc_L (++)) in IHcs. cbn [app] in IHcs.
        rewrite length_app in IHcs. cbn [length] in IHcs.
        rewrite Nat.add_1_r in IHcs.
        apply (walked_shift ci (cur + length (textContent c))
                 (length (mjoin (textContent <$> cs)))); [| apply IHcs; [| done]].
        * rewrite texts_cons, length_app. lia.
        * rewrite texts_app, texts_cons, !length_app. cbn. lia.
      + destruct Hc as (-> & q & data & Hat & Hb & Hfit). split; [done |].
        exists (length pre :: q), data. rewrite textAt_child, textBefore_child.
        split; [done |]. rewrite length_app. cbv zeta in *.
        rewrite Nat.add_assoc, <- Hcur. by split. }
  apply (Hgen [] childNodes ci range IH); [cbn; lia | done].
Qed.

End dom_walk.

Lemma indexOf_from_Some pos text search i :
  indexOf_from pos text search = Some i →
  ∃ pre post, text = pre ++ search ++ post ∧ i = (pos + length pre)%nat.
Proof.
  revert pos; induction text as [|c text IH]; intros pos;
    rewrite indexOf_from_unfold.
  - destruct (strip_prefix search []) as [r|] eqn:Hs; [| done].
    intros [= <-]. apply strip_prefix_Some in Hs. exists [], r.
    split; [done | simpl; lia].
  - destruct (strip_prefix search (c :: text)) as [r|] eqn:Hs.
    + intros [= <-]. apply strip_prefix_Some in Hs. exists [], r.
      split; [done | simpl; lia].
    + intros (pre & post & -> & ->)%IH. exists (c :: pre), post.
      split; [done | simpl; lia].
Qed.

Lemma indexOf_Some text search i :
  indexOf text search = Some i →
  ∃ pre post, text = pre ++ search ++ post ∧ length pre = i.
Proof.
  intros (pre & post & -> & ->)%indexOf_from_Some. by exists pre, post.
Qed.

Section dom_paths.
Import Dom.

Lemma textContent_split node : ∀ path data,
  textAt node path = Some data →
  ∃ rest, textContent node = textBefore node path ++ data ++ rest.
Proof.
  induction node as [d|childNodes IH] using Node_ind; intros path data.
  - destruct path; [| done]. intros [= ->]. exists []. by rewrite app_nil_r.
  - destruct path as [|i path]; [done |]. cbn [textAt textBefore].
    destruct (childNodes !! i) as [child|] eqn:Hi; [| done]. intros Hat.
    rewrite Forall_forall in IH.
    destruct (IH child (list_elem_of_lookup_2 _ _ _ Hi) path data Hat) as [rest Hrest].
    rewrite textContent_Element, (texts_middle _ _ _ Hi), Hrest.
    exists (rest ++ mjoin (textContent <$> drop (S i) childNodes)).
    by rewrite <- !(assoc_L (++)).
Qed.

Lemma texts_take_lt cs a b child :
  (a < b)%nat → cs !! a = Some child →
  (length (mjoin (textContent <$> take a cs)) + length (textContent child)
   ≤ length (mjoin (textContent <$> take b cs)))%nat.
Proof.
  intros Hab Ha.
  assert (Hb : take b cs = take a cs ++ child :: take (b - S a) (drop (S a) cs)).
  { transitivity (take b (take a cs ++ child :: drop (S a) cs));
      [by rewrite take_drop_middle |].
    apply lookup_lt_Some in Ha.
    rewrite take_app, length_take_le by lia.
    rewrite take_take, Nat.min_r by lia.
    by replace (b - a)%nat with (S (b - S a)) by lia. }
  rewrite Hb, texts_app, texts_cons, !length_app. lia.
Qed.

(** The text nodes of an element hold disjoint stretches of its text. *)
Lemma textAt_unique node : ∀ p q d1 d2 i,
  textAt node p = Some d1 → textAt node q = Some d2 →
  (length (textBefore node p) ≤ i < length (textBefore node p) + length d1)%nat →
  (length (textBefore node q) ≤ i < length (textBefore node q) + length d2)%nat →
  p = q.
Proof.
  induction node as [d|childNodes IH] using Node_ind; intros p q d1 d2 i.
  - destruct p, q; done.
  - destruct p as [|a p], q as [|b q]; try done.
    cbn [textAt textBefore].
    destruct (childNodes !! a) as [ca|] eqn:Ha; [| done].
    destruct (childNodes !! b) as [cb|] eqn:Hb; [| done].
    intros H1 H2. rewrite !length_app. intros Hi1 Hi2.
    destruct (textContent_split _ _ _ H1) as [r1 Hr1].
    destruct (textContent_split _ _ _ H2) as [r2 Hr2].
    apply (f_equal length) in Hr1, Hr2. rewrite !length_app in Hr1, Hr2.
    destruct (decide (a = b)) as [<-|Hab].
    + replace cb with ca in * by congruence. f_equal.
      rewrite Forall_forall in IH.
      apply (IH ca (list_elem_of_lookup_2 _ _ _ Ha) p q d1 d2
               (i - length (mjoin (textContent <$> take a childNodes)))%nat);
        [done | done | lia | lia].
    + exfalso. destruct (decide (a < b)%nat).
      * pose proof (texts_take_lt childNodes a b ca ltac:(lia) Ha). lia.
      * pose proof (texts_take_lt childNodes b a cb ltac:(lia) Hb). lia.
Qed.

End dom_paths.

Section dom_findRangeForMatch.
Import Dom.

Lemma findRangeForMatch_walked element searchText i :
  indexOf (textContent element) searchText = Some i →
  searchText ≠ [] →
  ∃ q data,
    textAt element q = Some data
    ∧ (length (textBefore element q) ≤ i
       < length (textBefore element q) + length data)%nat
    ∧ findRangeForMatch element searchText
      = if decide (i - length (textBefore element q) + length searchText
                   ≤ length data)%nat
        then Ok (Some (rangeIn q (i - length (textBefore element q))
                         (i - length (textBefore element q) + length searchText)))
        else Throw indexSizeError.
Proof.
  intros Hi Hne. unfold findRangeForMatch. rewrite Hi.
  pose proof (findTextNode_walked i (length searchText) element [] 0%nat
                createRange ltac:(lia)) as Hw.
  destruct (indexOf_Some _ _ _ Hi) as (pre & post & Htext & Hpre).
  apply (f_equal length) in Htext. rewrite !length_app in Htext.
  assert (0 < length searchText)%nat by (destruct searchText; [done | simpl; lia]).
  destruct (findTextNode i (length searchText) element [] 0 createRange)
    as [[[[|] ci'] r']|e]; cbn in Hw.
  - destruct Hw as (q & data & Hat & Hb & Hfit & ->). exists q, data.
    split; [done |]. split; [done |]. by rewrite decide_True.
  - lia.
  - destruct Hw as (-> & q & data & Hat & Hb & Hfit). exists q, data.
    split; [done |]. split; [done |]. rewrite decide_False; [done | lia].
Qed.

Lemma window_in_node (tb data rest pre s post : jsstring) :
  tb ++ data ++ rest = pre ++ s ++ post →
  (length tb ≤ length pre)%nat →
  (length pre - length tb + length s ≤ length data)%nat →
  take (length s) (drop (length pre - length tb) data) = s.
Proof.
  intros Heq Hle Hfit.
  apply (f_equal (drop (length pre))) in Heq.
  rewrite drop_app_length in Heq.
  rewrite drop_app_ge, drop_app_le in Heq by lia.
  apply (f_equal (take (length s))) in Heq.
  rewrite take_app_length, take_app_le in Heq; [done |].
  rewrite length_drop. lia.
Qed.

End dom_findRangeForMatch.

(** X1: when [findRangeForMatch] returns a range for a search text that is
    not empty, the range lies within one text node, the text it selects is
    the search text, and it starts where the first occurrence of the search
    text starts in the text of the element. *)
Theorem X1_range_selects_first_occurrence (element : Dom.Node)
    (searchText : jsstring) (range : Dom.Range) :
  searchText ≠ [] →
  Dom.findRangeForMatch element searchText = Ok (Some range) →
  Dom.selected element range = Some searchText
  ∧ ∃ path,
      Dom.startContainer range = Dom.TextAt path
      ∧ Dom.endContainer range = Dom.TextAt path
      ∧ indexOf (Dom.textContent element) searchText
        = Some (length (Dom.textBefore element path) + Dom.startOffset range)%nat.
Proof.
  intros Hne Hrun.
  destruct (indexOf (Dom.textContent element) searchText) as [i|] eqn:Hi;
    [| unfold Dom.findRangeForMatch in Hrun; by rewrite Hi in Hrun].
  destruct (findRangeForMatch_walked element searchText i Hi Hne)
    as (q & data & Hat & Hb & Hres).
  rewrite Hres in Hrun. case_decide as Hfit; [| done]. injection Hrun as <-.
  destruct (indexOf_Some _ _ _ Hi) as (pre & post & Htext & Hpre).
  destruct (textContent_split element q data Hat) as [rest Hrest].
  split.
  - unfold Dom.selected. cbn. rewrite decide_True by done. rewrite Hat. cbn.
    f_equal. rewrite <- Hpre in *.
    replace (length pre - length (Dom.textBefore element q) + length searchText
             - (length pre - length (Dom.textBefore element q)))%nat
      with (length searchText) by lia.
    apply (window_in_node (Dom.textBefore element q) data rest pre searchText post);
      [by rewrite <- Hrest | lia | lia].
  - exists q. cbn. split; [done |]. split; [done |]. f_equal. lia.
Qed.

Lemma X1_range_selects_first_occurrence_witness :
  let searchText := js "@link https://example.com" in
  let range := Dom.rangeIn [0; 2]%nat 2 27 in
  (searchText ≠ []
   ∧ Dom.findRangeForMatch Dom.marked_paragraph searchText = Ok (Some range))
  ∧ Dom.selected Dom.marked_paragraph range = Some searchText
  ∧ ∃ path,
      Dom.startContainer range = Dom.TextAt path
      ∧ Dom.endContainer range = Dom.TextAt path
      ∧ indexOf (Dom.textContent Dom.marked_paragraph) searchText
        = Some (length (Dom.textBefore Dom.marked_paragraph path)
                + Dom.startOffset range)%nat.
Proof.
  assert (Hrun : Dom.findRangeForMatch Dom.marked_paragraph
                   (js "@link https://example.com")
                 = Ok (Some (Dom.rangeIn [0; 2]%nat 2 27))) by (by vm_compute).
  split; [by split |].
  by apply (X1_range_selects_first_occurrence Dom.marked_paragraph
              (js "@link https://example.com")).
Defined.

(** X2: [findRangeForMatch] returns [null] exactly when the search text
    does not occur in the text of the element, and it raises a fault
    exactly when the first occurrence begins in a text node and runs past
    the end of that node (the offset handed to [range.setEnd] is then larger
    than the node's length). *)
Theorem X2_range_null_or_fault (element : Dom.Node) (searchText : jsstring) :
  (Dom.findRangeForMatch element searchText = Ok None
   ↔ includes (Dom.textContent element) searchText = false)
  ∧ ((∃ e, Dom.findRangeForMatch element searchText = Throw e)
     ↔ Dom.crosses element searchText)
  ∧ ∀ e, Dom.findRangeForMatch element searchText = Throw e →
         e = Dom.indexSizeError.
Proof.
  unfold Dom.findRangeForMatch, includes, Dom.crosses.
  destruct (indexOf (Dom.textContent element) searchText) as [i|] eqn:Hi.
  - pose proof (findTextNode_walked i (length searchText) element [] 0%nat
                  Dom.createRange ltac:(lia)) as Hw.
    destruct (Dom.findTextNode i (length searchText) element [] 0 Dom.createRange)
      as [[[[|] ci'] r']|e]; cbn in Hw.
    + destruct Hw as (q & data & Hat & Hb & Hfit & ->).
      split; [| split].
      * split; [done |]. intros Hn. apply bool_decide_eq_false in Hn.
        destruct Hn. by eexists.
      * split; [by intros [e ?] |].
        intros (i' & p & d & [= <-] & Hp & Hin & Hover).
        assert (p = q) as -> by (by apply (textAt_unique element p q d data i)).
        exfalso. replace d with data in * by congruence. lia.
      * done.
    + destruct Hw as (Hlen & Hle & ->).
      split; [| split].
      * split; [done |]. intros Hn. apply bool_decide_eq_false in Hn.
        destruct Hn. by eexists.
      * split; [by intros [e ?] |].
        intros (i' & p & d & [= <-] & Hp & Hin & Hover). exfalso.
        destruct (textContent_split element p d Hp) as [rest Hrest].
        apply (f_equal length) in Hrest. rewrite !length_app in Hrest. lia.
      * done.
    + destruct Hw as (-> & q & data & Hat & Hb & Hfit).
      split; [| split].
      * split; [done |]. intros Hn. apply bool_decide_eq_false in Hn.
        destruct Hn. by eexists.
      * split; [| by eexists]. intros _. exists i, q, data.
        split; [done |]. split; [done |]. split; [exact Hb | lia].
      * by intros e [= <-].
  - split; [| split].
    + split; [| done]. intros _. apply bool_decide_eq_false. by intros [? ?].
    + split; [by intros [e ?] | by intros (i & p & d & ? & _)].
    + done.
Qed.

(** X3: when the whole text of the element sits in one text node, as the
    model of the processor takes it, the walk gives the range over that
    node with the offsets the one-node [findRangeForMatch] computes: those
    of the first occurrence of the search text. *)
Theorem X3_single_text_node (element : Dom.Node) (path : list nat)
    (text searchText : jsstring) :
  Dom.textAt element path = Some text →
  Dom.textContent element = text →
  searchText ≠ [] →
  Dom.findRangeForMatch element searchText
  = Ok ((λ r, Dom.rangeIn path r.1 r.2) <$> findRangeForMatch text searchText).
Proof.
  intros Hat Htext Hne. unfold findRangeForMatch.
  destruct (indexOf text searchText) as [i|] eqn:Hi.
  - rewrite <- Htext in Hi.
    destruct (findRangeForMatch_walked element searchText i Hi Hne)
      as (q & data & Hq & Hb & ->).
    destruct (indexOf_Some _ _ _ Hi) as (pre & post & Hocc & Hpre).
    destruct (textContent_split element path text Hat) as [rest Hrest].
    rewrite Htext in Hocc, Hrest.
    apply (f_equal length) in Hocc, Hrest. rewrite !length_app in Hocc, Hrest.
    assert (0 < length searchText)%nat
      by (destruct searchText; [done | simpl; lia]).
    assert (Hnil : length (Dom.textBefore element path) = 0%nat) by lia.
    assert (path = q) as <-.
    { apply (textAt_unique element path q text data i); [done | done | lia | done]. }
    replace data with text in * by congruence.
    rewrite Hnil, Nat.sub_0_r. rewrite decide_True by lia. done.
  - unfold Dom.findRangeForMatch. by rewrite Htext, Hi.
Qed.

Lemma X3_single_text_node_witness :
  let element := Dom.Element [Dom.Element [Dom.Text example_surface]] in
  let searchText := js "@link https://example.com" in
  (Dom.textAt element [0; 0]%nat = Some example_surface
   ∧ Dom.textContent element = example_surface
   ∧ searchText ≠ [])
  ∧ Dom.findRangeForMatch element searchText
    = Ok ((λ r, Dom.rangeIn [0; 0]%nat r.1 r.2)
            <$> findRangeForMatch example_surface searchText).
Proof.
  split; [by repeat split |].
  by apply (X3_single_text_node _ [0; 0]%nat example_surface).
Defined.

(** A mention split over two text nodes: the walk faults. *)
Example split_mention_faults :
  Dom.findRangeForMatch Dom.split_paragraph (js "@link https://example.com")
  = Throw Dom.indexSizeError.
Proof. by vm_compute. Qed.

(** ** Debouncing *)

Section debounce_props.
Import Debounce.
Context {Args : Type} (wait : nat).
Implicit Types (s : @State Args) (script : list (nat * Args)).

Lemma tidy_start : tidy wait (@start Args).
Proof. split; [done | by left]. Qed.

(** The timers of a tidy state that are due by [t]. *)
Lemma call_after s t a :
  tidy wait s →
  let s' := debounced wait a (advance t s) in
  timers s' = [{| timerId := nextId s; due := (Nat.max (now s) t + wait)%nat;
                  args := a |}]
  ∧ timeout s' = Some (nextId s) ∧ nextId s' = S (nextId s)
  ∧ now s' = Nat.max (now s) t
  ∧ invoked s'
    = invoked s ++ ((λ tm, (due tm, args tm))
                      <$> filter (λ tm, (due tm ≤ t)%nat) (timers s)).
Proof.
  intros [Hid Hs]. unfold debounced, advance, setTimeout, clearTimeout. cbn.
  destruct Hs as [Hnil | (tm & Htm & Hto & Hrange & Hdue)].
  - rewrite Hnil.
    destruct (timeout s) as [id|]; [destruct (decide (id = 0%nat)) |]; cbn;
      by rewrite ?Hnil.
  - rewrite Hto, Htm. rewrite decide_False by lia. cbn.
    destruct (decide (due tm ≤ t)%nat).
    + by rewrite decide_False by tauto.
    + rewrite decide_True by tauto. rewrite filter_cons, filter_nil.
      by rewrite decide_False by tauto.
Qed.

Lemma tidy_debounced s t a :
  tidy wait s → tidy wait (debounced wait a (advance t s)).
Proof.
  intros Hs. destruct (call_after s t a Hs) as (Ht & Hto & Hn & Hnow & _).
  destruct Hs as [Hid _]. split; [lia |]. right. eexists. split; [exact Ht |].
  rewrite Hto, Hn, Hnow. cbn. split; [done |]. split; lia.
Qed.

Lemma tidy_advance s t : tidy wait s → tidy wait (advance t s).
Proof.
  intros [Hid Hs]. split; [done |]. cbn.
  destruct Hs as [-> | (tm & -> & Hto & Hrange & Hdue)]; [by left |].
  rewrite filter_cons, filter_nil. case_decide; [| by left].
  right. exists tm. repeat split; try done; lia.
Qed.

Lemma tidy_foldl script s :
  tidy wait s →
  tidy wait (foldl (λ s c, debounced wait c.2 (advance c.1 s)) s script).
Proof.
  revert s; induction script as [|[t a] script IH]; intros s Hs; [done |].
  cbn [foldl]. by apply IH, tidy_debounced.
Qed.

Lemma run_invoked script : ∀ horizon s,
  tidy wait s → ordered script →
  (now s ≤ horizon)%nat →
  (now s ≤ match script with [] => horizon | c :: _ => c.1 end)%nat →
  Forall (λ c, c.1 ≤ horizon)%nat script →
  invoked (run wait script horizon s)
  = invoked s
    ++ ((λ tm, (due tm, args tm))
          <$> filter (λ tm, (due tm ≤ match script with
                                      | [] => horizon
                                      | c :: _ => c.1
                                      end)%nat) (timers s))
    ++ settled wait script horizon.
Proof.
  induction script as [|[t a] script IH]; intros horizon s Hs Hord Hnow Hhead Hall.
  - cbn. by rewrite app_nil_r.
  - apply Forall_cons in Hall as [Hth Hall]. cbn [fst] in *.
    destruct (call_after s t a Hs) as (Htm & Hto & Hn & Hnow' & Hinv).
    rewrite Nat.max_r in Htm, Hnow' by done.
    change (run wait ((t, a) :: script) horizon s)
      with (run wait script horizon (debounced wait a (advance t s))).
    rewrite IH.
    + rewrite Hinv, Htm. cbn [fst snd settled].
      rewrite filter_cons, filter_nil. cbn [due args].
      rewrite <- !(assoc_L (++)). do 2 f_equal.
      destruct script as [|[t' a'] script']; cbn [fst];
        by case_decide.
    + by apply tidy_debounced.
    + destruct script as [|[] ?]; [done | by destruct Hord].
    + by rewrite Hnow'.
    + rewrite Hnow'. destruct script as [|[t' a'] script']; [done |].
      by destruct Hord.
    + done.
Qed.

Lemma settled_burst script : ∀ t a horizon,
  burst wait script → last script = Some (t, a) → (t + wait ≤ horizon)%nat →
  settled wait script horizon = [((t + wait)%nat, a)]
  ∧ ordered script ∧ Forall (λ c, c.1 ≤ horizon)%nat script.
Proof.
  induction script as [|[t1 a1] script IH]; intros t a horizon Hb Hlast Hh; [done |].
  destruct script as [|[t2 a2] script].
  - injection Hlast as -> ->. cbn. rewrite decide_True by done.
    split; [done |]. split; [done |]. repeat constructor. cbn. lia.
  - destruct Hb as [Ht Hb]. rewrite last_cons_cons in Hlast.
    destruct (IH t a horizon Hb Hlast Hh) as (Hs & Ho & Hall).
    cbn [settled] in *. rewrite decide_False by lia. cbn [app].
    split; [exact Hs |]. split; [split; [lia | done] |].
    constructor; [| done]. apply Forall_cons in Hall as [Ht2 _]. cbn in *. lia.
Qed.

End debounce_props.

(** X4: the function [debounce] returns, called at the times of a script:
    [func] is invoked once for each call after which no other call comes
    for [wait], at the time [wait] after that call and with its arguments;
    the calls that are followed by another one in less than [wait] never
    reach [func]. *)
Theorem X4_debounce_invocations {Args : Type} (wait : nat)
    (script : list (nat * Args)) (horizon : nat) :
  Debounce.ordered script →
  Forall (λ c, c.1 ≤ horizon)%nat script →
  Debounce.invoked (Debounce.run wait script horizon Debounce.start)
  = Debounce.settled wait script horizon.
Proof.
  intros Hord Hall.
  rewrite (run_invoked wait script horizon Debounce.start);
    [done | apply tidy_start | done | cbn; lia | | done].
  destruct script as [|[t a] ?]; cbn; lia.
Qed.

Lemma X4_debounce_invocations_witness :
  let script := [(0, 1); (30, 2); (120, 3); (400, 4)]%nat in
  (Debounce.ordered script ∧ Forall (λ c, c.1 ≤ 1000)%nat script)
  ∧ Debounce.invoked (Debounce.run 100 script 1000 Debounce.start)
    = Debounce.settled 100 script 1000.
Proof.
  assert (Hall : Forall (λ c : nat * nat, c.1 ≤ 1000)%nat
                   [(0, 1); (30, 2); (120, 3); (400, 4)]%nat)
    by (repeat constructor; cbn; lia).
  assert (Hord : Debounce.ordered [(0, 1); (30, 2); (120, 3); (400, 4)]%nat)
    by (cbn; lia).
  split; [by split |].
  by apply (X4_debounce_invocations 100 [(0, 1); (30, 2); (120, 3); (400, 4)]%nat 1000).
Defined.

(** X5: a burst of calls, each less than [wait] after the one before,
    reaches [func] exactly once: [wait] after the last call of the burst,
    with the arguments of that last call. *)
Theorem X5_debounce_burst {Args : Type} (wait : nat)
    (script : list (nat * Args)) (t : nat) (a : Args) (horizon : nat) :
  Debounce.burst wait script → last script = Some (t, a) →
  (t + wait ≤ horizon)%nat →
  Debounce.invoked (Debounce.run wait script horizon Debounce.start)
  = [((t + wait)%nat, a)].
Proof.
  intros Hb Hlast Hh.
  destruct (settled_burst wait script t a horizon Hb Hlast Hh) as (Hs & Hord & Hall).
  rewrite (run_invoked wait script horizon Debounce.start);
    [by rewrite Hs | apply tidy_start | done | cbn; lia | | done].
  destruct script as [|[t' a'] ?]; cbn; lia.
Qed.

Lemma X5_debounce_burst_witness :
  let script := [(0, 1); (30, 2); (120, 3)]%nat in
  (Debounce.burst 100 script ∧ last script = Some (120, 3)%nat
   ∧ (120 + 100 ≤ 1000)%nat)
  ∧ Debounce.invoked (Debounce.run 100 script 1000 Debounce.start)
    = [((120 + 100)%nat, 3%nat)].
Proof.
  assert (Hb : Debounce.burst 100 [(0, 1); (30, 2); (120, 3)]%nat) by (cbn; lia).
  split; [split; [done | split; [done | lia]] |].
  apply (X5_debounce_burst 100 [(0, 1); (30, 2); (120, 3)]%nat 120 3%nat 1000);
    [done | done | lia].
Defined.

(** X6: however the debounced function is called and however time passes,
    at most one timer of the closure is pending, and the closure's
    [timeout] is the id of that timer: the next call clears it. *)
Theorem X6_debounce_one_timer {Args : Type} (wait : nat)
    (script : list (nat * Args)) (horizon : nat) :
  let s := Debounce.run wait script horizon Debounce.start in
  (length (Debounce.timers s) ≤ 1)%nat
  ∧ ∀ tm, tm ∈ Debounce.timers s →
      Debounce.timeout s = Some (Debounce.timerId tm)
      ∧ Debounce.timers (Debounce.clearTimeout (Debounce.timerId tm) s) = [].
Proof.
  intros s.
  assert (Hs : Debounce.tidy wait s)
    by (apply tidy_advance, tidy_foldl, tidy_start).
  clearbody s. destruct Hs as [_ [Hnil | (tm & Htm & Hto & _)]].
  - rewrite Hnil. split; [cbn; lia |]. by intros tm ?%elem_of_nil.
  - rewrite Htm. split; [cbn; lia |].
    intros tm' ->%list_elem_of_singleton. split; [done |].
    cbn. rewrite Htm, filter_cons, filter_nil. by rewrite decide_False by tauto.
Qed.

(** ** [processLink]: the attempts that succeed *)

Lemma hostStep_trans evs1 evs2 n1 n2 s1 s2 w1 w2 w3 :
  hostStep evs1 n1 s1 w1 w2 → hostStep evs2 n2 s2 w2 w3 →
  hostStep (evs1 ++ evs2) (n2 + n1) (s2 + s1) w1 w3.
Proof.
  intros (He1 & Hn1 & Hs1) (He2 & Hn2 & Hs2). unfold hostStep.
  rewrite He2, He1, Hn2, Hn1, Hs2, Hs1, (assoc_L (++)). repeat split; lia.
Qed.

Lemma attemptOnce_done env id url cache attempt w r d :
  net env (netCalls w) = Answered (Some r) → success r = true →
  data r = Some d → storageFault env (storageOps w) = None →
  let cache' := <[url:=doneState url d]> cache in
  let w' := (attemptOnce env id url cache attempt w).2 in
  (attemptOnce env id url cache attempt w).1 = Ok true
  ∧ hostStep [EvFetch url; EvCacheWrite cache'] 1 1 w w'
  ∧ JsMap.get id (highlights w')
    = with_state (doneState url d) <$> JsMap.get id (highlights w)
  ∧ contextCache w' = Some cache'.
Proof.
  intros Hnet Hok Hd Hs cache'.
  set (w1 := updateHighlightState id (doneState url d)
               (emit (EvFetch url) (set_netCalls (S (netCalls w)) w))).
  assert (Hrun : attemptOnce env id url cache attempt w
    = (Ok true, emit (EvCacheWrite cache')
                  (set_contextCache (Some cache') (set_storageOps (S (storageOps w)) w1)))).
  { assert (Hops : storageOps w1 = storageOps w)
      by (subst w1; by rewrite storageOps_updateHighlightState).
    unfold attemptOnce, tryCatch, mbind, M_bind, fetchLinkContext.
    rewrite Hnet, Hok, Hd. cbn [lift]. fold w1. unfold setValue.
    by rewrite Hops, Hs. }
  rewrite Hrun. clearbody cache'. clear Hrun. cbn [fst snd].
  split; [done |]. split; [| split; [| done]].
  - unfold hostStep. cbn [events netCalls storageOps emit set_events set_contextCache set_storageOps].
    subst w1. rewrite events_updateHighlightState, netCalls_updateHighlightState.
    cbn [events netCalls emit set_events set_netCalls].
    by rewrite <- (assoc_L (++)).
  - cbn [highlights emit set_events set_contextCache set_storageOps].
    subst w1. by rewrite get_updateHighlightState.
Qed.

(** A response that reports success and carries data, then a cache write
    that is rejected: the highlight is [done] already, and the attempt
    counts as failed. *)
Lemma attemptOnce_write_fault env id url cache attempt w r d e :
  net env (netCalls w) = Answered (Some r) → success r = true →
  data r = Some d → storageFault env (storageOps w) = Some e → attempt ≠ 2 →
  let w' := (attemptOnce env id url cache attempt w).2 in
  (attemptOnce env id url cache attempt w).1 = Ok false
  ∧ hostStep [EvFetch url; EvDelay (1000 * (attempt + 1))] 1 1 w w'
  ∧ JsMap.get id (highlights w')
    = with_state (doneState url d) <$> JsMap.get id (highlights w)
  ∧ contextCache w' = contextCache w.
Proof.
  intros Hnet Hok Hd Hs Ha.
  set (w1 := updateHighlightState id (doneState url d)
               (emit (EvFetch url) (set_netCalls (S (netCalls w)) w))).
  assert (Hrun : attemptOnce env id url cache attempt w
    = (Ok false, emit (EvDelay (1000 * (attempt + 1)))
                   (set_storageOps (S (storageOps w)) w1))).
  { assert (Hops : storageOps w1 = storageOps w)
      by (subst w1; by rewrite storageOps_updateHighlightState).
    unfold attemptOnce, tryCatch, mbind, M_bind, fetchLinkContext.
    rewrite Hnet, Hok, Hd. cbn [lift]. fold w1. unfold setValue.
    rewrite Hops, Hs. by rewrite decide_False by done. }
  rewrite Hrun. clear Hrun. cbn [fst snd].
  split; [done |]. split; [| split].
  - unfold hostStep. cbn [events netCalls storageOps emit set_events set_storageOps].
    subst w1. rewrite events_updateHighlightState, netCalls_updateHighlightState.
    cbn [events netCalls emit set_events set_netCalls].
    by rewrite <- (assoc_L (++)).
  - cbn [highlights emit set_events set_storageOps].
    subst w1. by rewrite get_updateHighlightState.
  - cbn [contextCache emit set_events set_storageOps].
    subst w1. by rewrite contextCache_updateHighlightState.
Qed.

(** The loop up to the first attempt that succeeds, after [n] attempts
    that fail. *)
Lemma attemptLoop_first_success env id url cache r d :
  ∀ n remaining attempt w,
  (n < remaining)%nat → (attempt + N.of_nat n ≤ 2) →
  (∀ k, (k < n)%nat → is_Some (failure (net env (netCalls w + k)))) →
  net env (netCalls w + n) = Answered (Some r) → success r = true →
  data r = Some d → storageFault env (storageOps w) = None →
  let cache' := <[url:=doneState url d]> cache in
  let w' := (attemptLoop env id url cache remaining attempt w).2 in
  (attemptLoop env id url cache remaining attempt w).1 = Ok tt
  ∧ hostStep (failedAttempts url attempt n ++ [EvFetch url; EvCacheWrite cache'])
      (S n) 1 w w'
  ∧ JsMap.get id (highlights w')
    = with_state (doneState url d) <$> JsMap.get id (highlights w)
  ∧ contextCache w' = Some cache'.
Proof.
  induction n as [|n IH]; intros remaining attempt w Hrem Hatt Hfail Hnet Hok Hd Hs cache' w';
    (destruct remaining as [|remaining]; [lia |]); subst w'; rewrite attemptLoop_S;
    unfold mbind, M_bind.
  - rewrite Nat.add_0_r in Hnet.
    destruct (attemptOnce_done env id url cache attempt w r d Hnet Hok Hd Hs)
      as (Hr & Hh & Hg & Hc).
    destruct (attemptOnce env id url cache attempt w) as [r1 w1].
    cbn [fst snd] in *. subst r1. cbn [mret M_ret fst snd].
    split; [done |]. split; [exact Hh |]. by split.
  - destruct (Hfail 0%nat ltac:(lia)) as [e He]. rewrite Nat.add_0_r in He.
    destruct (attemptOnce_fail env id url cache attempt w e He ltac:(lia))
      as (Hr & Hh & Hg & Hc).
    destruct (attemptOnce env id url cache attempt w) as [r1 w1].
    cbn [fst snd] in *. subst r1. destruct Hh as (He1 & Hn1 & Ho1).
    destruct (IH remaining (attempt + 1) w1) as (Hr2 & Hh2 & Hg2 & Hc2);
      [lia | lia | | | done | done | | ].
    + intros k Hk. rewrite Hn1. replace (1 + netCalls w + k)%nat
        with (netCalls w + S k)%nat by lia. apply Hfail. lia.
    + rewrite Hn1. by replace (1 + netCalls w + n)%nat
        with (netCalls w + S n)%nat by lia.
    + by rewrite Ho1.
    + split; [done |]. split; [| split; [by rewrite Hg2, Hg | done]].
      cbn [failedAttempts]. rewrite <- (assoc_L (++)).
      replace (S (S n)) with (S n + 1)%nat by lia.
      replace 1%nat with (1 + 0)%nat at 2 by lia.
      by apply (hostStep_trans _ _ _ _ _ _ w w1).
Qed.

(** X7: when the URL is not cached and the first attempt that succeeds
    comes after [n] failed ones ([n] at most 2), [processLink] calls the
    collaborator [n + 1] times, with the backoff delays between the calls,
    writes the [done] state built from the response to the highlight and
    persists it under the URL, and makes no further attempt. *)
Theorem X7_success_after_failures (env : Env) (id url : jsstring)
    (w : World) (n : nat) (r : Response) (d : ResponseData) :
  storageFault env (storageOps w) = None →
  storageFault env (S (storageOps w)) = None →
  default ∅ (contextCache w) !! url = None →
  (n ≤ 2)%nat →
  (∀ k, (k < n)%nat → is_Some (failure (net env (netCalls w + k)))) →
  net env (netCalls w + n) = Answered (Some r) →
  success r = true → data r = Some d →
  let cache := <[url:=doneState url d]> (default ∅ (contextCache w)) in
  let w' := (processLink env id url w).2 in
  (processLink env id url w).1 = Ok tt
  ∧ events w' = events w ++ [EvCacheRead] ++ failedAttempts url 0 n
                ++ [EvFetch url; EvCacheWrite cache]
  ∧ netCalls w' = (S n + netCalls w)%nat
  ∧ JsMap.get id (highlights w')
    = with_state (doneState url d) <$> JsMap.get id (highlights w)
  ∧ contextCache w' = Some cache.
Proof.
  intros Hs0 Hs1 Hmiss Hn Hfail Hnet Hok Hd cache w'. subst w' cache.
  unfold processLink, mbind, M_bind.
  destruct (getValue_ok env w Hs0) as (Hr0 & (He0 & Hn0 & Ho0) & Hhl0 & Hc0).
  destruct (getValue env w) as [r0 w0]. cbn [fst snd] in *. subst r0.
  rewrite Hmiss.
  destruct (attemptLoop_first_success env id url (default ∅ (contextCache w)) r d
              n 3 0 w0) as (Hr & (He & Hnc & _) & Hg & Hc);
    [lia | lia | by intros k Hk; rewrite Hn0; apply Hfail
    | by rewrite Hn0 | done | done | by rewrite Ho0 |].
  split; [done |]. split; [by rewrite He, He0, <- !(assoc_L (++)) |].
  split; [rewrite Hnc, Hn0; lia |]. split; [by rewrite Hg, Hhl0 | done].
Qed.

Lemma X7_success_after_failures_witness :
  let env := flaky in
  let w := updateHighlights (initial example_surface) in
  let id := generateId (js "@link https://example.com") in
  let d := {| markdown := js "Example body"; data_metadata := None;
              originalData := None |} in
  let cache := <[example_url:=doneState example_url d]>
                 (default ∅ (contextCache w)) in
  let w' := (processLink env id example_url w).2 in
  (storageFault env (storageOps w) = None
   ∧ storageFault env (S (storageOps w)) = None
   ∧ default ∅ (contextCache w) !! example_url = None
   ∧ (1 ≤ 2)%nat
   ∧ (∀ k, (k < 1)%nat → is_Some (failure (net env (netCalls w + k))))
   ∧ net env (netCalls w + 1) = Answered (Some example_ok)
   ∧ success example_ok = true ∧ data example_ok = Some d)
  ∧ (processLink env id example_url w).1 = Ok tt
  ∧ events w' = events w ++ [EvCacheRead] ++ failedAttempts example_url 0 1
                ++ [EvFetch example_url; EvCacheWrite cache]
  ∧ netCalls w' = (2 + netCalls w)%nat
  ∧ JsMap.get id (highlights w')
    = with_state (doneState example_url d) <$> JsMap.get id (highlights w)
  ∧ contextCache w' = Some cache.
Proof.
  assert (Hfail : ∀ k, (k < 1)%nat →
            is_Some (failure (net flaky
              (netCalls (updateHighlights (initial example_surface)) + k)))).
  { intros k Hk. replace k with 0%nat by lia. by eexists. }
  split; [repeat split; (done || lia) |].
  apply (X7_success_after_failures flaky _ example_url
           (updateHighlights (initial example_surface)) 1 example_ok);
    [done | done | done | lia | exact Hfail | done | done | done].
Defined.

(** X8: when the response reports success but the write of the [done]
    state to the cache is rejected, the attempt counts as failed although
    the highlight has been set to [done]: [processLink] waits and calls
    the collaborator again, and it is the second response that ends up on
    the highlight and in the cache. *)
Theorem X8_rejected_write_refetches (env : Env) (id url : jsstring)
    (w : World) (r r' : Response) (d d' : ResponseData) (e : JsError) :
  storageFault env (storageOps w) = None →
  default ∅ (contextCache w) !! url = None →
  net env (netCalls w) = Answered (Some r) →
  success r = true → data r = Some d →
  storageFault env (S (storageOps w)) = Some e →
  net env (S (netCalls w)) = Answered (Some r') →
  success r' = true → data r' = Some d' →
  storageFault env (S (S (storageOps w))) = None →
  let cache := <[url:=doneState url d']> (default ∅ (contextCache w)) in
  let w' := (processLink env id url w).2 in
  (processLink env id url w).1 = Ok tt
  ∧ events w' = events w ++ [EvCacheRead; EvFetch url; EvDelay 1000;
                             EvFetch url; EvCacheWrite cache]
  ∧ netCalls w' = (2 + netCalls w)%nat
  ∧ JsMap.get id (highlights w')
    = with_state (doneState url d') <$> JsMap.get id (highlights w)
  ∧ contextCache w' = Some cache.
Proof.
  intros Hs0 Hmiss Hnet Hok Hd Hs1 Hnet' Hok' Hd' Hs2 cache w'. subst w' cache.
  unfold processLink, mbind, M_bind.
  destruct (getValue_ok env w Hs0) as (Hr0 & (He0 & Hn0 & Ho0) & Hhl0 & Hc0).
  destruct (getValue env w) as [r0 w0]. cbn [fst snd] in *. subst r0.
  rewrite Hmiss, attemptLoop_S. unfold mbind, M_bind.
  destruct (attemptOnce_write_fault env id url (default ∅ (contextCache w)) 0 w0 r d e)
    as (Hr1 & (He1 & Hn1 & Ho1) & Hg1 & Hc1);
    [by rewrite Hn0 | done | done | by rewrite Ho0 | done |].
  destruct (attemptOnce env id url _ 0 w0) as [r1 w1]. cbn [fst snd] in *. subst r1.
  rewrite attemptLoop_S. unfold mbind, M_bind.
  destruct (attemptOnce_done env id url (default ∅ (contextCache w)) (0 + 1) w1 r' d')
    as (Hr2 & (He2 & Hn2 & Ho2) & Hg2 & Hc2);
    [by rewrite Hn1, Hn0 | done | done | by rewrite Ho1, Ho0 |].
  destruct (attemptOnce env id url _ (0 + 1) w1) as [r2 w2]. cbn [fst snd] in *. subst r2.
  cbn [mret M_ret fst snd].
  split; [done |]. split; [by rewrite He2, He1, He0, <- !(assoc_L (++)) |].
  split; [rewrite Hn2, Hn1, Hn0; lia |].
  split; [| done]. rewrite Hg2, Hg1, Hhl0. by destruct (JsMap.get id (highlights w)).
Qed.

Lemma X8_rejected_write_refetches_witness :
  let env := write_faulty in
  let w := updateHighlights (initial example_surface) in
  let id := generateId (js "@link https://example.com") in
  let d := {| markdown := js "Example body"; data_metadata := None;
              originalData := None |} in
  let cache := <[example_url:=doneState example_url d]>
                 (default ∅ (contextCache w)) in
  let w' := (processLink env id example_url w).2 in
  (storageFault env (storageOps w) = None
   ∧ default ∅ (contextCache w) !! example_url = None
   ∧ net env (netCalls w) = Answered (Some example_ok)
   ∧ success example_ok = true ∧ data example_ok = Some d
   ∧ storageFault env (S (storageOps w)) = Some {| message := js "quota" |}
   ∧ net env (S (netCalls w)) = Answered (Some example_ok)
   ∧ storageFault env (S (S (storageOps w))) = None)
  ∧ (processLink env id example_url w).1 = Ok tt
  ∧ events w' = events w ++ [EvCacheRead; EvFetch example_url; EvDelay 1000;
                             EvFetch example_url; EvCacheWrite cache]
  ∧ netCalls w' = (2 + netCalls w)%nat
  ∧ JsMap.get id (highlights w')
    = with_state (doneState example_url d) <$> JsMap.get id (highlights w)
  ∧ contextCache w' = Some cache.
Proof.
  split; [by repeat split |].
  by apply (X8_rejected_write_refetches write_faulty _ example_url
              (updateHighlights (initial example_surface))
              example_ok example_ok
              {| markdown := js "Example body"; data_metadata := None;
                 originalData := None |}
              {| markdown := js "Example body"; data_metadata := None;
                 originalData := None |}
              {| message := js "quota" |}).
Defined.

(** X9: after the options page cleared the cache, a URL that was cached
    is fetched again: [processLink] calls the collaborator, and the cache
    then holds the new state of that URL and nothing else. The live
    highlights are not touched by the clearing. *)
Theorem X9_cleared_cache_refetches (env : Env) (id url : jsstring)
    (page : OptionsPage.Page) (w : World) (r : Response) (d : ResponseData) :
  storageFault env (storageOps w) = None →
  storageFault env (S (storageOps w)) = None →
  net env (netCalls w) = Answered (Some r) →
  success r = true → data r = Some d →
  let w1 := (OptionsPage.clearCache page w).2 in
  let w' := (processLink env id url w1).2 in
  highlights w1 = highlights w
  ∧ (processLink env id url w1).1 = Ok tt
  ∧ events w' = events w ++ [EvCacheRead; EvFetch url;
                             EvCacheWrite {[ url := doneState url d ]}]
  ∧ contextCache w' = Some {[ url := doneState url d ]}.
Proof.
  intros Hs0 Hs1 Hnet Hok Hd w1 w'. subst w' w1. cbn [OptionsPage.clearCache snd].
  split; [done |].
  set (w1 := set_contextCache (Some ∅) w).
  unfold processLink, mbind, M_bind.
  destruct (getValue_ok env w1 Hs0) as (Hr0 & (He0 & Hn0 & Ho0) & Hhl0 & Hc0).
  destruct (getValue env w1) as [r0 w0]. cbn [fst snd] in *. subst r0.
  change (default ∅ (contextCache w1)) with (∅ : gmap jsstring LinkState).
  rewrite lookup_empty.
  destruct (attemptLoop_first_success env id url ∅ r d 0 3 0 w0)
    as (Hr & (He & Hnc & _) & Hg & Hc);
    [lia | lia | intros k Hk; lia | by rewrite Hn0, Nat.add_0_r | done | done
    | by rewrite Ho0 |].
  split; [done |]. rewrite insert_empty in He, Hc.
  split; [| done]. rewrite He, He0. cbn [failedAttempts app].
  by rewrite <- (assoc_L (++)).
Qed.

Lemma X9_cleared_cache_refetches_witness :
  let env := answering example_ok in
  let w := cached_world in
  let id := generateId (js "@link https://example.com") in
  let d := {| markdown := js "Example body"; data_metadata := None;
              originalData := None |} in
  let w1 := (OptionsPage.clearCache OptionsPage.mount w).2 in
  let w' := (processLink env id example_url w1).2 in
  (storageFault env (storageOps w) = None
   ∧ storageFault env (S (storageOps w)) = None
   ∧ net env (netCalls w) = Answered (Some example_ok)
   ∧ success example_ok = true ∧ data example_ok = Some d)
  ∧ highlights w1 = highlights w
  ∧ (processLink env id example_url w1).1 = Ok tt
  ∧ events w' = events w ++ [EvCacheRead; EvFetch example_url;
                             EvCacheWrite {[ example_url := doneState example_url d ]}]
  ∧ contextCache w' = Some {[ example_url := doneState example_url d ]}.
Proof.
  split; [by repeat split |].
  by apply (X9_cleared_cache_refetches (answering example_ok) _ example_url
              OptionsPage.mount cached_world example_ok).
Defined.

(** ** Reconciliation again *)




(** ** The scan for mentions, again *)

Lemma exec_plus_last k cap s r :
  exec_at [Atom k Plus] cap s = Some r → stops k r.2.
Proof.
  cbn [exec_at]. revert r. induction s as [|c s IH]; intros r; [done |].
  destruct (cls_test k c) eqn:Hc; [| done].
  match goal with |- context [match ?x with Some _ => _ | None => _ end] =>
    destruct x as [r'|] eqn:Hp end.
  - intros [= <-]. by apply IH.
  - intros [= <-]. cbn [snd]. destruct s as [|c' s]; [done |].
    cbn. destruct (cls_test k c') eqn:Hc'; [| done].
    exfalso. clear IH. cbn in Hp. rewrite ?Hc' in Hp.
    match type of Hp with match ?x with Some _ => _ | None => _ end = _ =>
      by destruct x end.
Qed.

Lemma exec_URL_REGEX_stops s cap rest :
  exec_at URL_REGEX None s = Some (cap, rest) → stops CNotSpace rest.
Proof.
  unfold URL_REGEX, lit.
  intros (s1 & -> & H)%exec_lit.
  apply exec_plus in H as (ws & s2 & -> & Hws & Hsp & H).
  apply exec_open in H.
  apply exec_lit in H as (s3 & -> & H).
  apply exec_opt in H as (o & Ho & s4 & -> & H).
  apply exec_lit in H as (s5 & -> & H).
  by apply exec_plus_last in H.
Qed.

Lemma match_here_stops s m u :
  match_here s = Some (m, u) → ∃ rest, s = m ++ rest ∧ stops CNotSpace rest.
Proof.
  unfold match_here.
  destruct (exec_at URL_REGEX None s) as [[[g|] rest]|] eqn:He; try done.
  pose proof (exec_URL_REGEX_stops _ _ _ He) as Hstop.
  apply exec_URL_REGEX in He as (ws & u' & -> & [= ->] & _).
  rewrite !take_suffix. intros [= <- <-]. by exists rest.
Qed.

Lemma match_here_head s m u :
  match_here s = Some (m, u) → ∃ t, m = 64 :: t.
Proof.
  intros (ws & rest & _ & -> & _)%match_here_sound. by eexists.
Qed.

Lemma match_here_no_at c s : c ≠ 64 → match_here (c :: s) = None.
Proof.
  intros Hc. unfold match_here, URL_REGEX, lit. cbn.
  by rewrite bool_decide_eq_false_2 by (by intros ?).
Qed.

(** Where the scan finds a match, and what it leaves after it. *)
Lemma scan_located skip pos s m :
  m ∈ scan skip pos s →
  ∃ pre post, s = pre ++ m0 m ++ post ∧ index m = (pos + length pre)%nat
    ∧ (skip ≤ length pre)%nat ∧ stops CNotSpace post
    ∧ ∃ t, m0 m = 64 :: t.
Proof.
  revert skip pos; induction s as [|c s IH]; intros skip pos; simpl;
    [by intros ?%elem_of_nil |].
  assert (Hrec : ∀ k, (pred skip ≤ k)%nat → m ∈ scan k (S pos) s →
    ∃ pre post, c :: s = pre ++ m0 m ++ post ∧ index m = (pos + length pre)%nat
      ∧ (skip ≤ length pre)%nat ∧ stops CNotSpace post ∧ ∃ t, m0 m = 64 :: t).
  { intros k Hk (pre & post & -> & Hi & Hsk & Hst & Ht)%IH. exists (c :: pre), post.
    split; [done |]. split; [simpl; lia |]. split; [simpl; lia | done]. }
  destruct skip as [|k]; [| apply Hrec; simpl; lia].
  destruct (match_here (c :: s)) as [[m' u']|] eqn:Hm; [| apply Hrec; simpl; lia].
  intros [-> | H]%elem_of_cons; [| eapply Hrec; [| exact H]; simpl; lia].
  simpl. destruct (match_here_stops _ _ _ Hm) as (rest & Hs & Hstop).
  exists [], rest. rewrite <- Hs. split; [done |]. split; [simpl; lia |].
  split; [simpl; lia |]. split; [done |]. by eapply match_here_head.
Qed.

Lemma scan_ordered s : ∀ skip pos i m m',
  scan skip pos s !! i = Some m → scan skip pos s !! S i = Some m' →
  (index m + length (m0 m) ≤ index m')%nat.
Proof.
  induction s as [|c s IH]; intros skip pos i m m'; simpl; [done |].
  destruct skip as [|k]; [| apply IH].
  destruct (match_here (c :: s)) as [[m1' u']|] eqn:Hm; [| apply IH].
  destruct i as [|i]; [| apply IH].
  cbn [lookup list_lookup]. intros [= <-] Hnext. cbn [index m0].
  apply list_elem_of_lookup_2, scan_located in Hnext
    as (pre & post & _ & -> & Hsk & _).
  destruct (match_here_head _ _ _ Hm) as [t ->]. cbn [length pred] in *. lia.
Qed.

(** X11: every match of the scan lies in the text at its index; its URL
    runs up to the next whitespace character or to the end of the text;
    and the matches come in the order of the text, each one beginning
    after the end of the one before. *)
Theorem X11_matches_in_text (text : jsstring) :
  Forall (λ m,
    take (length (m0 m)) (drop (index m) text) = m0 m
    ∧ ∀ c, text !! (index m + length (m0 m))%nat = Some c → is_space c = true)
    (matchAll text)
  ∧ ∀ i m m', matchAll text !! i = Some m → matchAll text !! S i = Some m' →
      (index m + length (m0 m) < index m')%nat.
Proof.
  assert (Hloc : ∀ m, m ∈ matchAll text →
    take (length (m0 m)) (drop (index m) text) = m0 m
    ∧ (∀ c, text !! (index m + length (m0 m))%nat = Some c → is_space c = true)
    ∧ text !! index m = Some 64).
  { intros m (pre & post & -> & -> & _ & Hstop & t & Ht)%scan_located.
    cbn [Nat.add]. split; [| split].
    - by rewrite drop_app_length, take_app_length.
    - intros c. unfold jsstring in *.
      rewrite (assoc_L (++)), lookup_app_r by (rewrite length_app; lia).
      rewrite length_app, Nat.sub_diag. destruct post as [|c' post]; [done |].
      cbn. intros [= <-]. cbn in Hstop. by apply negb_false_iff in Hstop.
    - unfold jsstring in *. rewrite lookup_app_r by lia.
      rewrite Nat.sub_diag, Ht. done. }
  split.
  - apply Forall_forall. intros m Hm. destruct (Hloc m Hm) as (H1 & H2 & _). by split.
  - intros i m m' Hi Hi'.
    pose proof (scan_ordered text 0 0 i m m' Hi Hi') as Hle.
    destruct (decide (index m + length (m0 m) = index m')%nat) as [Heq|]; [| lia].
    exfalso.
    destruct (Hloc m (list_elem_of_lookup_2 _ _ _ Hi)) as (_ & Hsp & _).
    destruct (Hloc m' (list_elem_of_lookup_2 _ _ _ Hi')) as (_ & _ & Hat).
    rewrite <- Heq in Hat. by apply Hsp in Hat.
Qed.

Lemma scan_no_at pre s : ∀ pos,
  64 ∉ pre → scan 0 pos (pre ++ s) = scan 0 (pos + length pre) s.
Proof.
  induction pre as [|c pre IH]; intros pos Hpre; [by rewrite Nat.add_0_r |].
  apply not_elem_of_cons in Hpre as [Hc Hpre].
  cbn [app scan]. rewrite match_here_no_at by done. rewrite IH by done.
  f_equal. simpl. lia.
Qed.

Lemma scan_skip a s : ∀ pos,
  scan (length a) pos (a ++ s) = scan 0 (pos + length a) s.
Proof.
  induction a as [|c a IH]; intros pos; [by rewrite Nat.add_0_r |].
  cbn [app scan length]. rewrite IH. f_equal. lia.
Qed.

Lemma scan_shifted n s : ∀ skip pos,
  scan skip (n + pos) s = shifted n <$> scan skip pos s.
Proof.
  induction s as [|c s IH]; intros skip pos; [done |]. cbn [scan].
  rewrite <- !Nat.add_succ_r.
  destruct skip as [|k]; [| apply IH].
  destruct (match_here (c :: s)) as [[m u]|]; [| apply IH].
  rewrite fmap_cons. f_equal. apply IH.
Qed.

Lemma scan_match m u c tl rest pos :
  m = c :: tl → match_here (m ++ rest) = Some (m, u) →
  scan 0 pos (m ++ rest)
  = {| m0 := m; m1 := u; index := pos |} :: scan 0 (pos + length m) rest.
Proof.
  intros -> Hm. cbn [app scan] in *. rewrite Hm. f_equal.
  cbn [length pred]. rewrite scan_skip. f_equal. lia.
Qed.

(** X12: a mention of the shape the pattern asks for, in a text without
    ["@"] before it and with whitespace or nothing after it, is the first
    match of the scan, whole and at its place; the matches after it are
    those of the rest of the text, moved to their place. *)
Theorem X12_mention_is_matched (pre ws u rest : jsstring) :
  64 ∉ pre → ws ≠ [] → Forall (λ c, is_space c = true) ws → is_url u →
  stops CNotSpace rest →
  let mention := js "@link" ++ ws ++ u in
  matchAll (pre ++ mention ++ rest)
  = {| m0 := mention; m1 := u; index := length pre |}
    :: (shifted (length pre + length mention) <$> matchAll rest).
Proof.
  intros Hpre Hws Hsp Hu Hrest mention. unfold matchAll.
  rewrite scan_no_at by done. cbn [Nat.add].
  pose proof (match_here_complete ws u rest Hws Hsp Hu Hrest) as Hm.
  assert (Hassoc : js "@link" ++ ws ++ u ++ rest = mention ++ rest)
    by (unfold mention; by rewrite <- !(assoc_L (++))).
  rewrite Hassoc in Hm.
  rewrite (scan_match mention u 64 (js "link" ++ ws ++ u) rest (length pre) eq_refl Hm).
  f_equal. etrans; [| apply (scan_shifted (length pre + length mention) rest 0 0)].
  by rewrite Nat.add_0_r.
Qed.

Lemma X12_mention_is_matched_witness :
  let pre' := js "see " in
  let ws := js "  " in
  let u := js "https://example.com" in
  let rest := js " now" in
  let mention := js "@link" ++ ws ++ u in
  ((64 ∉ pre') ∧ ws ≠ [] ∧ Forall (λ c, is_space c = true) ws ∧ is_url u
   ∧ stops CNotSpace rest)
  ∧ matchAll (pre' ++ mention ++ rest)
    = {| m0 := mention; m1 := u; index := length pre' |}
      :: (shifted (length pre' + length mention) <$> matchAll rest).
Proof.
  assert (Hpre : 64 ∉ js "see ")
    by (apply (bool_decide_unpack _); by vm_compute).
  assert (Hsp : Forall (λ c, is_space c = true) (js "  "))
    by (by repeat constructor).
  assert (Hu : is_url (js "https://example.com")).
  { exists [115], (js "example.com"). split; [done |]. split; [by right |].
    split; [done |]. by repeat constructor. }
  split; [by repeat split |].
  by apply (X12_mention_is_matched (js "see ") (js "  ")
              (js "https://example.com") (js " now")).
Defined.

(** ** The listeners *)

Lemma handleSubmitAttempt_unfold env triggerType w :
  handleSubmitAttempt env triggerType w
  = if isProcessing w then (Ok tt, w)
    else tryCatchFinally (submission env triggerType)
           (λ error,
              lift (showErrorMessage
                      (js "An error occurred while processing your submission.")))
           (lift hideLoadingIndicator;;
            lift (set_isProcessing false);;
            lift (set_shouldBypassInterception false))
           (set_isProcessing true w).
Proof. done. Qed.

Lemma handleSubmitAttempt_busy env triggerType w :
  isProcessing w = true → handleSubmitAttempt env triggerType w = (Ok tt, w).
Proof. intros Hp. rewrite handleSubmitAttempt_unfold. by rewrite Hp. Qed.


Lemma triple_during {A} env s P (m : M A) (Q : A → World → Prop) E :
  triple P m Q E → (∀ a e w, Q a w → E e w) → triple P (during env s m) Q E.
Proof.
  intros Hm HQE w HP. unfold during, mbind, M_bind. specialize (Hm w HP).
  destruct (m w) as [[a|e] w1]; [| done].
  destruct (stepFault env s); [by eapply HQE | done].
Qed.












Lemma keyInterception_spec env event w :
  keyInterception env event w
  = if negb (shouldBypassInterception w)
       && (bool_decide (key event = js "Enter") && negb (shiftKey event))
       && (bool_decide (is_Some (inputDiv w)) && activeInInput event)
    then (Ok true, (handleSubmitAttempt env enter w).2)
    else (Ok false, w).
Proof.
  unfold keyInterception, mbind, M_bind, detached.
  destruct (shouldBypassInterception w); [done |].
  destruct (bool_decide (key event = js "Enter") && negb (shiftKey event)); [| done].
  by destruct (bool_decide (is_Some (inputDiv w)) && activeInInput event).
Qed.

Lemma keydown_spec env event w :
  keydown env event w
  = if negb (shouldBypassInterception w)
       && (bool_decide (key event = js "Enter") && negb (shiftKey event))
       && (bool_decide (is_Some (inputDiv w)) && activeInInput event)
    then (Ok true, (handleSubmitAttempt env enter w).2)
    else if bool_decide (key event = js " ") || bool_decide (key event = js "Enter")
    then (Ok false, (processPendingLinks env w).2)
    else (Ok false, w).
Proof.
  unfold keydown, mbind, M_bind. rewrite keyInterception_spec.
  destruct (negb (shouldBypassInterception w)
            && (bool_decide (key event = js "Enter") && negb (shiftKey event))
            && (bool_decide (is_Some (inputDiv w)) && activeInInput event));
    [done |].
  unfold keyListener, detached.
  by destruct (bool_decide (key event = js " ") || bool_decide (key event = js "Enter")).
Qed.


(** X13: the two flags decide what happens to a send gesture. While the
    bypass flag is set, neither listener intercepts: the default action of
    the event is not prevented, and a click changes nothing. While the
    flag is clear and a submission is being processed, an Enter in the
    editable surface and a click on the send button are swallowed: the
    default action is prevented, and nothing else happens. *)
Theorem X13_send_gesture_flags (env : Env) (event : KeyboardEvent)
    (onSubmitButton : bool) (w : World) :
  (shouldBypassInterception w = true →
     (keydown env event w).1 = Ok false
     ∧ guardState (keydown env event w).2 = guardState w
     ∧ buttonInterception env onSubmitButton w = (Ok false, w))
  ∧ (shouldBypassInterception w = false → guardState w = Processing →
     (key event = js "Enter" → shiftKey event = false →
      is_Some (inputDiv w) → activeInInput event = true →
      keydown env event w = (Ok true, w))
     ∧ buttonInterception env true w = (Ok true, w)).
Proof.
  split.
  - intros Hb. rewrite keydown_spec, Hb. cbn [negb andb].
    split; [| split].
    + by destruct (_ || _).
    + destruct (_ || _); [| done]. cbn [snd].
      destruct (processPendingLinks_footprint env w) as ((Hi & _) & _).
      unfold guardState. by rewrite Hi.
    + unfold buttonInterception. by rewrite Hb.
  - intros Hb Hg.
    assert (Hp : isProcessing w = true)
      by (unfold guardState in Hg; by destruct (isProcessing w)).
    split.
    + intros Hk Hs Hin Ha. rewrite keydown_spec.
      rewrite Hb, Hs, Ha, (bool_decide_eq_true_2 _ Hk), (bool_decide_eq_true_2 _ Hin).
      cbn [andb negb]. by rewrite handleSubmitAttempt_busy.
    + unfold buttonInterception, mbind, M_bind, detached. rewrite Hb.
      by rewrite handleSubmitAttempt_busy.
Qed.

Lemma X13_send_gesture_flags_witness :
  let event := {| key := js "Enter"; shiftKey := false; activeInInput := true |} in
  let w := set_isProcessing true (updateHighlights (initial example_surface)) in
  (shouldBypassInterception w = false ∧ guardState w = Processing
   ∧ key event = js "Enter" ∧ shiftKey event = false
   ∧ is_Some (inputDiv w) ∧ activeInInput event = true)
  ∧ keydown (answering example_ok) event w = (Ok true, w)
  ∧ buttonInterception (answering example_ok) true w = (Ok true, w).
Proof.
  set (event := {| key := js "Enter"; shiftKey := false; activeInInput := true |}).
  set (w := set_isProcessing true (updateHighlights (initial example_surface))).
  assert (Hin : is_Some (inputDiv w)) by (by eexists).
  split; [by repeat split |].
  destruct (X13_send_gesture_flags (answering example_ok) event true w)
    as [_ Hbusy].
  destruct (Hbusy eq_refl eq_refl) as [Hkey Hclick].
  split; [by apply Hkey | exact Hclick].
Defined.





(** ** The submission sequence and the page *)

Lemma quiet_refl w : quiet w w.
Proof.
  split; [done |]. split; [done |]. exists []. by rewrite app_nil_r.
Qed.

Lemma quiet_events w0 w w' evs :
  submitButton w' = submitButton w →
  (is_Some (inputDiv w') ↔ is_Some (inputDiv w)) →
  events w' = events w ++ evs →
  nativeSubmissions evs = [] → errorMessages evs = [] →
  quiet w0 w → quiet w0 w'.
Proof.
  intros Hb Hi He Hn Hm (Hb0 & Hi0 & evs0 & He0 & Hn0 & Hm0).
  split; [congruence |]. split; [by rewrite Hi |].
  exists (evs0 ++ evs). rewrite He, He0, (assoc_L (++)).
  split; [done |]. unfold nativeSubmissions, errorMessages in *.
  by rewrite !omap_app, Hn, Hm, Hn0, Hm0.
Qed.

Lemma hostEvent_quiet urls evs :
  Forall (hostEvent urls) evs →
  nativeSubmissions evs = [] ∧ errorMessages evs = [].
Proof.
  induction 1 as [|e evs He _ [IH1 IH2]]; [done |].
  by destruct e.
Qed.

Lemma injectContext_quiet env w0 w :
  quiet w0 w → quiet w0 (injectContext env w).2.
Proof.
  intros Hq. unfold injectContext. destruct (inputDiv w) as [content|]; [| done].
  assert (H : ∀ hs acc, quiet w0 acc.1 →
                quiet w0 (foldl (injectOne env content) acc hs).1).
  { induction hs as [|h hs IH]; intros [w1 b] H1; [done |]. cbn [foldl].
    apply IH. unfold injectOne.
    destruct (bool_decide (status (state h) = Done) && truthy (context (state h))
              && includes content (js "@link " ++ url (state h))); [| done].
    cbn [fst] in *.
    set (w2 := set_inputDiv _ w1).
    assert (H2 : quiet w0 w2).
    { apply (quiet_events w0 w1 w2 []); try done.
      - subst w2. cbn [inputDiv set_inputDiv]. apply fmap_is_Some.
      - by rewrite app_nil_r. }
    destruct (truthy (screenshot (state h))); [| done].
    unfold pasteImageFromUrl. destruct (image env _); [| done |].
    + by apply (quiet_events w0 w2 _ [EvImageUpload (default [] (screenshot (state h)))]).
    + by apply (quiet_events w0 w2 _ [EvImageFallback (default [] (screenshot (state h)))]). }
  specialize (H (JsMap.values (highlights w)) (w, false) Hq).
  by destruct (foldl (injectOne env content) (w, false) (JsMap.values (highlights w))).
Qed.

Lemma triple_untilTrigger env w0 :
  triple (quiet w0) (untilTrigger env) (λ _, quiet w0) (λ _, quiet w0).
Proof.
  unfold untilTrigger.
  apply (triple_bind _ _ _ (λ _, quiet w0)).
  { apply triple_during; [| done]. intros w Hq. cbn.
    apply (quiet_events w0 w _ []); try done;
      unfold showLoadingIndicator; destruct (loadingIndicator w);
      by rewrite ?app_nil_r. }
  intros ?. apply (triple_bind _ _ _ (λ _, quiet w0)).
  { apply triple_during; [| done]. intros w Hq.
    destruct (processPendingLinks_footprint env w)
      as ((_ & _ & Hi & _ & Hb & _ & _ & evs & He & Hf) & _).
    destruct (hostEvent_quiet _ _ Hf) as [Hn Hm].
    assert (H : quiet w0 (processPendingLinks env w).2)
      by (apply (quiet_events w0 w _ evs); try done; by rewrite Hi).
    by destruct (processPendingLinks env w) as [[[]|e] w1]. }
  intros ?. apply (triple_bind _ _ _ (λ _, quiet w0)).
  { apply triple_during; [| done]. intros w Hq.
    pose proof (injectContext_quiet env w0 w Hq).
    by destruct (injectContext env w) as [[?|?] ?]. }
  intros ? w Hq. cbn. apply (quiet_events w0 w _ []); try done.
  by rewrite app_nil_r.
Qed.

Lemma submission_split env triggerType w :
  submission env triggerType w
  = (untilTrigger env;;
     during env StepTrigger (lift (triggerNativeSubmission triggerType));;
     during env StepSettle (delay 1000)) w.
Proof.
  unfold submission, untilTrigger, mbind, M_bind.
  destruct (during env StepShow (lift showLoadingIndicator) w) as [[[]|?] w1];
    [| done].
  destruct (during env StepProcess (processPendingLinks env) w1) as [[[]|?] w2];
    [| done].
  by destruct (during env StepInject (injectContext env) w2) as [[?|?] w3].
Qed.

Lemma during_no_fault {A} env s (m : M A) w :
  stepFault env s = None → during env s m w = m w.
Proof.
  intros Hs. unfold during, mbind, M_bind. rewrite Hs.
  by destruct (m w) as [[?|?] ?].
Qed.

Lemma submission_no_fault env triggerType w :
  reliable env → (∀ s, stepFault env s = None) →
  (untilTrigger env w).1 = Ok tt ∧ (submission env triggerType w).1 = Ok tt.
Proof.
  intros Hr Hs.
  assert (Hok : ∀ w', (processPendingLinks env w').1 = Ok tt).
  { intros w'. destruct (processPendingLinks_footprint env w') as (_ & _ & _ & H).
    by apply H. }
  assert (Hu : (untilTrigger env w).1 = Ok tt).
  { unfold untilTrigger, mbind, M_bind. rewrite !during_no_fault by done.
    unfold lift. cbv beta iota. rewrite during_no_fault by done.
    specialize (Hok (showLoadingIndicator w)).
    destruct (processPendingLinks env (showLoadingIndicator w)) as [[[]|?] w1];
      [| done].
    rewrite during_no_fault by done.
    unfold injectContext, lift. destruct (inputDiv w1); [| done].
    by destruct (foldl _ _ _). }
  split; [done |]. rewrite submission_split. unfold mbind, M_bind.
  destruct (untilTrigger env w) as [[[]|?] w1]; [| done].
  rewrite !during_no_fault by done. unfold lift. cbv beta iota.
  by rewrite during_no_fault.
Qed.

Lemma triggerNativeSubmission_events triggerType w :
  events (triggerNativeSubmission triggerType w)
  = events w ++ (if dispatchable triggerType w
                 then [EvNativeSubmit triggerType] else []).
Proof.
  unfold triggerNativeSubmission, dispatchable.
  destruct (submitButton w), triggerType, (inputDiv w);
    cbn; by rewrite ?app_nil_r.
Qed.

Lemma dispatchable_quiet triggerType w0 w :
  quiet w0 w → dispatchable triggerType w = dispatchable triggerType w0.
Proof.
  intros (Hb & Hi & _). unfold dispatchable. rewrite Hb.
  destruct triggerType; [done |]. f_equal. by apply bool_decide_ext.
Qed.

Lemma submission_events env triggerType w :
  ∃ evs, events (submission env triggerType w).2 = events w ++ evs
    ∧ nativeSubmissions evs
      = (if completes (untilTrigger env w) && dispatchable triggerType w
         then [triggerType] else [])
    ∧ errorMessages evs = [].
Proof.
  rewrite submission_split. unfold mbind, M_bind, completes.
  pose proof (triple_untilTrigger env w w (quiet_refl w)) as Hq.
  destruct (untilTrigger env w) as [[[]|e] w2]; cbn [fst andb].
  - rewrite <- (dispatchable_quiet triggerType w w2 Hq).
    destruct Hq as (_ & _ & evs & He & Hn & Hm).
    pose proof (triggerNativeSubmission_events triggerType w2) as Ht.
    set (sent := if dispatchable triggerType w2
                 then [EvNativeSubmit triggerType] else []) in *.
    assert (Hs : nativeSubmissions sent
                 = (if dispatchable triggerType w2 then [triggerType] else [])
                 ∧ errorMessages sent = [])
      by (subst sent; by destruct (dispatchable triggerType w2)).
    clearbody sent. destruct Hs as [Hs1 Hs2].
    unfold during, mbind, M_bind, lift, delay, lift, throw, mret, M_ret.
    cbv beta iota. destruct (stepFault env StepTrigger).
    + exists (evs ++ sent). cbn [snd]. rewrite Ht, He, (assoc_L (++)).
      split; [done |]. unfold nativeSubmissions, errorMessages in *.
      by rewrite !omap_app, Hn, Hm, Hs1, Hs2.
    + exists (evs ++ sent ++ [EvDelay 1000]).
      assert (Hev : events (emit (EvDelay 1000)
                              (triggerNativeSubmission triggerType w2))
                    = events w ++ evs ++ sent ++ [EvDelay 1000]).
      { cbn [emit events set_events]. by rewrite Ht, He, <- !(assoc_L (++)). }
      split; [by destruct (stepFault env StepSettle) |].
      unfold nativeSubmissions, errorMessages in *.
      rewrite !omap_app, Hn, Hm, Hs1, Hs2. cbn. by rewrite app_nil_r.
  - destruct Hq as (_ & _ & evs & He & Hn & Hm). by exists evs.
Qed.

Lemma handleSubmitAttempt_events env triggerType w :
  isProcessing w = false →
  let whole := submission env triggerType (set_isProcessing true w) in
  events (handleSubmitAttempt env triggerType w).2
  = events whole.2
    ++ (if completes whole then []
        else [EvErrorMessage
                (js "An error occurred while processing your submission.")]).
Proof.
  intros Hp. rewrite handleSubmitAttempt_unfold, Hp.
  unfold tryCatchFinally, tryCatch, completes.
  destruct (submission env triggerType (set_isProcessing true w)) as [[[]|e] w1].
  - unfold mbind, M_bind, lift, hideLoadingIndicator. cbn [fst snd].
    rewrite app_nil_r. by destruct (loadingIndicator w1).
  - unfold mbind, M_bind, lift, showErrorMessage, hideLoadingIndicator.
    cbn [emit loadingIndicator set_events fst snd].
    by destruct (loadingIndicator w1).
Qed.

(** X24: a send gesture taken up while the guard is idle leads to at most
    one native submission and at most one error message. The gesture is
    dispatched exactly when the steps before it complete and the page has
    the send button (and, for Enter, the editable surface); the message is
    shown exactly when a step of the sequence faults, also when the fault
    comes after the gesture was dispatched. On a host without faults the
    steps complete: the gesture is dispatched once, or, on a page without
    the button, swallowed without a message. *)
Theorem X24_one_native_submission (env : Env) (triggerType : Trigger)
    (w : World) :
  isProcessing w = false →
  let before := untilTrigger env (set_isProcessing true w) in
  let whole := submission env triggerType (set_isProcessing true w) in
  (∃ evs,
     events (handleSubmitAttempt env triggerType w).2 = events w ++ evs
     ∧ nativeSubmissions evs
       = (if completes before && dispatchable triggerType w
          then [triggerType] else [])
     ∧ errorMessages evs
       = (if completes whole then []
          else [js "An error occurred while processing your submission."]))
  ∧ (completes whole = true → completes before = true)
  ∧ (reliable env → (∀ s, stepFault env s = None) → completes whole = true).
Proof.
  intros Hp before whole. subst before whole.
  set (w1 := set_isProcessing true w).
  split; [| split].
  2: { unfold completes. rewrite submission_split. unfold mbind, M_bind.
       by destruct (untilTrigger env w1) as [[[]|?] ?]. }
  2: { intros Hr Hs. unfold completes.
       destruct (submission_no_fault env triggerType w1 Hr Hs) as [_ ->]. done. }
  rewrite (handleSubmitAttempt_events env triggerType w Hp). fold w1.
  destruct (submission_events env triggerType w1) as (evs & He & Hn & Hm).
  set (shown := if completes (submission env triggerType w1) then []
                else [EvErrorMessage
                        (js "An error occurred while processing your submission.")]).
  exists (evs ++ shown). rewrite He, (assoc_L (++)). split; [done |].
  unfold nativeSubmissions, errorMessages in *.
  rewrite !omap_app, Hn, Hm. subst shown.
  destruct (completes (submission env triggerType w1)); cbn; by rewrite ?app_nil_r.
Qed.

Lemma X24_one_native_submission_witness :
  let w := updateHighlights (initial example_surface) in
  isProcessing w = false
  ∧ ∃ evs,
      events (handleSubmitAttempt late_fault enter w).2 = events w ++ evs
      ∧ nativeSubmissions evs = [enter]
      ∧ errorMessages evs
        = [js "An error occurred while processing your submission."].
Proof.
  split; [done |].
  destruct (X24_one_native_submission late_fault enter
              (updateHighlights (initial example_surface)) eq_refl)
    as [(evs & He & Hn & Hm) _].
  exists evs. split; [exact He |]. split; [exact Hn | exact Hm].
Defined.

(** ** The ids of the mentions *)

Lemma generateId_unit x y :
  (if is_word x then x else 95) = (if is_word y then y else 95)
  ↔ x = y ∨ (placeholder x = true ∧ placeholder y = true).
Proof.
  unfold placeholder.
  destruct (is_word x) eqn:Hx, (is_word y) eqn:Hy; cbn [negb orb].
  - split; [by left |]. intros [-> | [Hx' Hy']]; [done |].
    apply N.eqb_eq in Hx', Hy'. congruence.
  - split.
    + intros ->. by right.
    + intros [-> | [Hx' _]]; [congruence |]. by apply N.eqb_eq.
  - split.
    + intros <-. by right.
    + intros [-> | [_ Hy']]; [congruence |]. symmetry. by apply N.eqb_eq.
  - split; [by right | done].
Qed.

(** X25: two texts get the same id exactly when they have the same length
    and differ only where both have a code unit that is not a word
    character, or an underscore. An id holds word characters only, and
    [generateId] leaves a text as it is exactly when the text holds word
    characters only; so the id of an id is that id. *)
Theorem X25_id_collisions (a b : jsstring) :
  (generateId a = generateId b
   ↔ Forall2 (λ x y, x = y ∨ (placeholder x = true ∧ placeholder y = true)) a b)
  ∧ Forall (λ c, is_word c = true) (generateId a)
  ∧ (generateId a = a ↔ Forall (λ c, is_word c = true) a)
  ∧ generateId (generateId a) = generateId a.
Proof.
  assert (Hw : Forall (λ c, is_word c = true) (generateId a)).
  { unfold generateId. apply Forall_fmap, Forall_true. intros c. cbn.
    by destruct (is_word c) eqn:Hc. }
  assert (Hfix : ∀ t, generateId t = t ↔ Forall (λ c, is_word c = true) t).
  { induction t as [|c t IH]; [done |]. unfold generateId in *.
    rewrite fmap_cons, Forall_cons, <- IH. split.
    - intros [= Hc Ht]. split; [| done].
      destruct (is_word c) eqn:Hc'; [done |]. by subst c.
    - intros [Hc Ht]. by rewrite Hc, Ht. }
  split; [| split; [done | split; [done | by apply Hfix]]].
  clear Hw Hfix. revert b. induction a as [|x a IH]; intros [|y b].
  - done.
  - split; [done | by inversion 1].
  - split; [done | by inversion 1].
  - unfold generateId in *. rewrite !fmap_cons, Forall2_cons, <- IH.
    rewrite <- generateId_unit. split; [by intros [= ? ?] | by intros [-> ->]].
Qed.

(** ** The background script *)

Section background_props.
Import Background.

(** The request [scrapeUrl] makes with the options [o]. *)
Lemma scrapeUrl_with_client host url s client :
  app s = Some client →
  let s1 := set_requests (requests s ++ [requestFor client url (options s)]) s in
  scrapeUrl host url s
  = match api host (length (requests s)) with
    | ApiThrows e =>
        (Ok {| success := false; data := None;
               resp_error := Some (message e) |}, s1)
    | ApiAnswers response =>
        if sr_success response then
          (Ok {| success := true; data := Some (processResponse response);
                 resp_error := None |}, s1)
        else
          (Ok {| success := false; data := None;
                 resp_error :=
                   Some (if truthy (sr_error response)
                         then default [] (sr_error response)
                         else js "Scraping failed") |}, s1)
    end.
Proof.
  intros Happ s1. subst s1. unfold requestFor.
  unfold scrapeUrl, tryCatch, mbind, M_bind, getApp. rewrite Happ.
  unfold callClient.
  destruct (captureScreenshot (options s)), (extractSchema (options s));
    cbn [push alter list_alter lookup list_lookup default app
         with_extract formats onlyMainContent timeout extract];
    destruct (api host (length (requests s))) as [e|response]; try done;
    by destruct (sr_success response).
Qed.

(** What [getApp] does when no client exists yet. *)
Lemma getApp_fresh host s :
  app s = None →
  (FirecrawlApp s = true ∨ importFault host (imports s) = None) →
  readFault host (reads s) = None →
  ∃ s1,
    requests s1 = requests s ∧ options s1 = options s
    ∧ app s1 = None
    ∧ getApp host s
      = if truthy (firecrawlKeyStorage s)
        then (Ok (default [] (firecrawlKeyStorage s)),
              set_app (Some (default [] (firecrawlKeyStorage s))) s1)
        else (Throw {| message := js "Firecrawl API key not found" |}, s1).
Proof.
  intros Happ Himp Hread. unfold getApp. rewrite Happ.
  cbv beta delta [mbind M_bind getApiKey getValue importModule lift mret M_ret throw].
  destruct (FirecrawlApp s) eqn:Hf.
  - cbv beta iota. rewrite Hread.
    exists (set_reads (S (reads s)) s). split; [done |]. split; [done |].
    split; [done |]. cbv beta iota zeta.
    by destruct (truthy (firecrawlKeyStorage s)).
  - destruct Himp as [? | Himp]; [done |]. cbv beta iota. rewrite Himp.
    cbn [reads set_imports set_FirecrawlApp]. rewrite Hread.
    cbn [firecrawlKeyStorage set_reads set_imports set_FirecrawlApp].
    eexists. split; [| split; [| split; [| cbv beta iota zeta; by destruct (truthy (firecrawlKeyStorage s))]]];
      done.
Qed.

Lemma scrapeUrl_after_getApp host url s client s2 :
  getApp host s = (Ok client, s2) → app s2 = Some client →
  scrapeUrl host url s = scrapeUrl host url s2.
Proof.
  intros Hget Happ.
  assert (Hget2 : getApp host s2 = (Ok client, s2))
    by (unfold getApp; by rewrite Happ).
  unfold scrapeUrl, tryCatch. unfold mbind at 1 3. unfold M_bind at 1 3.
  by rewrite Hget, Hget2.
Qed.

End background_props.

(** X16: [scrapeUrl] never rejects: whatever the storage holds and
    whatever the import and the client do, it resolves to a response. A
    response that reports success carries data, and the content script
    takes it as a success; a response that reports failure carries the
    message of the fault and no data, and the content script's attempt then
    fails with the message ["Unknown error"], whatever the message was. *)
Theorem X16_scrape_always_answers (host : Background.Host) (url : jsstring)
    (s : Background.State) :
  ∃ r, (Background.scrapeUrl host url s).1 = Ok r
    ∧ (success r = true →
       is_Some (data r) ∧ resp_error r = None
       ∧ failure (Answered (Some r)) = None)
    ∧ (success r = false →
       data r = None ∧ is_Some (resp_error r)
       ∧ failure (Answered (Some r)) = Some unknown_error).
Proof.
  assert (Hfail : ∀ msg (s' : Background.State),
    ∃ r, (Ok {| success := false; data := None; resp_error := Some msg |}, s').1
         = @Ok Response r
      ∧ (success r = true →
         is_Some (data r) ∧ resp_error r = None
         ∧ failure (Answered (Some r)) = None)
      ∧ (success r = false →
         data r = None ∧ is_Some (resp_error r)
         ∧ failure (Answered (Some r)) = Some unknown_error)).
  { intros msg s'. eexists. split; [done |]. split; [done |]. intros _.
    split; [done |]. split; [by eexists | done]. }
  unfold Background.scrapeUrl, Background.tryCatch.
  unfold mbind at 1. unfold Background.M_bind at 1.
  destruct (Background.getApp host s) as [[client|e] s1]; [| apply Hfail].
  unfold mbind, Background.M_bind, Background.callClient.
  destruct (Background.captureScreenshot (Background.options s1)),
    (Background.extractSchema (Background.options s1));
    cbn [fst snd];
    destruct (Background.api host (length (Background.requests s1)))
      as [e|response]; try apply Hfail;
    (destruct (Background.sr_success response); [| apply Hfail]);
    (eexists; split; [done |]; split; [| done]; intros _;
     split; [by eexists | done]).
Qed.

(** X17: when no API key is stored (or the stored key is empty) and no
    client exists yet, [scrapeUrl] answers the failure
    [{success: false, error: "Firecrawl API key not found"}] without
    calling the Firecrawl client, and no client is made: the next call
    looks for the key again. *)
Theorem X17_missing_key (host : Background.Host) (url : jsstring)
    (s : Background.State) :
  Background.app s = None →
  truthy (Background.firecrawlKeyStorage s) = false →
  Background.FirecrawlApp s = true
  ∨ Background.importFault host (Background.imports s) = None →
  Background.readFault host (Background.reads s) = None →
  let r := Background.scrapeUrl host url s in
  r.1 = Ok example_keyless
  ∧ Background.requests r.2 = Background.requests s
  ∧ Background.app r.2 = None.
Proof.
  intros Happ Hkey Himp Hread r. subst r.
  destruct (getApp_fresh host s Happ Himp Hread) as (s1 & Hreq & _ & Happ1 & Hget).
  rewrite Hkey in Hget.
  assert (Hrun : Background.scrapeUrl host url s = (Ok example_keyless, s1)).
  { unfold Background.scrapeUrl, Background.tryCatch.
    unfold mbind at 1. unfold Background.M_bind at 1. by rewrite Hget. }
  rewrite Hrun. by split.
Qed.

Lemma X17_missing_key_witness :
  let host := serving example_scrape in
  let s := Background.boot None None in
  let r := Background.scrapeUrl host example_url s in
  (Background.app s = None
   ∧ truthy (Background.firecrawlKeyStorage s) = false
   ∧ (Background.FirecrawlApp s = true
      ∨ Background.importFault host (Background.imports s) = None)
   ∧ Background.readFault host (Background.reads s) = None)
  ∧ r.1 = Ok example_keyless
  ∧ Background.requests r.2 = Background.requests s
  ∧ Background.app r.2 = None.
Proof.
  split; [split; [done | split; [done | split; [by right | done]]] |].
  apply (X17_missing_key (serving example_scrape) example_url
           (Background.boot None None)); [done | done | by right | done].
Defined.

(** X18: the first [scrapeUrl] of a background script that finds a key in
    the storage makes the client with that key and calls it with the
    URL. *)
Theorem X18_client_made_with_stored_key (host : Background.Host)
    (url key : jsstring) (s : Background.State) :
  Background.app s = None →
  Background.firecrawlKeyStorage s = Some key → key ≠ [] →
  Background.FirecrawlApp s = true
  ∨ Background.importFault host (Background.imports s) = None →
  Background.readFault host (Background.reads s) = None →
  let s' := (Background.scrapeUrl host url s).2 in
  Background.app s' = Some key
  ∧ Background.requests s'
    = Background.requests s ++ [requestFor key url (Background.options s)].
Proof.
  intros Happ Hkey Hne Himp Hread s'. subst s'.
  destruct (getApp_fresh host s Happ Himp Hread) as (s1 & Hreq & Hopt & Happ1 & Hget).
  rewrite Hkey in Hget.
  assert (Ht : truthy (Some key) = true) by (by destruct key).
  rewrite Ht in Hget. change (default [] (Some key)) with key in Hget.
  rewrite (scrapeUrl_after_getApp host url s key
             (Background.set_app (Some key) s1) Hget eq_refl).
  rewrite (scrapeUrl_with_client host url
             (Background.set_app (Some key) s1) key eq_refl).
  cbn [Background.requests Background.options Background.set_app].
  rewrite Hreq, Hopt.
  destruct (Background.api host _) as [e|response]; [done |].
  by destruct (Background.sr_success response).
Qed.

Lemma X18_client_made_with_stored_key_witness :
  let host := serving example_scrape in
  let key := js "fc-key" in
  let s := Background.boot None (Some key) in
  let s' := (Background.scrapeUrl host example_url s).2 in
  (Background.app s = None
   ∧ Background.firecrawlKeyStorage s = Some key ∧ key ≠ []
   ∧ (Background.FirecrawlApp s = true
      ∨ Background.importFault host (Background.imports s) = None)
   ∧ Background.readFault host (Background.reads s) = None)
  ∧ Background.app s' = Some key
  ∧ Background.requests s'
    = Background.requests s
      ++ [requestFor key example_url (Background.options s)].
Proof.
  split; [split; [done | split; [done | split; [done | split; [by right | done]]]] |].
  apply (X18_client_made_with_stored_key (serving example_scrape) example_url
           (js "fc-key") (Background.boot None (Some (js "fc-key"))));
    [done | done | done | by right | done].
Defined.

(** X19: once the client is made, [scrapeUrl] reads nothing from the
    storage: whatever key and options are stored meanwhile, it calls the
    client made with the old key, asking for markdown, then for a
    screenshot if [captureScreenshot] is set, then for the extraction, with
    its schema, if [extractSchema] is set (the format pushed after the
    options object was built is in the request), with [onlyMainContent] the
    negation of [fullPageContent], all as the wrapper's own options have
    them; and it gives the answer it would have given. *)
Theorem X19_request_from_own_options (host : Background.Host)
    (url client : jsstring) (s : Background.State)
    (storedOptions : option Background.Options) (storedKey : option jsstring) :
  Background.app s = Some client →
  let s0 := Background.set_optionsStorage storedOptions
              (Background.set_firecrawlKeyStorage storedKey s) in
  let r := Background.scrapeUrl host url s0 in
  Background.requests r.2
  = Background.requests s ++ [requestFor client url (Background.options s)]
  ∧ Background.reads r.2 = Background.reads s
  ∧ Background.app r.2 = Some client
  ∧ r.1 = (Background.scrapeUrl host url s).1.
Proof.
  intros Happ s0 r. subst r.
  assert (Happ0 : Background.app s0 = Some client) by done.
  rewrite (scrapeUrl_with_client host url s0 client Happ0).
  rewrite (scrapeUrl_with_client host url s client Happ). subst s0.
  cbn [Background.requests Background.options Background.set_optionsStorage
       Background.set_firecrawlKeyStorage].
  destruct (Background.api host _) as [e|response]; [done |].
  by destruct (Background.sr_success response).
Qed.

Lemma X19_request_from_own_options_witness :
  let host := serving example_scrape in
  let s := (Background.scrapeUrl host example_url
              (Background.boot None (Some (js "fc-key")))).2 in
  let s0 := Background.set_optionsStorage None
              (Background.set_firecrawlKeyStorage (Some (js "other")) s) in
  let r := Background.scrapeUrl host example_url s0 in
  Background.app s = Some (js "fc-key")
  ∧ Background.requests r.2
    = Background.requests s
      ++ [requestFor (js "fc-key") example_url (Background.options s)]
  ∧ Background.reads r.2 = Background.reads s
  ∧ Background.app r.2 = Some (js "fc-key")
  ∧ r.1 = (Background.scrapeUrl host example_url s).1.
Proof.
  split; [done |].
  by apply (X19_request_from_own_options (serving example_scrape) example_url
              (js "fc-key")).
Defined.

Lemma startsWith_app p s : Background.startsWith (p ++ s) p = true.
Proof.
  unfold Background.startsWith. apply bool_decide_eq_true.
  rewrite strip_prefix_app. by eexists.
Qed.

(** X20: a screenshot the client delivers is put into the markdown as a
    [data:] URL (a screenshot that is one already is left as it is), while
    [originalData] keeps what the client delivered: the [done] state the
    content script builds from the response carries the screenshot as
    delivered, so for a bare base64 string the link state and the markdown
    disagree about the image. *)
Theorem X20_screenshot_raw_and_normalised (url shot : jsstring)
    (response : Background.ScrapeResponse) :
  Background.sr_screenshot response = Some shot → shot ≠ [] →
  let d := Background.processResponse response in
  (∃ pre, markdown d = pre ++ js "![Page Screenshot]("
                       ++ Background.screenshotUrl shot ++ js ")")
  ∧ Background.startsWith (Background.screenshotUrl shot) (js "data:") = true
  ∧ Background.screenshotUrl (Background.screenshotUrl shot)
    = Background.screenshotUrl shot
  ∧ screenshot (doneState url d) = Some shot
  ∧ (Background.startsWith shot (js "data:") = false →
     screenshot (doneState url d) ≠ Some (Background.screenshotUrl shot)).
Proof.
  intros Hshot Hne d. subst d.
  assert (Ht : truthy (Some shot) = true) by (by destruct shot).
  assert (Hdata : Background.startsWith (Background.screenshotUrl shot) (js "data:") = true).
  { unfold Background.screenshotUrl.
    destruct (Background.startsWith shot (js "data:")) eqn:Hs; [done |].
    apply (startsWith_app (js "data:") (js "image/png;base64," ++ shot)). }
  split; [| split; [exact Hdata | split; [| split]]].
  - unfold Background.processResponse. rewrite Hshot, Ht. cbn [markdown default].
    eexists. by rewrite !(assoc_L (++)).
  - unfold Background.screenshotUrl at 1. by rewrite Hdata.
  - unfold doneState, Background.processResponse. cbn [originalData mbind option_bind od_screenshot screenshot].
    by rewrite Hshot, Ht.
  - intros Hs. unfold doneState, Background.processResponse.
    cbn [originalData mbind option_bind od_screenshot screenshot].
    rewrite Hshot, Ht. intros [= Heq]. rewrite Heq in Hs. congruence.
Qed.

Lemma X20_screenshot_raw_and_normalised_witness :
  let shot := js "iVBORw0KGgo=" in
  let d := Background.processResponse example_scrape in
  (Background.sr_screenshot example_scrape = Some shot ∧ shot ≠ [])
  ∧ (∃ pre, markdown d = pre ++ js "![Page Screenshot]("
                         ++ Background.screenshotUrl shot ++ js ")")
  ∧ Background.startsWith (Background.screenshotUrl shot) (js "data:") = true
  ∧ Background.screenshotUrl (Background.screenshotUrl shot)
    = Background.screenshotUrl shot
  ∧ screenshot (doneState example_url d) = Some shot
  ∧ (Background.startsWith shot (js "data:") = false →
     screenshot (doneState example_url d) ≠ Some (Background.screenshotUrl shot)).
Proof.
  split; [by split |].
  by apply (X20_screenshot_raw_and_normalised example_url (js "iVBORw0KGgo=")
              example_scrape).
Defined.

Lemma foldl_bullets (acc : jsstring) (items : list jsstring) :
  foldl (λ markdown point, markdown ++ js "- " ++ point ++ [10]) acc items
  = acc ++ bullets items.
Proof.
  revert acc; induction items as [|item items IH]; intros acc; cbn [foldl].
  - unfold bullets. cbn. by rewrite app_nil_r.
  - rewrite IH. unfold bullets. rewrite fmap_cons.
    change (mjoin (?x :: ?l)) with (x ++ mjoin l).
    by rewrite <- !(assoc_L (++)).
Qed.

Lemma bullets_cons item items :
  bullets (item :: items) = js "- " ++ item ++ [10] ++ bullets items.
Proof.
  unfold bullets. rewrite fmap_cons.
  change (mjoin (?x :: ?l)) with (x ++ mjoin l).
  by rewrite <- !(assoc_L (++)).
Qed.

Lemma join_bullets (items : list jsstring) :
  items ≠ [] →
  Background.join [10] ((λ t, js "- " ++ t) <$> items) ++ [10] = bullets items.
Proof.
  induction items as [|item items IH]; [done |]. intros _.
  rewrite bullets_cons. destruct items as [|item' items].
  - change (bullets []) with (@nil N). rewrite app_nil_r.
    rewrite fmap_cons, fmap_nil. cbn [Background.join].
    by rewrite <- !(assoc_L (++)).
  - rewrite <- IH by done. rewrite !fmap_cons. cbn [Background.join].
    by rewrite <- !(assoc_L (++)).
Qed.

Lemma listed_join heading (acc : jsstring) items :
  match items with
  | Some items =>
      acc ++ js heading ++ [10]
      ++ Background.join [10] ((λ t, js "- " ++ t) <$> items) ++ [10]
  | None => acc
  end = acc ++ listed heading items.
Proof.
  destruct items as [[|item items]|]; [done | | by rewrite app_nil_r].
  unfold listed. by rewrite (join_bullets (item :: items)).
Qed.

(** X21: the layout of [formatExtractedData]: the title as a heading, the
    summary, then the key points, the technical lists and the pricing,
    where every item of a list, key point or technical entry alike, is a
    line of its own after ["- "]; a technical list that is present but
    empty leaves an empty line under its heading; and the starting price
    appears only when it is a string that is not empty. *)
Theorem X21_extract_layout (extract : Background.ExtractSchema) :
  Background.formatExtractedData extract
  = js "# " ++ Background.ex_title extract ++ [10; 10]
    ++ js "## Summary" ++ [10] ++ Background.summary extract ++ [10; 10]
    ++ js "## Key Points" ++ [10] ++ bullets (Background.keyPoints extract)
    ++ match Background.technicalDetails extract with
       | Some details =>
           [10] ++ js "## Technical Details" ++ [10]
           ++ listed "### Technologies" (Background.technologies details)
           ++ listed "### APIs" (Background.apis details)
           ++ listed "### Frameworks" (Background.frameworks details)
       | None => []
       end
    ++ match Background.pricing extract with
       | Some p =>
           [10] ++ js "## Pricing" ++ [10]
           ++ js "- Model: " ++ Background.model p ++ [10]
           ++ js "- Free Option: "
           ++ (if Background.hasFreeOption p then js "Yes" else js "No") ++ [10]
           ++ match Background.startingPrice p with
              | Some (c :: price) =>
                  js "- Starting Price: " ++ (c :: price) ++ [10]
              | _ => []
              end
       | None => []
       end.
Proof.
  unfold Background.formatExtractedData. cbv zeta. rewrite foldl_bullets.
  destruct (Background.technicalDetails extract) as [details|].
  - rewrite (listed_join "### Frameworks"), (listed_join "### APIs"),
      (listed_join "### Technologies").
    destruct (Background.pricing extract) as [p|];
      [| by rewrite ?app_nil_r, <- ?(assoc_L (++))].
    destruct (Background.startingPrice p) as [[|c price]|];
      unfold truthy; rewrite ?app_nil_r; by rewrite <- ?(assoc_L (++)).
  - destruct (Background.pricing extract) as [p|];
      [| by rewrite ?app_nil_r, <- ?(assoc_L (++))].
    destruct (Background.startingPrice p) as [[|c price]|];
      unfold truthy; rewrite ?app_nil_r; by rewrite <- ?(assoc_L (++)).
Qed.

(** ** The message listener *)

Section listener_props.
Import Background.

Lemma JsMap_get_delete_ne {V} k k' (m : list (jsstring * V)) :
  k ≠ k' → JsMap.get k (JsMap.delete k' m) = JsMap.get k m.
Proof.
  intros Hk. unfold JsMap.delete.
  etrans; [exact (JsMap_get_filter (λ x, x ≠ k') k m) |]. by rewrite decide_True.
Qed.

Lemma Forall2_impl_elem {A B} (P Q : A → B → Prop) l k :
  Forall2 P l k → (∀ x y, x ∈ l → P x y → Q x y) → Forall2 Q l k.
Proof.
  induction 1 as [|x y l k HP _ IH]; intros Himp; constructor.
  - apply Himp; [by left | done].
  - apply IH. intros x' y' Hx'. apply Himp. by right.
Qed.

Lemma arrivals_Arrives requestId channel run :
  arrivals (Arrives requestId channel :: run) = (requestId, channel) :: arrivals run.
Proof. done. Qed.

Lemma arrivals_Settles requestId result run :
  arrivals (Settles requestId result :: run) = arrivals run.
Proof. done. Qed.

Lemma settlements_Arrives requestId channel run :
  settlements (Arrives requestId channel :: run) = settlements run.
Proof. done. Qed.

Lemma settlements_Settles requestId result run :
  settlements (Settles requestId result :: run) = (requestId, result) :: settlements run.
Proof. done. Qed.

Lemma listener_run run : ∀ l seen,
  let all := pendingRequests l ++ arrivals run in
  NoDup all.*1 → NoDup (settlements run).*1 →
  started seen run →
  (∀ k, k ∈ seen → k ∈ (settlements run).*1 → k ∈ JsMap.keys (pendingRequests l)) →
  JsMap.keys (pendingRequests l) ⊆ seen →
  Forall2 (λ sr out, JsMap.get sr.1 all = Some out.1 ∧ out.2 = sr.2)
    (settlements run) (drop (length (sent l)) (sent (foldl step l run)))
  ∧ take (length (sent l)) (sent (foldl step l run)) = sent l
  ∧ pendingRequests (foldl step l run)
    = filter (λ e, e.1 ∉ (settlements run).*1) all.
Proof.
  induction run as [|[requestId channel|requestId result] run IH];
    intros l seen all Hnd Hns Hst Hseen Hsub.
  - cbn [foldl]. subst all. change (arrivals []) with (@nil (jsstring * nat)).
    change (settlements []) with (@nil (jsstring * Response)).
    rewrite app_nil_r, drop_all, take_ge by done.
    split; [constructor |]. split; [done |].
    symmetry. apply filter_True. intros e _. apply not_elem_of_nil.
  - cbn [foldl step]. unfold onMessage. rewrite decide_True by done. cbn [snd].
    assert (Hfresh : requestId ∉ JsMap.keys (pendingRequests l)).
    { subst all. rewrite arrivals_Arrives, fmap_app, fmap_cons in Hnd.
      apply NoDup_app in Hnd as (_ & Hdis & _). intros Hin.
      apply (Hdis _ Hin). by left. }
    rewrite (JsMap_set_fresh _ _ _ Hfresh).
    set (l' := {| pendingRequests := pendingRequests l ++ [(requestId, channel)];
                  sent := sent l |}).
    assert (Hall : pendingRequests l' ++ arrivals run = all).
    { subst all l'. cbn [pendingRequests]. by rewrite arrivals_Arrives, <- (assoc_L (++)). }
    specialize (IH l' (seen ++ [requestId])). cbv zeta in IH. rewrite Hall in IH.
    rewrite settlements_Arrives in *. apply IH; [done | done | done | |].
    + intros k Hk Hks. subst l'. cbn [pendingRequests]. unfold JsMap.keys.
      rewrite fmap_app. apply elem_of_app in Hk as [Hk | ->%list_elem_of_singleton].
      * apply elem_of_app. left. by apply Hseen.
      * apply elem_of_app. right. by left.
    + subst l'. cbn [pendingRequests]. unfold JsMap.keys. rewrite fmap_app.
      intros k [Hk | Hk]%elem_of_app; apply elem_of_app; [left; by apply Hsub | by right].
  - destruct Hst as [Hin Hst]. cbn [foldl step]. unfold onScraped.
    rewrite settlements_Settles in *. rewrite fmap_cons in Hns, Hseen.
    apply NoDup_cons in Hns as [Hnew Hns].
    assert (Hkey : requestId ∈ JsMap.keys (pendingRequests l))
      by (apply Hseen; [done | by left]).
    apply (JsMap_get_is_Some requestId (pendingRequests l)) in Hkey as [channel Hget].
    rewrite Hget.
    set (l' := {| pendingRequests := JsMap.delete requestId (pendingRequests l);
                  sent := sent l ++ [(channel, result)] |}).
    subst all. rewrite arrivals_Settles in *.
    assert (Hnd' : NoDup (pendingRequests l' ++ arrivals run).*1).
    { subst l'. cbn [pendingRequests]. rewrite fmap_app in Hnd |- *.
      apply NoDup_app in Hnd as (Hn1 & Hdis & Hn2).
      apply NoDup_app. split; [by apply NoDup_keys_filter |]. split; [| done].
      intros k (e & -> & [_ He]%list_elem_of_filter)%list_elem_of_fmap.
      apply Hdis. by apply list_elem_of_fmap_2. }
    assert (Hnot : requestId ∉ (arrivals run).*1).
    { rewrite fmap_app in Hnd. apply NoDup_app in Hnd as (_ & Hdis & _).
      apply Hdis. apply JsMap_get_is_Some. by eexists. }
    destruct (IH l' seen Hnd' Hns Hst) as (Hout & Htake & Hpend).
    { intros k Hk Hks. subst l'. cbn [pendingRequests].
      apply JsMap_get_is_Some. rewrite JsMap_get_delete_ne by (by intros ->).
      apply JsMap_get_is_Some, Hseen; [done | by right]. }
    { subst l'. cbn [pendingRequests]. intros k Hk. apply Hsub.
      unfold JsMap.keys, JsMap.delete in *.
      apply list_elem_of_fmap in Hk as (e & -> & [_ He]%list_elem_of_filter).
      by apply list_elem_of_fmap_2. }
    subst l'. cbn [sent pendingRequests] in *. rewrite length_app in Hout, Htake.
    cbn [length] in Hout, Htake.
    set (final := sent (foldl step _ run)) in *.
    assert (Hlen : (length (sent l) + 1 ≤ length final)%nat).
    { apply (f_equal length) in Htake. rewrite length_take, length_app in Htake.
      cbn [length] in Htake. lia. }
    assert (Hsplit : take (length (sent l) + 1) final
                     = take (length (sent l)) final
                       ++ take 1 (drop (length (sent l)) final)).
    { rewrite <- (take_drop (length (sent l)) final) at 1.
      rewrite take_app, length_take, Nat.min_l by lia.
      rewrite take_ge by (rewrite length_take; lia).
      by replace (length (sent l) + 1 - length (sent l))%nat with 1%nat by lia. }
    rewrite Hsplit in Htake.
    assert (Hl : length (take (length (sent l)) final) = length (sent l))
      by (rewrite length_take; lia).
    apply app_inj_1 in Htake as [Htake1 Htake2]; [| done].
    split; [| split; [done |]].
    + rewrite <- (take_drop 1 (drop (length (sent l)) final)). rewrite Htake2.
      rewrite drop_drop. constructor.
      * cbn [fst snd]. split; [| done]. by rewrite JsMap_get_app, Hget.
      * eapply Forall2_impl_elem; [exact Hout |]. intros [k r] [c r'] Hin' [Hg Hr].
        split; [| done]. cbn [fst] in *. rewrite <- Hg.
        assert (k ≠ requestId).
        { intros ->. apply Hnew. by apply (list_elem_of_fmap_2 fst) in Hin'. }
        rewrite !JsMap_get_app, JsMap_get_delete_ne by done. done.
    + rewrite Hpend, fmap_cons. cbn [fst]. rewrite !filter_app. f_equal.
      * unfold JsMap.delete. rewrite list_filter_filter. apply list_filter_iff.
        intros e. rewrite not_elem_of_cons. tauto.
      * apply list_filter_iff_in. intros e He. rewrite not_elem_of_cons.
        split; [| tauto]. intros Hn. split; [| done]. intros Heq. apply Hnot.
        rewrite <- Heq. by apply list_elem_of_fmap_2.
Qed.

End listener_props.

(** X22: when the request ids drawn for the messages of a run are
    pairwise distinct, every scrape that settles is answered exactly once,
    in the order of settling, on the channel its message arrived on and
    with its own result; the map of pending requests is left holding
    exactly the requests whose scrape has not settled, and nothing once
    all have. A message with another action is ignored. *)
Theorem X22_each_request_answered_once (run : list Background.Step) :
  NoDup (Background.arrivals run).*1 →
  NoDup (Background.settlements run).*1 →
  Background.started [] run →
  let l := foldl Background.step Background.idle run in
  Forall2 (λ sr out, JsMap.get sr.1 (Background.arrivals run) = Some out.1
                     ∧ out.2 = sr.2)
    (Background.settlements run) (Background.sent l)
  ∧ Background.pendingRequests l
    = filter (λ e, e.1 ∉ (Background.settlements run).*1)
        (Background.arrivals run)
  ∧ ((Background.arrivals run).*1 ⊆ (Background.settlements run).*1 →
     Background.pendingRequests l = [])
  ∧ ∀ action requestId channel l0,
      action ≠ js "fetchContext" →
      Background.onMessage action requestId channel l0 = (false, l0).
Proof.
  intros Hna Hns Hst l.
  destruct (listener_run run Background.idle [] Hna Hns Hst) as (Hout & _ & Hpend);
    [by intros k ?%elem_of_nil | by intros k ?%elem_of_nil |].
  fold l in Hout, Hpend. cbn [Background.idle Background.sent Background.pendingRequests
                              length drop app] in Hout, Hpend.
  split; [exact Hout |]. split; [exact Hpend |]. split.
  - intros Hsub. rewrite Hpend. apply filter_False. intros e He Hn. apply Hn, Hsub.
    by apply list_elem_of_fmap_2.
  - intros action requestId channel l0 Ha. unfold Background.onMessage.
    by rewrite decide_False.
Qed.

Lemma X22_each_request_answered_once_witness :
  let l := foldl Background.step Background.idle distinct_run in
  (NoDup (Background.arrivals distinct_run).*1
   ∧ NoDup (Background.settlements distinct_run).*1
   ∧ Background.started [] distinct_run)
  ∧ Forall2 (λ sr out, JsMap.get sr.1 (Background.arrivals distinct_run) = Some out.1
                       ∧ out.2 = sr.2)
      (Background.settlements distinct_run) (Background.sent l)
  ∧ Background.pendingRequests l
    = filter (λ e, e.1 ∉ (Background.settlements distinct_run).*1)
        (Background.arrivals distinct_run)
  ∧ ((Background.arrivals distinct_run).*1
     ⊆ (Background.settlements distinct_run).*1 →
     Background.pendingRequests l = [])
  ∧ ∀ action requestId channel l0,
      action ≠ js "fetchContext" →
      Background.onMessage action requestId channel l0 = (false, l0).
Proof.
  assert (Hna : NoDup (Background.arrivals distinct_run).*1)
    by (apply (bool_decide_unpack _); by vm_compute).
  assert (Hns : NoDup (Background.settlements distinct_run).*1)
    by (apply (bool_decide_unpack _); by vm_compute).
  assert (Hst : Background.started [] distinct_run).
  { cbn. split; [| split; [| done]]; apply (bool_decide_unpack _); by vm_compute. }
  split; [by split |].
  by apply (X22_each_request_answered_once distinct_run).
Defined.

(** Two messages in flight for which the same request id is drawn: the
    first scrape to settle is answered on the second channel, and the
    first channel is never answered. *)
Example request_id_collision :
  let l := foldl Background.step Background.idle colliding_run in
  Background.sent l = [(2%nat, example_ok)]
  ∧ Background.pendingRequests l = [].
Proof. by vm_compute. Qed.

(** X23: a change made on the options page is stored whole, with the
    other options as the page has them, and the page shows it; the
    background script takes it up when it initialises, not before: until
    then its requests are made with the options it started with. *)
Theorem X23_option_change_needs_restart (host : Background.Host)
    (change : OptionsPage.Change) (page : OptionsPage.Page)
    (s : Background.State) (w : World) :
  Background.readFault host (Background.reads s) = None →
  let r := OptionsPage.handleOptionChange change page s in
  let new := OptionsPage.changed change (OptionsPage.options page) in
  OptionsPage.options r.1 = new
  ∧ Background.options r.2 = Background.options s
  ∧ Background.options (Background.initialize host r.2).2 = new
  ∧ OptionsPage.options (OptionsPage.loadData r.2 w OptionsPage.mount) = new.
Proof.
  intros Hread r new. subst r new.
  split; [done |]. split; [done |]. split; [| done].
  unfold Background.initialize, mbind, Background.M_bind, Background.getValue.
  cbn [OptionsPage.handleOptionChange snd Background.reads
       Background.set_optionsStorage Background.optionsStorage].
  rewrite Hread. cbn. by destruct (OptionsPage.changed change (OptionsPage.options page)).
Qed.

Lemma X23_option_change_needs_restart_witness :
  let host := serving example_scrape in
  let change := OptionsPage.CaptureScreenshot false in
  let page := OptionsPage.mount in
  let s := Background.boot None (Some (js "fc-key")) in
  let r := OptionsPage.handleOptionChange change page s in
  let new := OptionsPage.changed change (OptionsPage.options page) in
  Background.readFault host (Background.reads s) = None
  ∧ OptionsPage.options r.1 = new
  ∧ Background.options r.2 = Background.options s
  ∧ Background.options (Background.initialize host r.2).2 = new
  ∧ OptionsPage.options
      (OptionsPage.loadData r.2 (initial []) OptionsPage.mount) = new.
Proof.
  split; [done |].
  by apply (X23_option_change_needs_restart (serving example_scrape)
              (OptionsPage.CaptureScreenshot false) OptionsPage.mount
              (Background.boot None (Some (js "fc-key"))) (initial [])).
Defined.
